(** * Eager A* search of the mimir planner: model and verified properties

    A shallow embedding of [planners::EagerAStarSearch::plan]
    (src/mimir/search/eager_astar_search.cpp) together with the part of
    [planners::SearchBase] it relies on (src/mimir/search/search_base.hpp).

    Conventions of the model:
    - [double] values (g, h, f, action costs) are exact rationals [Qc];
      rounding, infinities and NaN are not modelled.
    - [int32_t] counters and depths are integers [Z]; signed overflow is
      undefined behaviour in C++ and is not modelled.  Frame handles
      ([static_cast<int32_t>(frame_list.size())]) are natural numbers.
    - shared pointers that may be null ([formalism::State],
      [formalism::Action]) are [option]s.
    - the [while] loops take fuel; running out of fuel stands for an
      execution that has not returned yet.
    - calls on the collaborators (open list, handlers) are additionally
      recorded in an event log, newest event first. *)

From stdpp Require Import ssreflect gmap strings list fin_maps numbers.
From Stdlib Require Import QArith Qcanon Lqa.

Local Open Scope Qc_scope.

(** ** Numbers *)

(** Implicit conversion [int32_t -> double] in [last_f_value < f_value]. *)
Definition int32_to_double (z : Z) : Qc := Q2Qc (inject_Z z).

(** Implicit conversion [double -> int32_t] in [last_f_value = f_value]:
    truncation towards zero. *)
Definition double_to_int32 (q : Qc) : Z := Z.quot (Qnum q) (Zpos (Qden q)).

(** ** Results, statistics and events *)

Inductive SearchResult := SOLVED | UNSOLVABLE | ABORTED.

(** [std::variant<int32_t, double>] *)
Inductive StatValue :=
| IntStat (z : Z)
| RealStat (q : Qc).

(** Calls made on the collaborators, in the order of the source:
    [open_list_->pop()], [open_list_->insert(index, priority)] and
    [notify_handlers()] (the handlers can read the statistics). *)
Inductive Event :=
| EvPop (index : nat)
| EvInsert (index : nat) (priority : Qc)
| EvNotify (snapshot : gmap string StatValue).

Definition is_notify (e : Event) : bool :=
  match e with EvNotify _ => true | _ => false end.

(** Modelled from the spec: the open-list interface ([planners::OpenList],
    declared outside src/): [insert(handle, priority)], [pop() -> handle]
    and [size()]. *)
Class OpenList (OL : Type) := {
  ol_insert : nat → Qc → OL → OL;
  ol_pop : OL → option (nat * OL);
  ol_size : OL → nat
}.

(** Modelled from the spec: the contract of the open list, a
    duplicate-tolerant min-priority queue: [insert] adds an entry, [pop]
    removes and returns an entry of minimum priority (ties broken by the
    implementation), [size] counts the entries. *)
Class OpenListContract (OL : Type) `{OpenList OL} := {
  ol_entries : OL → list (nat * Qc);
  ol_size_entries : ∀ ol, ol_size ol = length (ol_entries ol);
  ol_insert_entries : ∀ i p ol,
    ol_entries (ol_insert i p ol) ≡ₚ (i, p) :: ol_entries ol;
  ol_pop_entries : ∀ ol, (0 < ol_size ol)%nat →
    ∃ i p ol', ol_pop ol = Some (i, ol') ∧
      ol_entries ol ≡ₚ (i, p) :: ol_entries ol' ∧
      ∀ j q, (j, q) ∈ ol_entries ol → p <= q
}.

(** ** Frames *)

Section Model.
Context {State Action : Type} `{Countable State}.
Context {OL : Type} `{OpenList OL}.

(** [struct Frame] local to [plan]. *)
Record Frame := mkFrame {
  state : option State;
  predecessor_action : option Action;
  predecessor_index : Z;
  depth : Z;
  g_value : Qc;
  h_value : Qc;
  closed : bool
}.

Definition set_closed (b : bool) (f : Frame) : Frame :=
  mkFrame (state f) (predecessor_action f) (predecessor_index f) (depth f)
          (g_value f) (h_value f) b.

(** The four assignments of the "better way" branch. *)
Definition relink (a : Action) (index : nat) (d : Z) (g : Qc) (f : Frame) : Frame :=
  mkFrame (state f) (Some a) (Z.of_nat index) d g (h_value f) (closed f).

(** The members and locals of [plan]. *)
Record SearchState := mkSearch {
  open_list : OL;
  statistics : gmap string StatValue;
  out_plan : list Action;
  events : list Event;
  expanded : Z;
  generated : Z;
  evaluated : Z;
  last_f_value : Z;
  state_indices : gmap State nat;
  frame_list : list Frame
}.

(** The problem and the collaborators. *)
Variable initial : State.                    (* create_state(problem_->initial, problem_) *)
Variable goal : State → bool.                (* literals_hold(problem_->goal, state) *)
Variable applicable : State → list Action.   (* get_applicable_actions(state) *)
Variable apply : Action → State → State.     (* formalism::apply(action, state) *)
Variable cost : Action → Qc.                 (* action->cost *)
Variable evaluate : State → Qc.              (* heuristic_->evaluate(state) *)
Variable is_dead_end : Qc → bool.            (* HeuristicBase::is_dead_end *)
(** The value of the volatile flag [should_abort] seen by the check of
    line 90, as a function of the interaction so far: the flag is set
    from outside the loop (another thread, or a handler). *)
Variable should_abort : list Event → bool.

(** Lines 31-63: locals and the "Initialize data-structures" block. *)
Definition dummy_frame : Frame := mkFrame None None (-1) 0 0 0 true.

Definition initialize (ol : OL) (out : list Action) : SearchState :=
  let frame_list0 := [dummy_frame] in
  let initial_index := length frame_list0 in
  let initial_h_value := evaluate initial in
  {| open_list := ol_insert initial_index 0 ol;
     statistics := ∅;
     out_plan := out;
     events := [EvInsert initial_index 0];
     expanded := 0;
     generated := 0;
     evaluated := 0 + 1;
     last_f_value := -1;
     state_indices := <[initial := initial_index]> ∅;
     frame_list :=
       frame_list0 ++ [mkFrame (Some initial) None (-1) 0 0 initial_h_value false] |}.

(** Lines 80-87: the statistics snapshot and the notification. *)
Definition take_snapshot (frame : Frame) (f_value : Qc) (st : SearchState) : SearchState :=
  let stats :=
    <["max_f_value" := RealStat f_value]>
    (<["max_g_value" := RealStat (g_value frame)]>
    (<["max_depth" := IntStat (depth frame)]>
    (<["evaluated" := IntStat (evaluated st)]>
    (<["generated" := IntStat (generated st)]>
    (<["expanded" := IntStat (expanded st)]> (statistics st)))))) in
  {| open_list := open_list st;
     statistics := stats;
     out_plan := out_plan st;
     events := EvNotify stats :: events st;
     expanded := expanded st;
     generated := generated st;
     evaluated := evaluated st;
     last_f_value := double_to_int32 f_value;
     state_indices := state_indices st;
     frame_list := frame_list st |}.

(** Lines 98-107: the walk along the predecessor links.  [out] is
    [out_plan] after [clear()] and [emplace_back] appends to it; the
    caller reverses the result (line 107).  [frame_list.at] throws on a
    bad index. *)
Inductive Reconstruction :=
| ReconDone (acts : list Action)
| ReconOutOfRange
| ReconOutOfFuel.

Definition frame_at (frames : list Frame) (i : Z) : option Frame :=
  if decide (0 ≤ i)%Z then frames !! Z.to_nat i else None.

Fixpoint reconstruct (fuel : nat) (frames : list Frame) (current_frame : Frame)
    (out : list Action) : Reconstruction :=
  match predecessor_action current_frame with
  | None => ReconDone out
  | Some a =>
    match fuel with
    | O => ReconOutOfFuel
    | S fuel' =>
      match frame_at frames (predecessor_index current_frame) with
      | None => ReconOutOfRange
      | Some f => reconstruct fuel' frames f (out ++ [a])
      end
    end
  end.

(** Lines 117-162: the body of the loop over the applicable actions.
    [frame] is a reference into [frame_list], so it is read again from
    the list at every action.  [None] is undefined behaviour (an index
    outside [frame_list], a null state). *)
Definition process_action (index : nat) (st : SearchState) (action : Action)
    : option SearchState :=
  frame ← frame_list st !! index;
  s ← state frame;
  let succ_state := apply action s in
  let succ_index := default 0%nat (state_indices st !! succ_state) in
  if decide (succ_index = 0%nat) then
    let succ_index := length (frame_list st) in
    let succ_g_value := g_value frame + cost action in
    let succ_h_value := evaluate succ_state in
    let succ_f_value := succ_g_value + succ_h_value in
    let succ_dead_end := is_dead_end succ_h_value in
    let frames :=
      frame_list st ++
        [mkFrame (Some succ_state) (Some action) (Z.of_nat index) (depth frame + 1)
                 succ_g_value succ_h_value succ_dead_end] in
    if succ_dead_end then
      Some {| open_list := open_list st;
              statistics := statistics st;
              out_plan := out_plan st;
              events := events st;
              expanded := expanded st;
              generated := generated st;
              evaluated := evaluated st + 1;
              last_f_value := last_f_value st;
              state_indices := <[succ_state := succ_index]> (state_indices st);
              frame_list := frames |}
    else
      Some {| open_list := ol_insert succ_index succ_f_value (open_list st);
              statistics := statistics st;
              out_plan := out_plan st;
              events := EvInsert succ_index succ_f_value :: events st;
              expanded := expanded st;
              generated := generated st + 1;
              evaluated := evaluated st + 1;
              last_f_value := last_f_value st;
              state_indices := <[succ_state := succ_index]> (state_indices st);
              frame_list := frames |}
  else
    succ_frame ← frame_list st !! succ_index;
    let succ_g_value := g_value frame + cost action in
    if decide (succ_g_value < g_value succ_frame) then
      let frames :=
        <[succ_index := relink action index (depth frame + 1) succ_g_value succ_frame]>
          (frame_list st) in
      if is_dead_end (h_value succ_frame) then
        Some {| open_list := open_list st;
                statistics := statistics st;
                out_plan := out_plan st;
                events := events st;
                expanded := expanded st;
                generated := generated st;
                evaluated := evaluated st;
                last_f_value := last_f_value st;
                state_indices := state_indices st;
                frame_list := frames |}
      else
        let succ_f_value := succ_g_value + h_value succ_frame in
        Some {| open_list := ol_insert succ_index succ_f_value (open_list st);
                statistics := statistics st;
                out_plan := out_plan st;
                events := EvInsert succ_index succ_f_value :: events st;
                expanded := expanded st;
                generated := generated st + 1;
                evaluated := evaluated st;
                last_f_value := last_f_value st;
                state_indices := state_indices st;
                frame_list := frames |}
    else Some st.

(** Line 115: [for (const auto& action : applicable_actions)]. *)
Fixpoint expand_actions (index : nat) (st : SearchState) (actions : list Action)
    : option SearchState :=
  match actions with
  | [] => Some st
  | action :: rest =>
    match process_action index st action with
    | Some st' => expand_actions index st' rest
    | None => None
    end
  end.

(** How a call of [plan] ends. *)
Inductive Outcome :=
| Returned (result : SearchResult) (final : SearchState)
| Threw (what : string)
| Undefined
| OutOfFuel.

Inductive Step :=
| Continue (st : SearchState)
| Stop (o : Outcome).

(** Line 67: [open_list_->pop()]. *)
Definition popped (index : nat) (ol : OL) (st : SearchState) : SearchState :=
  {| open_list := ol;
     statistics := statistics st;
     out_plan := out_plan st;
     events := EvPop index :: events st;
     expanded := expanded st;
     generated := generated st;
     evaluated := evaluated st;
     last_f_value := last_f_value st;
     state_indices := state_indices st;
     frame_list := frame_list st |}.

(** Lines 75-88: close the frame, then snapshot at a new layer. *)
Definition accept (index : nat) (frame : Frame) (st : SearchState) : SearchState :=
  let frame := set_closed true frame in
  let st :=
    {| open_list := open_list st;
       statistics := statistics st;
       out_plan := out_plan st;
       events := events st;
       expanded := expanded st;
       generated := generated st;
       evaluated := evaluated st;
       last_f_value := last_f_value st;
       state_indices := state_indices st;
       frame_list := <[index := frame]> (frame_list st) |} in
  let f_value := g_value frame + h_value frame in
  if decide (int32_to_double (last_f_value st) < f_value)
  then take_snapshot frame f_value st
  else st.

Definition set_out_plan (out : list Action) (st : SearchState) : SearchState :=
  {| open_list := open_list st;
     statistics := statistics st;
     out_plan := out;
     events := events st;
     expanded := expanded st;
     generated := generated st;
     evaluated := evaluated st;
     last_f_value := last_f_value st;
     state_indices := state_indices st;
     frame_list := frame_list st |}.

Definition count_expansion (st : SearchState) : SearchState :=
  {| open_list := open_list st;
     statistics := statistics st;
     out_plan := out_plan st;
     events := events st;
     expanded := expanded st + 1;
     generated := generated st;
     evaluated := evaluated st;
     last_f_value := last_f_value st;
     state_indices := state_indices st;
     frame_list := frame_list st |}.

(** Lines 67-163: one round of the [while] loop. *)
Definition iteration (fuel : nat) (st : SearchState) : Step :=
  match ol_pop (open_list st) with
  | None => Stop Undefined
  | Some (index, ol') =>
    let st := popped index ol' st in
    match frame_list st !! index with
    | None => Stop Undefined
    | Some frame =>
      if closed frame then Continue st
      else
        let st := accept index frame st in
        if should_abort (events st) then Stop (Returned ABORTED st)
        else
          match state frame with
          | None => Stop Undefined
          | Some s =>
            if goal s then
              match reconstruct fuel (frame_list st) (set_closed true frame) [] with
              | ReconDone acts => Stop (Returned SOLVED (set_out_plan (rev acts) st))
              | ReconOutOfRange => Stop (Threw "out_of_range")
              | ReconOutOfFuel => Stop OutOfFuel
              end
            else
              match expand_actions index (count_expansion st) (applicable s) with
              | Some st' => Continue st'
              | None => Stop Undefined
              end
          end
    end
  end.

(** Lines 65-166: [while (open_list_->size() > 0) ...; return UNSOLVABLE]. *)
Fixpoint search_loop (fuel : nat) (st : SearchState) : Outcome :=
  if decide (0 < ol_size (open_list st))%nat then
    match fuel with
    | O => OutOfFuel
    | S fuel' =>
      match iteration fuel' st with
      | Continue st' => search_loop fuel' st'
      | Stop o => o
      end
    end
  else Returned UNSOLVABLE st.

(** Lines 24-167: [EagerAStarSearch::plan]. *)
Definition plan (fuel : nat) (ol : OL) (out : list Action) : Outcome :=
  if decide (0 < ol_size ol)%nat then Threw "open list is not initially empty"
  else search_loop fuel (initialize ol out).

End Model.

Arguments Frame : clear implicits.
Arguments SearchState : clear implicits.
Arguments SearchState _ _ {_ _} _.
Arguments Outcome : clear implicits.
Arguments Outcome _ _ {_ _} _.
Arguments Step : clear implicits.
Arguments Step _ _ {_ _} _.

(** ** A concrete open list *)

Module ListOpenList.

(** Modelled from the spec: [pop] of an open list kept as a list of
    entries (the concrete queues are not under src/): the earliest entry of
    minimum priority, its priority, and the other entries. *)
Fixpoint pop_min (l : list (nat * Qc)) : option (nat * Qc * list (nat * Qc)) :=
  match l with
  | [] => None
  | (i, p) :: l' =>
    match pop_min l' with
    | None => Some (i, p, [])
    | Some (j, q, r) =>
      if decide (q < p) then Some (j, q, (i, p) :: r) else Some (i, p, l')
    end
  end.

(** Modelled from the spec: an open list as the list of its entries;
    [insert] appends, [pop] removes the entry found by [pop_min]. *)
#[export] Instance list_open_list : OpenList (list (nat * Qc)) := {
  ol_insert i p l := l ++ [(i, p)];
  ol_pop l := match pop_min l with Some (i, _, r) => Some (i, r) | None => None end;
  ol_size l := length l
}.

End ListOpenList.

(** ** The predecessor chain of a frame

    The actions met when following the predecessor links from a frame
    until a frame without predecessor action, nearest action first. *)
Inductive pred_chain {State Action : Type} (frames : list (Frame State Action))
  : Frame State Action → list Action → Prop :=
| pred_chain_root f :
    predecessor_action f = None → pred_chain frames f []
| pred_chain_link f a f' acts :
    predecessor_action f = Some a →
    frame_at frames (predecessor_index f) = Some f' →
    pred_chain frames f' acts →
    pred_chain frames f (a :: acts).

(** ** The state space and the heuristic *)

Section StateSpace.
Context {State Action : Type}.
Variable goal : State → bool.
Variable applicable : State → list Action.
Variable apply : Action → State → State.
Variable cost : Action → Qc.
Variable evaluate : State → Qc.
Variable is_dead_end : Qc → bool.

(** [path s acts t]: the actions [acts], applied in order from [s], are
    each applicable and lead to [t]. *)
Inductive path : State → list Action → State → Prop :=
| path_nil s : path s [] s
| path_cons s a acts t :
    a ∈ applicable s → path (apply a s) acts t → path s (a :: acts) t.

Definition total_cost (acts : list Action) : Qc :=
  foldr (λ a c, cost a + c) 0 acts.

(** The heuristic never overestimates the cost of reaching a goal; the
    dead-end value stands for "no goal can be reached". *)
Definition admissible : Prop :=
  ∀ s acts t, path s acts t → goal t = true →
    is_dead_end (evaluate s) = false ∧ evaluate s <= total_cost acts.

Definition consistent : Prop :=
  ∀ s a, a ∈ applicable s → evaluate s <= cost a + evaluate (apply a s).

(** Heuristic values are non-negative (data model of the frames). *)
Definition nonnegative : Prop := ∀ s, 0 <= evaluate s.

End StateSpace.

(** ** Concrete problems

    States are named by strings, an action is the pair of its source and
    target state. *)
Module Scenarios.
Import ListOpenList.

Definition St := string.
Definition Act := (string * string)%type.

Definition target (a : Act) (s : St) : St := a.2.
Definition never_abort (evs : list Event) : bool := false.
Definition no_dead_end (h : Qc) : bool := false.

(** A chain [A -> B -> C] with unit costs, goal [C], [h = 2, 1, 0]. *)
Module Chain.
Definition actions (s : St) : list Act :=
  if decide (s = "A") then [("A", "B")]
  else if decide (s = "B") then [("B", "C")] else [].
Definition is_goal (s : St) : bool := bool_decide (s = "C").
Definition unit_cost (a : Act) : Qc := 1.
Definition h (s : St) : Qc :=
  if decide (s = "A") then 2 else if decide (s = "B") then 1 else 0.
Definition run {OL} `{OpenList OL} (fuel : nat) (ol : OL) (out : list Act) :=
  plan "A" is_goal actions target unit_cost h no_dead_end never_abort fuel ol out.
End Chain.

(** The value 1000 is the dead-end value of the heuristic. *)
Definition dead_end_1000 (h : Qc) : bool := bool_decide (h = Q2Qc 1000).

(** A single state [A], not a goal, without actions, which the heuristic
    reports as a dead end. *)
Module DeadInitial.
Definition actions (s : St) : list Act := [].
Definition is_goal (s : St) : bool := false.
Definition unit_cost (a : Act) : Qc := 1.
Definition h (s : St) : Qc := Q2Qc 1000.
Definition run (fuel : nat) :=
  plan (OL := list (nat * Qc)) "A" is_goal actions target unit_cost h
       dead_end_1000 never_abort fuel [] [].
End DeadInitial.

(** [A -> X] and [A -> G] with unit costs; [X] is a dead end, [G] the goal. *)
Module DeadSuccessor.
Definition actions (s : St) : list Act :=
  if decide (s = "A") then [("A", "X"); ("A", "G")] else [].
Definition is_goal (s : St) : bool := bool_decide (s = "G").
Definition unit_cost (a : Act) : Qc := 1.
Definition h (s : St) : Qc :=
  if decide (s = "A") then 1 else if decide (s = "X") then Q2Qc 1000 else 0.
Definition run (fuel : nat) :=
  plan (OL := list (nat * Qc)) "A" is_goal actions target unit_cost h
       dead_end_1000 never_abort fuel [] [].
End DeadSuccessor.

(** [A -> B] of cost 0 and [B -> C] of cost 1/2, goal [C], with
    [h(A) = h(B) = 1/2] and [h(C) = 0]: every f-value is 1/2. *)
Module Fractional.
Definition actions (s : St) : list Act :=
  if decide (s = "A") then [("A", "B")]
  else if decide (s = "B") then [("B", "C")] else [].
Definition is_goal (s : St) : bool := bool_decide (s = "C").
Definition edge_cost (a : Act) : Qc :=
  if decide (a.1 = "A") then 0 else Q2Qc (1 # 2).
Definition h (s : St) : Qc :=
  if decide (s = "C") then 0 else Q2Qc (1 # 2).
Definition run (fuel : nat) :=
  plan (OL := list (nat * Qc)) "A" is_goal actions target edge_cost h
       no_dead_end never_abort fuel [] [].
End Fractional.

(** Two routes to [D]: [A -> D] of cost 5, found first, and [A -> B -> D]
    of cost 1 + 1; [D -> G] of cost 1 reaches the goal; [h = 0]. *)
Module TwoRoutes.
Definition actions (s : St) : list Act :=
  if decide (s = "A") then [("A", "D"); ("A", "B")]
  else if decide (s = "B") then [("B", "D")]
  else if decide (s = "D") then [("D", "G")] else [].
Definition is_goal (s : St) : bool := bool_decide (s = "G").
Definition edge_cost (a : Act) : Qc :=
  if decide (a = ("A", "D")) then Q2Qc 5 else 1.
Definition h (s : St) : Qc := 0.
Definition run (fuel : nat) :=
  plan (OL := list (nat * Qc)) "A" is_goal actions target edge_cost h
       no_dead_end never_abort fuel [] [].

(** The search while [B] (handle 3) is expanded: [D] (handle 2) is known
    through the route of cost 5. *)
Definition frame_A : Frame St Act := mkFrame (Some "A") None (-1) 0 0 0 true.
Definition frame_D : Frame St Act :=
  mkFrame (Some "D") (Some ("A", "D")) 1 1 (Q2Qc 5) 0 false.
Definition frame_B : Frame St Act :=
  mkFrame (Some "B") (Some ("A", "B")) 1 1 1 0 true.
Definition expanding_B : SearchState St Act (list (nat * Qc)) :=
  {| open_list := [(2%nat, Q2Qc 5)];
     statistics := ∅;
     out_plan := [];
     events := [];
     expanded := 2;
     generated := 2;
     evaluated := 3;
     last_f_value := 1;
     state_indices := <["B" := 3%nat]> (<["D" := 2%nat]> (<["A" := 1%nat]> ∅));
     frame_list := [dummy_frame; frame_A; frame_D; frame_B] |}.
End TwoRoutes.

End Scenarios.

(** ** Observations used in the statements *)

(** The state in which a round of the loop leaves the search, when the
    loop goes on or [plan] returns. *)
Definition step_state {State Action OL : Type} `{Countable State}
    (s : Step State Action OL) : option (SearchState State Action OL) :=
  match s with
  | Continue st => Some st
  | Stop (Returned _ st) => Some st
  | Stop _ => None
  end.

(** The [max_f_value] of every snapshot the handlers were notified of,
    newest first. *)
Definition snapshot_f_values (evs : list Event) : list Qc :=
  omap (λ e, match e with
             | EvNotify stats =>
               match stats !! "max_f_value" with
               | Some (RealStat q) => Some q
               | _ => None
               end
             | _ => None
             end) evs.

(** [last_f_value] after the snapshots with the given f-values, newest
    first. *)
Definition last_layer (fs : list Qc) : Z :=
  match fs with
  | [] => -1
  | f :: _ => double_to_int32 f
  end.

(** Every snapshot was taken at an f-value above [last_f_value], the
    truncated f-value of the snapshot before it. *)
Fixpoint layered (fs : list Qc) : Prop :=
  match fs with
  | [] => True
  | f :: rest => int32_to_double (last_layer rest) < f ∧ layered rest
  end.

(** The statistics of the newest notification. *)
Definition last_snapshot (evs : list Event) : option (gmap string StatValue) :=
  head (omap (λ e, match e with EvNotify stats => Some stats | _ => None end) evs).

(** The keys of a snapshot. *)
Definition stat_keys : gset string :=
  {["expanded"; "generated"; "evaluated"; "max_depth"; "max_g_value"; "max_f_value"]}.

(** The handles popped from, respectively inserted into, the open list. *)
Definition popped_handles (evs : list Event) : list nat :=
  omap (λ e, match e with EvPop i => Some i | _ => None end) evs.

Definition inserted_handles (evs : list Event) : list nat :=
  omap (λ e, match e with EvInsert i _ => Some i | _ => None end) evs.

(** ** The invariant of the search *)

Section Invariant.
Context {State Action : Type} `{Countable State}.
Context {OL : Type} `{OpenListContract OL}.
Variable initial : State.
Variable goal : State → bool.
Variable applicable : State → list Action.
Variable apply : Action → State → State.
Variable cost : Action → Qc.
Variable evaluate : State → Qc.
Variable is_dead_end : Qc → bool.

(** How the frames evolve: old frames keep state, heuristic value and
    closed flag; new frames are closed exactly when their heuristic value
    is a dead end. *)
Definition frames_extend (F F' : list (Frame State Action)) : Prop :=
  (length F ≤ length F')%nat ∧
  (∀ i f, F !! i = Some f →
     ∃ f', F' !! i = Some f' ∧ closed f' = closed f ∧ h_value f' = h_value f ∧
           state f' = state f) ∧
  (∀ i f', (length F ≤ i)%nat → F' !! i = Some f' →
     closed f' = is_dead_end (h_value f')).

(** The states the search expands when it pops them: every state but the
    dead ends, and the initial state in any case. *)
Definition expandable (s : State) : Prop :=
  s = initial ∨ is_dead_end (evaluate s) = false.

(** [reach acts s]: [acts] leads from the initial state to [s] through
    expandable states only. *)
Inductive reach : list Action → State → Prop :=
| reach_nil : reach [] initial
| reach_snoc acts s a :
    reach acts s → expandable s → a ∈ applicable s →
    reach (acts ++ [a]) (apply a s).

(** A frame that was popped and accepted: closed, and not merely born
    closed as a dead end. *)
Definition accepted (i : nat) (f : Frame State Action) : Prop :=
  closed f = true ∧ (i = 1%nat ∨ is_dead_end (h_value f) = false).

(** The predecessor link of the frame [f] with handle [i] and state [s]:
    the frame of the initial state has none; any other frame points to an
    accepted frame, from whose state its action leads to [s], and extends
    its cost and depth. *)
Definition linked (F : list (Frame State Action)) (i : nat) (f : Frame State Action)
    (s : State) : Prop :=
  (i = 1%nat ∧ s = initial ∧ predecessor_action f = None ∧ g_value f = 0 ∧
   depth f = 0%Z)
  ∨
  (i ≠ 1%nat ∧ ∃ a j fj sj,
     predecessor_action f = Some a ∧ predecessor_index f = Z.of_nat j ∧
     (1 ≤ j)%nat ∧ F !! j = Some fj ∧ accepted j fj ∧ state fj = Some sj ∧
     a ∈ applicable sj ∧ apply a sj = s ∧
     g_value f = g_value fj + cost a ∧ depth f = (depth fj + 1)%Z).

(** What a frame with handle [i >= 1] records: its state, under which the
    state index knows the handle; the heuristic value of that state; its
    predecessor link; and a dead end (other than the initial state) is
    closed. *)
Record frame_ok (st : SearchState State Action OL) (i : nat) (f : Frame State Action)
    : Prop := {
  fo_state : ∃ s, state f = Some s ∧ state_indices st !! s = Some i ∧
               h_value f = evaluate s ∧ linked (frame_list st) i f s;
  fo_depth : (0 ≤ depth f)%Z;
  fo_dead : is_dead_end (h_value f) = true → i ≠ 1%nat → closed f = true
}.

(** The invariant of the loop.
    - [inv_len], [inv_index], [inv_frames]: the frame list and the state
      index describe each other;
    - [inv_entries]: a queued handle has a frame, whose f-value is at most
      the priority of the entry (the entry of the initial state has
      priority 0);
    - [inv_open]: a frame that is not closed has an entry of priority at
      most its f-value;
    - [inv_closure]: the successors of an accepted frame have frames, at
      most as expensive as the way through it.  [req i a] tells for which
      frames [i] and actions [a] this is required: all of them between two
      rounds of the loop; while frame [n] is expanded, only the actions of
      [n] processed so far;
    - [inv_optimal]: no way through expandable states reaches the state of
      an accepted frame at a lower cost than its [g_value];
    - [inv_nongoal]: the state of an accepted frame is not a goal;
    - [inv_root]: the frame of the initial state is closed as soon as there
      is another frame. *)
Record Inv (req : nat → Action → Prop) (st : SearchState State Action OL) : Prop := {
  inv_len : (2 ≤ length (frame_list st))%nat;
  inv_index : ∀ s i, state_indices st !! s = Some i →
    (1 ≤ i)%nat ∧ ∃ f, frame_list st !! i = Some f ∧ state f = Some s;
  inv_frames : ∀ i f, (1 ≤ i)%nat → frame_list st !! i = Some f → frame_ok st i f;
  inv_entries : ∀ i p, (i, p) ∈ ol_entries (open_list st) →
    (1 ≤ i)%nat ∧ ∃ f, frame_list st !! i = Some f ∧
      (i ≠ 1%nat → g_value f + h_value f <= p);
  inv_open : ∀ i f, (1 ≤ i)%nat → frame_list st !! i = Some f → closed f = false →
    ∃ p, (i, p) ∈ ol_entries (open_list st) ∧ p <= g_value f + h_value f;
  inv_closure : ∀ i f s a, (1 ≤ i)%nat → frame_list st !! i = Some f →
    accepted i f → state f = Some s → a ∈ applicable s → req i a →
    ∃ j fj, state_indices st !! apply a s = Some j ∧
      frame_list st !! j = Some fj ∧ g_value fj <= g_value f + cost a;
  inv_optimal : ∀ i f s acts, (1 ≤ i)%nat → frame_list st !! i = Some f →
    accepted i f → state f = Some s → reach acts s →
    g_value f <= total_cost cost acts;
  inv_nongoal : ∀ i f s, (1 ≤ i)%nat → frame_list st !! i = Some f →
    accepted i f → state f = Some s → goal s = false;
  inv_root : (∃ f1, frame_list st !! 1%nat = Some f1 ∧ closed f1 = true) ∨
             length (frame_list st) = 2%nat
}.

Definition req_all (i : nat) (a : Action) : Prop := True.

Definition req_expanding (n : nat) (processed : list Action) (i : nat) (a : Action)
    : Prop :=
  i ≠ n ∨ a ∈ processed.

(** The measure of termination: the states of the universe whose frame
    is not closed yet. *)
Definition is_closed (st : SearchState State Action OL) (s : State) : bool :=
  match state_indices st !! s with
  | Some i => match frame_list st !! i with
              | Some f => closed f
              | None => false
              end
  | None => false
  end.

Definition unclosed (universe : list State) (st : SearchState State Action OL) : nat :=
  length (filter (λ s, is_closed st s = false) universe).

(** A plan that reaches a goal at the least possible total cost. *)
Definition optimal_plan (acts : list Action) : Prop :=
  (∃ t, path applicable apply initial acts t ∧ goal t = true) ∧
  ∀ acts' t', path applicable apply initial acts' t' → goal t' = true →
    total_cost cost acts <= total_cost cost acts'.

Definition goal_reachable : Prop :=
  ∃ acts t, path applicable apply initial acts t ∧ goal t = true.

End Invariant.

(** ** What the search keeps whatever the heuristic *)

Section Wellformed.
Context {State Action : Type} `{Countable State}.
Context {OL : Type} `{OpenListContract OL}.
Variable initial : State.
Variable goal : State → bool.
Variable applicable : State → list Action.
Variable apply : Action → State → State.
Variable cost : Action → Qc.
Variable evaluate : State → Qc.
Variable is_dead_end : Qc → bool.

(** The predecessor link of a frame, as far as it holds for every
    heuristic: a frame without predecessor action is the untouched frame of
    the initial state; otherwise the link names a frame from whose state
    the action leads to the state of the frame, and the [g_value] is at
    least that of the predecessor plus the cost of the action (the
    predecessor may have been improved since). *)
Definition wlinked (F : list (Frame State Action)) (i : nat) (f : Frame State Action)
    (s : State) : Prop :=
  (predecessor_action f = None ∧ i = 1%nat ∧ s = initial ∧ g_value f = 0)
  ∨
  (∃ a j fj sj,
     predecessor_action f = Some a ∧ predecessor_index f = Z.of_nat j ∧
     (1 ≤ j)%nat ∧ F !! j = Some fj ∧ state fj = Some sj ∧
     a ∈ applicable sj ∧ apply a sj = s ∧
     g_value fj + cost a <= g_value f).

(** The frame list and the state index describe each other: index 0 holds
    a frame without state; every other frame has a state, which the index
    maps to its handle, holds the heuristic value of that state and a
    link as above; the state of every frame is reachable from the initial
    state, whose handle is 1. *)
Record WF (st : SearchState State Action OL) : Prop := {
  wf_dummy : ∃ f0, frame_list st !! 0%nat = Some f0 ∧ state f0 = None ∧
               closed f0 = true;
  wf_len : (2 ≤ length (frame_list st))%nat;
  wf_index : ∀ s i, state_indices st !! s = Some i →
    (1 ≤ i)%nat ∧ ∃ f, frame_list st !! i = Some f ∧ state f = Some s;
  wf_frames : ∀ i f, (1 ≤ i)%nat → frame_list st !! i = Some f →
    ∃ s, state f = Some s ∧ state_indices st !! s = Some i ∧
      h_value f = evaluate s ∧ wlinked (frame_list st) i f s;
  wf_reach : ∀ i f s, (1 ≤ i)%nat → frame_list st !! i = Some f →
    state f = Some s → ∃ acts, path applicable apply initial acts s;
  wf_initial : state_indices st !! initial = Some 1%nat
}.

(** The number of closed frames. *)
Definition closed_count (F : list (Frame State Action)) : nat :=
  length (filter (λ f, closed f = true) F).

(** What the counters count. *)
Record counters_ok (st : SearchState State Action OL) : Prop := {
  co_evaluated : evaluated st = (Z.of_nat (length (frame_list st)) - 1)%Z;
  co_generated :
    (generated st + 1)%Z = Z.of_nat (length (inserted_handles (events st)));
  co_expanded : (0 ≤ expanded st)%Z ∧
    (expanded st + 1 ≤ Z.of_nat (closed_count (frame_list st)))%Z;
  co_popped : (expanded st ≤ Z.of_nat (length (popped_handles (events st))))%Z
}.

(** What the open list holds, whatever the heuristic: queued handles have
    frames; a frame that is not closed is queued; the successors of an
    accepted frame are recorded ([req] as for [Inv]); the state of an
    accepted frame is not a goal; a dead end other than the initial state
    is closed. *)
Record Live (req : nat → Action → Prop) (st : SearchState State Action OL) : Prop := {
  lv_entries : ∀ i p, (i, p) ∈ ol_entries (open_list st) →
    (1 ≤ i)%nat ∧ is_Some (frame_list st !! i);
  lv_open : ∀ i f, (1 ≤ i)%nat → frame_list st !! i = Some f → closed f = false →
    ∃ p, (i, p) ∈ ol_entries (open_list st);
  lv_closure : ∀ i f s a, (1 ≤ i)%nat → frame_list st !! i = Some f →
    accepted is_dead_end i f → state f = Some s → a ∈ applicable s → req i a →
    is_Some (state_indices st !! apply a s);
  lv_nongoal : ∀ i f s, (1 ≤ i)%nat → frame_list st !! i = Some f →
    accepted is_dead_end i f → state f = Some s → goal s = false;
  lv_dead : ∀ i f, (1 ≤ i)%nat → i ≠ 1%nat → frame_list st !! i = Some f →
    is_dead_end (h_value f) = true → closed f = true
}.

(** The predecessor links of every frame lead to a frame without
    predecessor action. *)
Definition Chained (F : list (Frame State Action)) : Prop :=
  ∀ i f, (1 ≤ i)%nat → F !! i = Some f → ∃ chain, pred_chain F f chain.

(** Every handle that was given to the open list is the handle of a
    frame, and that frame is the frame of the initial state or its
    heuristic value is not a dead end. *)
Definition inserts_live (st : SearchState State Action OL) : Prop :=
  ∀ i, i ∈ inserted_handles (events st) →
    (1 ≤ i)%nat ∧ ∃ f, frame_list st !! i = Some f ∧
      (i = 1%nat ∨ is_dead_end (h_value f) = false).

(** The statistics are those of the newest notification, none before
    the first one; a snapshot has the six keys, and its counters are not
    ahead of the counters of the search. *)
Record stats_ok (st : SearchState State Action OL) : Prop := {
  so_last : statistics st = default ∅ (last_snapshot (events st));
  so_counters : (0 ≤ expanded st)%Z ∧ (0 ≤ generated st)%Z ∧ (1 ≤ evaluated st)%Z;
  so_content : last_snapshot (events st) = None ∨
    (dom (statistics st) = stat_keys ∧
     ∃ e g v d mg mf,
       statistics st !! "expanded" = Some (IntStat e) ∧
       statistics st !! "generated" = Some (IntStat g) ∧
       statistics st !! "evaluated" = Some (IntStat v) ∧
       statistics st !! "max_depth" = Some (IntStat d) ∧
       statistics st !! "max_g_value" = Some (RealStat mg) ∧
       statistics st !! "max_f_value" = Some (RealStat mf) ∧
       (0 ≤ e ≤ expanded st)%Z ∧ (0 ≤ g ≤ generated st)%Z ∧
       (1 ≤ v ≤ evaluated st)%Z)
}.

(** A sequence of actions that can be executed from the initial state
    and ends in a goal state. *)
Definition valid_plan (acts : list Action) : Prop :=
  ∃ t, path applicable apply initial acts t ∧ goal t = true.

End Wellformed.

(** * Properties *)

Lemma this_plus (a b : Qc) : (this (a + b) == this a + this b)%Q.
Proof. unfold Qcplus. simpl. apply Qred_correct. Qed.

Ltac qc_lra :=
  unfold Qcle, Qclt in *;
  repeat match goal with
  | H : context [this (_ + _)%Qc] |- _ => setoid_rewrite this_plus in H
  | |- context [this (_ + _)%Qc] => setoid_rewrite this_plus
  end; change (this 0%Qc) with 0%Q in *; lra.

Section Properties.
Context {State Action : Type} `{Countable State}.
Context {OL : Type} `{OpenList OL}.
Variable initial : State.
Variable goal : State → bool.
Variable applicable : State → list Action.
Variable apply : Action → State → State.
Variable cost : Action → Qc.
Variable evaluate : State → Qc.
Variable is_dead_end : Qc → bool.
Variable should_abort : list Event → bool.

Local Abbreviation SState := (SearchState State Action OL).
Local Abbreviation initialize' := (initialize (OL := OL) (Action := Action) initial evaluate).
Local Abbreviation process_action' :=
  (process_action (OL := OL) apply cost evaluate is_dead_end).
Local Abbreviation expand_actions' :=
  (expand_actions (OL := OL) apply cost evaluate is_dead_end).
Local Abbreviation iteration' :=
  (iteration (OL := OL) goal applicable apply cost evaluate is_dead_end should_abort).
Local Abbreviation search_loop' :=
  (search_loop (OL := OL) goal applicable apply cost evaluate is_dead_end should_abort).
Local Abbreviation frames_extend' :=
  (frames_extend (State := State) (Action := Action) is_dead_end).
Local Abbreviation plan' :=
  (plan (OL := OL) initial goal applicable apply cost evaluate is_dead_end should_abort).

(** *** The precondition *)

(** C9: a call of [plan] with a non-empty open list throws at once,
    whatever the fuel: nothing is allocated, popped or expanded before. *)
Theorem plan_open_list_not_empty (fuel : nat) (ol : OL) (out : list Action) :
  (0 < ol_size ol)%nat →
  plan initial goal applicable apply cost evaluate is_dead_end should_abort fuel ol out
  = Threw "open list is not initially empty".
Proof.
  intros Hsize. unfold plan. by rw decide_True.
Qed.

(** *** Initialisation *)

(** C2 (as amended): the initial state gets handle 1 and is inserted into
    the open list with priority 0, whatever its heuristic value, which is
    stored in its frame; exactly one evaluation is counted. *)
Theorem initialize_open_list (ol : OL) (out : list Action) :
  open_list (initialize initial evaluate ol out) = ol_insert 1 0 ol ∧
  events (initialize initial evaluate ol out) = [EvInsert 1 0] ∧
  frame_list (initialize initial evaluate ol out) !! 1%nat =
    Some (mkFrame (Some initial) None (-1) 0 0 (evaluate initial) false) ∧
  evaluated (initialize initial evaluate ol out) = 1%Z.
Proof. by rw /initialize /=. Qed.

(** *** One action of an expansion *)

Lemma process_action_unseen (index : nat) (st : SState) (a : Action) frame s :
  frame_list st !! index = Some frame →
  state frame = Some s →
  default 0%nat (state_indices st !! apply a s) = 0%nat →
  process_action' index st a =
    let succ_state := apply a s in
    let succ_index := length (frame_list st) in
    let succ_g_value := g_value frame + cost a in
    let succ_h_value := evaluate succ_state in
    let succ_dead_end := is_dead_end succ_h_value in
    Some {| open_list :=
              if succ_dead_end then open_list st
              else ol_insert succ_index (succ_g_value + succ_h_value) (open_list st);
            statistics := statistics st;
            out_plan := out_plan st;
            events :=
              if succ_dead_end then events st
              else EvInsert succ_index (succ_g_value + succ_h_value) :: events st;
            expanded := expanded st;
            generated := if succ_dead_end then generated st else (generated st + 1)%Z;
            evaluated := (evaluated st + 1)%Z;
            last_f_value := last_f_value st;
            state_indices := <[succ_state := succ_index]> (state_indices st);
            frame_list :=
              frame_list st ++
                [mkFrame (Some succ_state) (Some a) (Z.of_nat index) (depth frame + 1)
                         succ_g_value succ_h_value succ_dead_end] |}.
Proof.
  intros Hf Hs Hidx. rw /process_action Hf /= Hs /= Hidx /=.
  by destruct (is_dead_end _).
Qed.

Lemma process_action_seen (index : nat) (st : SState) (a : Action)
    frame s succ_index succ_frame :
  frame_list st !! index = Some frame →
  state frame = Some s →
  default 0%nat (state_indices st !! apply a s) = succ_index →
  succ_index ≠ 0%nat →
  frame_list st !! succ_index = Some succ_frame →
  process_action' index st a =
    let succ_g_value := g_value frame + cost a in
    if decide (succ_g_value < g_value succ_frame) then
      let dead := is_dead_end (h_value succ_frame) in
      Some {| open_list :=
                if dead then open_list st
                else ol_insert succ_index (succ_g_value + h_value succ_frame) (open_list st);
              statistics := statistics st;
              out_plan := out_plan st;
              events :=
                if dead then events st
                else EvInsert succ_index (succ_g_value + h_value succ_frame) :: events st;
              expanded := expanded st;
              generated := if dead then generated st else (generated st + 1)%Z;
              evaluated := evaluated st;
              last_f_value := last_f_value st;
              state_indices := state_indices st;
              frame_list :=
                <[succ_index := relink a index (depth frame + 1) succ_g_value succ_frame]>
                  (frame_list st) |}
    else Some st.
Proof.
  intros Hf Hs Hidx Hne Hsf. rw /process_action Hf /= Hs /= Hidx.
  rw decide_False // Hsf /=.
  destruct (decide _); [|done]. by destruct (is_dead_end _).
Qed.

(** Every successful call takes one of the two forms above. *)
Lemma process_action_cases (index : nat) (st st' : SState) (a : Action) :
  process_action' index st a = Some st' →
  ∃ frame s, frame_list st !! index = Some frame ∧ state frame = Some s ∧
    (default 0%nat (state_indices st !! apply a s) = 0%nat ∨
     ∃ succ_frame,
       default 0%nat (state_indices st !! apply a s) ≠ 0%nat ∧
       frame_list st !! default 0%nat (state_indices st !! apply a s) = Some succ_frame).
Proof.
  rw /process_action. intros Hp.
  destruct (frame_list st !! index) as [frame|] eqn:Hf; simpl in Hp; [|done].
  destruct (state frame) as [s|] eqn:Hs; simpl in Hp; [|done].
  exists frame, s. split_and!; [done..|].
  destruct (decide (default 0%nat (state_indices st !! apply a s) = 0%nat)) as [|Hne];
    [by left|right].
  destruct (frame_list st !! default 0%nat (state_indices st !! apply a s)) as [sf|];
    [|done].
  by exists sf.
Qed.

(** Case analysis of a successful [process_action]: the hypothesis is
    replaced by the description of the new state. *)
Ltac process_action_inv Hp :=
  let frame := fresh "frame" in
  let s := fresh "s" in
  let Hf := fresh "Hframe" in
  let Hs := fresh "Hstate" in
  let Hidx := fresh "Hidx" in
  let sf := fresh "succ_frame" in
  let Hsf := fresh "Hsucc" in
  let Hne := fresh "Hseen" in
  destruct (process_action_cases _ _ _ _ Hp)
    as (frame & s & Hf & Hs & [Hidx|(sf & Hne & Hsf)]);
  [ rw (process_action_unseen _ _ _ _ _ Hf Hs Hidx) in Hp
  | rw (process_action_seen _ _ _ _ _ _ _ Hf Hs eq_refl Hne Hsf) in Hp ];
  cbv zeta in Hp.

(** C8: when an expansion generates a state seen before, with
    [g_candidate = g + cost]: if [g_candidate] is strictly below the
    [g_value] of the existing frame, that frame gets the new predecessor
    action and index, depth and [g_value] (state, [h_value] and closed flag
    are kept), and, unless its [h_value] is a dead end, the entry
    [(handle, g_candidate + h)] is inserted and [generated] incremented;
    otherwise nothing changes.  The open list is only ever inserted into:
    no entry is removed. *)
Theorem rediscovery_relinks_only_when_cheaper (index : nat) (st : SState) (a : Action)
    frame s succ_index succ_frame :
  frame_list st !! index = Some frame →
  state frame = Some s →
  state_indices st !! apply a s = Some succ_index →
  succ_index ≠ 0%nat →
  frame_list st !! succ_index = Some succ_frame →
  ∃ st', process_action apply cost evaluate is_dead_end index st a = Some st' ∧
    state_indices st' = state_indices st ∧
    evaluated st' = evaluated st ∧
    expanded st' = expanded st ∧
    length (frame_list st') = length (frame_list st) ∧
    (∀ i, i ≠ succ_index → frame_list st' !! i = frame_list st !! i) ∧
    if decide (g_value frame + cost a < g_value succ_frame) then
      frame_list st' !! succ_index =
        Some (mkFrame (state succ_frame) (Some a) (Z.of_nat index) (depth frame + 1)
                      (g_value frame + cost a) (h_value succ_frame) (closed succ_frame)) ∧
      if is_dead_end (h_value succ_frame) then
        open_list st' = open_list st ∧ events st' = events st ∧
        generated st' = generated st
      else
        open_list st' =
          ol_insert succ_index (g_value frame + cost a + h_value succ_frame) (open_list st) ∧
        events st' =
          EvInsert succ_index (g_value frame + cost a + h_value succ_frame) :: events st ∧
        generated st' = (generated st + 1)%Z
    else st' = st.
Proof.
  intros Hf Hs Hidx Hne Hsf.
  have Hd : default 0%nat (state_indices st !! apply a s) = succ_index by rw Hidx.
  rw (process_action_seen _ _ _ _ _ _ _ Hf Hs Hd Hne Hsf). cbv zeta.
  destruct (decide (g_value frame + cost a < g_value succ_frame)) as [Hlt|Hge].
  - eexists; split; [done|]. simpl. split_and!; try done.
    + by rw length_insert.
    + intros i Hi. by rw list_lookup_insert_ne.
    + rw list_lookup_insert_eq //. by eapply lookup_lt_Some.
    + by destruct (is_dead_end _).
  - eexists; split; [done|]. by split_and!.
Qed.

(** *** [out_plan] is written only when a plan is found *)

Lemma process_action_out_plan (index : nat) (st st' : SState) (a : Action) :
  process_action' index st a = Some st' → out_plan st' = out_plan st.
Proof.
  intros Hp. process_action_inv Hp.
  - by simplify_eq.
  - destruct (decide _); by simplify_eq.
Qed.

Lemma expand_actions_out_plan (index : nat) (actions : list Action) (st st' : SState) :
  expand_actions' index st actions = Some st' → out_plan st' = out_plan st.
Proof.
  revert st. induction actions as [|a rest IH]; intros st Hx; simpl in Hx.
  - by simplify_eq.
  - destruct (process_action' index st a) as [st1|] eqn:Hp; [|done].
    rw (IH _ Hx). by eapply process_action_out_plan.
Qed.

Lemma accept_out_plan (index : nat) frame (st : SState) :
  out_plan (accept index frame st) = out_plan st.
Proof. rw /accept. by destruct (decide _). Qed.

Lemma iteration_out_plan (fuel : nat) (st : SState) :
  match iteration' fuel st with
  | Continue st' => out_plan st' = out_plan st
  | Stop (Returned r st') => r = SOLVED ∨ out_plan st' = out_plan st
  | Stop _ => True
  end.
Proof.
  rw /iteration.
  destruct (ol_pop (open_list st)) as [[index ol']|]; [|done].
  destruct (frame_list (popped index ol' st) !! index) as [frame|]; [|done].
  destruct (closed frame); [done|].
  destruct (should_abort _); [right; by rw accept_out_plan|].
  destruct (state frame) as [s|]; [|done].
  destruct (goal s).
  - destruct (reconstruct _ _ _ _); try done. by left.
  - destruct (expand_actions' _ _ _) as [st'|] eqn:Hx; [|done].
    rw (expand_actions_out_plan _ _ _ _ Hx) /=. by rw accept_out_plan.
Qed.

Lemma search_loop_out_plan (fuel : nat) (st st' : SState) (r : SearchResult) :
  search_loop' fuel st = Returned r st' →
  r = SOLVED ∨ out_plan st' = out_plan st.
Proof.
  revert st. induction fuel as [|fuel IH]; intros st; simpl.
  - destruct (decide _); [done|]. intros; simplify_eq. by right.
  - destruct (decide _); [|intros; simplify_eq; by right].
    pose proof (iteration_out_plan fuel st) as Hit.
    destruct (iteration' fuel st) as [st1|o].
    + intros Hl. destruct (IH _ Hl) as [|Heq]; [by left|right]. by rw Heq.
    + intros ->. done.
Qed.

(** C10: when [plan] returns [UNSOLVABLE] or [ABORTED], [out_plan] is the
    sequence that was passed in. *)
Theorem out_plan_untouched_unless_solved (fuel : nat) (ol : OL) (out : list Action)
    (r : SearchResult) (st : SState) :
  plan initial goal applicable apply cost evaluate is_dead_end should_abort fuel ol out
  = Returned r st →
  r = UNSOLVABLE ∨ r = ABORTED →
  out_plan st = out.
Proof.
  rw /plan. destruct (decide _); [done|]. intros Hl Hr.
  destruct (search_loop_out_plan _ _ _ _ Hl) as [->|Heq]; [by destruct Hr|].
  by rw Heq.
Qed.

(** *** Handles *)

(** C3 (as amended): handle 0 is what the state index yields for a state
    not seen yet, and it is also the handle of the dummy root frame, the
    first frame allocated; the initial state gets handle 1; every later
    allocation gets the current number of frames as handle and adds
    exactly one frame, so handles grow by one from 2 on, and a handle once
    given to a state is kept. *)
Theorem handle_numbering :
  (∀ (ol : OL) (out : list Action),
     frame_list (initialize initial evaluate ol out) !! 0%nat = Some dummy_frame ∧
     state_indices (initialize initial evaluate ol out) !! initial = Some 1%nat ∧
     (∃ f, frame_list (initialize initial evaluate ol out) = [dummy_frame; f] ∧
           state f = Some initial) ∧
     (∀ s, s ≠ initial →
        default 0%nat (state_indices (initialize initial evaluate ol out) !! s) = 0%nat)) ∧
  (∀ (index : nat) (st st' : SState) (a : Action),
     process_action apply cost evaluate is_dead_end index st a = Some st' →
     (∀ s i, state_indices st !! s = Some i → i ≠ 0%nat →
        state_indices st' !! s = Some i) ∧
     (state_indices st' = state_indices st ∧
      length (frame_list st') = length (frame_list st)
      ∨
      ∃ s f, default 0%nat (state_indices st !! s) = 0%nat ∧
        state_indices st' = <[s := length (frame_list st)]> (state_indices st) ∧
        frame_list st' = frame_list st ++ [f] ∧ state f = Some s)).
Proof.
  split.
  - intros ol out. rw /initialize /=.
    split_and!; [done|by rw lookup_insert_eq|by eexists|].
    intros s Hs. by rw lookup_insert_ne.
  - intros index st st' a Hp. process_action_inv Hp.
    + simplify_eq; simpl. split.
      * intros s' i Hi Hne. rw lookup_insert_ne //. intros <-. rw Hi /= in Hidx. done.
      * right. by eexists _, _.
    + destruct (decide _); simplify_eq; simpl.
      * split; [done|left]. by rw length_insert.
      * split; [done|by left].
Qed.

(** *** The closed flag *)

Lemma frames_extend_refl F : frames_extend' F F.
Proof.
  split_and!; [done|by eauto|].
  intros i f' Hi Hf. apply lookup_lt_Some in Hf. lia.
Qed.

Lemma frames_extend_trans F1 F2 F3 :
  frames_extend' F1 F2 → frames_extend' F2 F3 → frames_extend' F1 F3.
Proof.
  intros (Hl1 & Ho1 & Hn1) (Hl2 & Ho2 & Hn2). split_and!; [lia| |].
  - intros i f Hf. destruct (Ho1 _ _ Hf) as (f2 & Hf2 & Hc & Hh & Hs).
    destruct (Ho2 _ _ Hf2) as (f3 & Hf3 & Hc' & Hh' & Hs').
    exists f3. split_and!; congruence.
  - intros i f3 Hi Hf3. destruct (F2 !! i) as [f2|] eqn:Hf2.
    + destruct (Ho2 _ _ Hf2) as (f3' & Hf3' & Hc' & Hh' & Hs'). simplify_eq.
      rw Hc' Hh'. by eapply Hn1.
    + apply lookup_ge_None in Hf2. by eapply Hn2.
Qed.

Lemma process_action_frames (index : nat) (st st' : SState) (a : Action) :
  process_action' index st a = Some st' → frames_extend' (frame_list st) (frame_list st').
Proof.
  intros Hp. process_action_inv Hp.
  - simplify_eq; simpl. split_and!.
    + rw length_app /=. lia.
    + intros i f Hi. exists f. split; [|done]. rw lookup_app_l //. by eapply lookup_lt_Some.
    + intros i f' Hi Hf'. rw lookup_app_r // in Hf'.
      apply list_lookup_singleton_Some in Hf' as [_ <-]. done.
  - destruct (decide _); simplify_eq; simpl; [|apply frames_extend_refl].
    split_and!.
    + by rw length_insert.
    + intros i f Hi.
      destruct (decide (i = default 0%nat (state_indices st !! apply a s))) as [->|Hne].
      * simplify_eq. eexists.
        split; [apply list_lookup_insert_eq; by eapply lookup_lt_Some|done].
      * exists f. by rw list_lookup_insert_ne.
    + intros i f' Hi Hf'. apply lookup_lt_Some in Hf'. rw length_insert in Hf'. lia.
Qed.

Lemma expand_actions_frames (index : nat) (actions : list Action) (st st' : SState) :
  expand_actions' index st actions = Some st' →
  frames_extend' (frame_list st) (frame_list st').
Proof.
  revert st. induction actions as [|a rest IH]; intros st Hx; simpl in Hx.
  - simplify_eq. apply frames_extend_refl.
  - destruct (process_action' index st a) as [st1|] eqn:Hp; [|done].
    eapply frames_extend_trans; [by eapply process_action_frames|by apply IH].
Qed.

Lemma accept_frame_list (index : nat) frame (st : SState) :
  frame_list (accept index frame st) = <[index := set_closed true frame]> (frame_list st).
Proof. rw /accept. by destruct (decide _). Qed.

(** What one round of the loop does, case by case. *)
Lemma iteration_cases (fuel : nat) (st st' : SState) :
  step_state (iteration' fuel st) = Some st' →
  ∃ index ol' frame,
    ol_pop (open_list st) = Some (index, ol') ∧
    frame_list st !! index = Some frame ∧
    (closed frame = true ∧ st' = popped index ol' st
     ∨
     closed frame = false ∧
     frames_extend' (<[index := set_closed true frame]> (frame_list st)) (frame_list st')).
Proof.
  rw /iteration.
  destruct (ol_pop (open_list st)) as [[index ol']|]; [|done].
  change (frame_list (popped index ol' st)) with (frame_list st).
  destruct (frame_list st !! index) as [frame|] eqn:Hf; [|done].
  intros Hst. exists index, ol', frame. split_and!; [done..|].
  destruct (closed frame); [left; simpl in Hst; by simplify_eq|right].
  split; [done|].
  destruct (should_abort _).
  { simpl in Hst. simplify_eq. rw accept_frame_list. apply frames_extend_refl. }
  destruct (state frame) as [s|]; [|done].
  destruct (goal s).
  - destruct (reconstruct _ _ _ _); simpl in Hst; simplify_eq.
    rw /= accept_frame_list. apply frames_extend_refl.
  - destruct (expand_actions' _ _ _) as [st1|] eqn:Hx; simpl in Hst; simplify_eq.
    apply expand_actions_frames in Hx. by rw /= accept_frame_list in Hx.
Qed.


(** An expansion never queues a dead end: whatever [process_action]
    inserts is the handle of a frame whose heuristic value is not a dead
    end. *)
Lemma process_action_inserts_live (index : nat) (st st' : SState) (a : Action) :
  process_action' index st a = Some st' →
  events st' = events st ∨
  ∃ i p f, events st' = EvInsert i p :: events st ∧
    frame_list st' !! i = Some f ∧ is_dead_end (h_value f) = false.
Proof.
  intros Hp. process_action_inv Hp.
  - destruct (is_dead_end (evaluate (apply a s))) eqn:Hd; simplify_eq; simpl;
      [by left|right].
    eexists _, _, _. split_and!; [done|by apply list_lookup_middle|done].
  - destruct (decide _); simplify_eq; [|by left].
    destruct (is_dead_end (h_value succ_frame)) eqn:Hd; simpl; [by left|right].
    eexists _, _, _. split_and!; [done| |].
    + apply list_lookup_insert_eq. by eapply lookup_lt_Some.
    + done.
Qed.

(** *** Unfolding the loop *)

Lemma search_loop_S (fuel : nat) (st : SState) :
  (0 < ol_size (open_list st))%nat →
  search_loop' (S fuel) st =
    match iteration' fuel st with
    | Continue st' => search_loop' fuel st'
    | Stop o => o
    end.
Proof. intros Hs. by rw /= decide_True. Qed.

Lemma search_loop_empty (fuel : nat) (st : SState) :
  ol_size (open_list st) = 0%nat → search_loop' fuel st = Returned UNSOLVABLE st.
Proof. intros Hs. destruct fuel; rw /= decide_False //; lia. Qed.

(** *** Plan reconstruction *)

Lemma reconstruct_pred_chain (fuel : nat) (F : list (Frame State Action)) f out acts :
  reconstruct fuel F f out = ReconDone acts →
  ∃ chain, pred_chain F f chain ∧ acts = out ++ chain.
Proof.
  revert f out. induction fuel as [|fuel IH]; intros f out; simpl.
  - destruct (predecessor_action f) eqn:Hp; [done|].
    intros [= <-]. exists []. split; [by constructor|by rw app_nil_r].
  - destruct (predecessor_action f) as [a|] eqn:Hp.
    + destruct (frame_at F (predecessor_index f)) as [f'|] eqn:Hat; [|done].
      intros Hr. destruct (IH _ _ Hr) as (chain & Hc & ->).
      exists (a :: chain). split; [by econstructor|by rw -app_assoc].
    + intros [= <-]. exists []. split; [by constructor|by rw app_nil_r].
Qed.

Lemma pred_chain_set_closed (F : list (Frame State Action)) f b chain :
  pred_chain F f chain ↔ pred_chain F (set_closed b f) chain.
Proof.
  split; inversion 1; subst; by econstructor.
Qed.

Lemma iteration_solved (fuel : nat) (st st' : SState) :
  iteration' fuel st = Stop (Returned SOLVED st') →
  ∃ index frame s chain,
    frame_list st' !! index = Some frame ∧ closed frame = true ∧
    state frame = Some s ∧ goal s = true ∧
    pred_chain (frame_list st') frame chain ∧ out_plan st' = rev chain.
Proof.
  rw /iteration.
  destruct (ol_pop (open_list st)) as [[index ol']|]; [|done].
  change (frame_list (popped index ol' st)) with (frame_list st).
  destruct (frame_list st !! index) as [frame|] eqn:Hf; [|done].
  destruct (closed frame); [done|].
  destruct (should_abort _); [done|].
  destruct (state frame) as [s|] eqn:Hs; [|done].
  destruct (goal s) eqn:Hg.
  - destruct (reconstruct _ _ _ _) as [acts| |] eqn:Hr; try done.
    intros [= <-]. apply reconstruct_pred_chain in Hr as (chain & Hc & ->).
    exists index, (set_closed true frame), s, chain. simpl.
    split_and!; try done.
    rw accept_frame_list. apply list_lookup_insert_eq. by eapply lookup_lt_Some.
  - by destruct (expand_actions' _ _ _).
Qed.

Lemma search_loop_solved (fuel : nat) (st st' : SState) :
  search_loop' fuel st = Returned SOLVED st' →
  ∃ index frame s chain,
    frame_list st' !! index = Some frame ∧ closed frame = true ∧
    state frame = Some s ∧ goal s = true ∧
    pred_chain (frame_list st') frame chain ∧ out_plan st' = rev chain.
Proof.
  revert st. induction fuel as [|fuel IH]; intros st; simpl.
  - by destruct (decide _).
  - destruct (decide _); [|done].
    destruct (iteration' fuel st) as [st1|o] eqn:Hit; [by apply IH|].
    intros ->. by eapply iteration_solved.
Qed.

Lemma plan_solved (fuel : nat) (ol : OL) (out : list Action) (st : SState) :
  plan' fuel ol out = Returned SOLVED st →
  ∃ index frame s chain,
    frame_list st !! index = Some frame ∧ closed frame = true ∧
    state frame = Some s ∧ goal s = true ∧
    pred_chain (frame_list st) frame chain ∧ out_plan st = rev chain.
Proof.
  rw /plan. destruct (decide _); [done|]. apply search_loop_solved.
Qed.

End Properties.

(** ** The concrete open list meets the contract *)

Import ListOpenList.

Lemma pop_min_None (l : list (nat * Qc)) : pop_min l = None → l = [].
Proof.
  destruct l as [|[i p] l]; [done|]. simpl.
  destruct (pop_min l) as [[[j q] r]|]; [|done]. by destruct (decide _).
Qed.

Lemma pop_min_Some (l : list (nat * Qc)) i p r :
  pop_min l = Some (i, p, r) →
  l ≡ₚ (i, p) :: r ∧ ∀ j q, (j, q) ∈ l → p <= q.
Proof.
  revert i p r. induction l as [|[i0 p0] l IH]; intros i p r; [done|]. simpl.
  destruct (pop_min l) as [[[j q] r']|] eqn:Hl.
  - destruct (IH _ _ _ eq_refl) as [Hperm Hmin].
    destruct (decide (q < p0)) as [Hlt|Hge]; intros [= <- <- <-].
    + split; [by rw Hperm; apply perm_swap|].
      intros j' q' [[= -> ->]|Hin]%elem_of_cons; [qc_lra|by eapply Hmin].
    + split; [done|].
      intros j' q' [[= -> ->]|Hin]%elem_of_cons; [qc_lra|].
      apply Hmin in Hin. qc_lra.
  - apply pop_min_None in Hl as ->. intros [= <- <- <-]. split; [done|].
    intros j' q' [[= -> ->]|Hin]%elem_of_cons; [qc_lra|]. by apply elem_of_nil in Hin.
Qed.

Lemma list_insert_entries (i : nat) (p : Qc) (l : list (nat * Qc)) :
  ol_insert i p l ≡ₚ (i, p) :: l.
Proof. simpl. by rw -Permutation_cons_append. Qed.

Lemma list_pop_entries (l : list (nat * Qc)) :
  (0 < ol_size l)%nat →
  ∃ i p l', ol_pop l = Some (i, l') ∧ l ≡ₚ (i, p) :: l' ∧
    ∀ j q, (j, q) ∈ l → p <= q.
Proof.
  intros Hl. simpl in *. destruct (pop_min l) as [[[i p] r]|] eqn:Hp.
  - destruct (pop_min_Some _ _ _ _ Hp) as [Hperm Hmin]. by exists i, p, r.
  - apply pop_min_None in Hp as ->. simpl in Hl. lia.
Qed.

#[export] Instance list_open_list_contract : OpenListContract (list (nat * Qc)) := {|
  ol_entries l := l;
  ol_size_entries l := eq_refl;
  ol_insert_entries := list_insert_entries;
  ol_pop_entries := list_pop_entries
|}.

(** ** Open lists that meet the contract *)

Section ContractFacts.
Context {OL : Type} `{OpenListContract OL}.

Lemma ol_entries_empty (ol : OL) : ol_size ol = 0%nat → ol_entries ol = [].
Proof. rw ol_size_entries. by destruct (ol_entries ol). Qed.

Lemma ol_pop_singleton (ol : OL) i p :
  ol_entries ol ≡ₚ [(i, p)] →
  (0 < ol_size ol)%nat ∧ ∃ ol', ol_pop ol = Some (i, ol') ∧ ol_entries ol' = [].
Proof.
  intros Hp.
  have Hsz : (0 < ol_size ol)%nat by rw ol_size_entries Hp /=; lia.
  split; [done|].
  destruct (ol_pop_entries ol Hsz) as (i' & p' & ol' & Hpop & Hperm & _).
  rw Hp in Hperm.
  have Hl := Permutation_length Hperm. simpl in Hl.
  destruct (ol_entries ol') eqn:He; [|simpl in Hl; lia].
  apply Permutation_singleton_l in Hperm. simplify_eq. by exists ol'.
Qed.

Lemma ol_insert_empty (ol : OL) i p :
  ol_entries ol = [] → ol_entries (ol_insert i p ol) ≡ₚ [(i, p)].
Proof. intros He. by rw ol_insert_entries He. Qed.

End ContractFacts.

(** ** Optimality *)

Section Optimality.
Context {State Action : Type} `{Countable State}.
Context {OL : Type} `{OpenListContract OL}.
Variable initial : State.
Variable goal : State → bool.
Variable applicable : State → list Action.
Variable apply : Action → State → State.
Variable cost : Action → Qc.
Variable evaluate : State → Qc.
Variable is_dead_end : Qc → bool.
Variable should_abort : list Event → bool.
Variable universe : list State.

Hypothesis Hfinite : ∀ acts s, path applicable apply initial acts s → s ∈ universe.
Hypothesis Hadmissible : admissible goal applicable apply cost evaluate is_dead_end.
Hypothesis Hconsistent : consistent applicable apply cost evaluate.
Hypothesis Hnonnegative : nonnegative evaluate.
Hypothesis Hno_abort : ∀ evs, should_abort evs = false.

Local Abbreviation SState := (SearchState State Action OL).
Local Abbreviation path' := (path applicable apply).
Local Abbreviation reach' := (reach initial applicable apply evaluate is_dead_end).
Local Abbreviation expandable' := (expandable initial evaluate is_dead_end).
Local Abbreviation accepted' := (accepted (State := State) (Action := Action) is_dead_end).
Local Abbreviation linked' := (linked initial applicable apply cost is_dead_end).
Local Abbreviation frame_ok' :=
  (frame_ok (OL := OL) initial applicable apply cost evaluate is_dead_end).
Local Abbreviation Inv' :=
  (Inv (OL := OL) initial goal applicable apply cost evaluate is_dead_end).
Local Abbreviation cost_of := (total_cost cost).
Local Abbreviation process_action' :=
  (process_action (OL := OL) apply cost evaluate is_dead_end).
Local Abbreviation expand_actions' :=
  (expand_actions (OL := OL) apply cost evaluate is_dead_end).
Local Abbreviation iteration' :=
  (iteration (OL := OL) goal applicable apply cost evaluate is_dead_end should_abort).
Local Abbreviation search_loop' :=
  (search_loop (OL := OL) goal applicable apply cost evaluate is_dead_end should_abort).

(** *** Paths and costs *)

Lemma total_cost_snoc (acts : list Action) (a : Action) :
  cost_of (acts ++ [a]) = cost_of acts + cost a.
Proof.
  induction acts as [|b acts IH]; simpl; [ring|]. rw IH. ring.
Qed.

Lemma path_snoc s acts t a :
  path' s acts t → a ∈ applicable t → path' s (acts ++ [a]) (apply a t).
Proof.
  induction 1 as [s|s b acts t Hb Hp IH]; intros Ha; simpl.
  - apply path_cons; [done|apply path_nil].
  - apply path_cons; [done|by apply IH].
Qed.

Lemma reach_path acts s : reach' acts s → path' initial acts s.
Proof.
  induction 1 as [|acts s a Hr IH Hx Ha]; [apply path_nil|by apply path_snoc].
Qed.

(** A path to a goal only passes through expandable states: none of them
    is a dead end, since the heuristic is admissible. *)
Lemma path_goal_reach pre s acts t :
  reach' pre s → path' s acts t → goal t = true → reach' (pre ++ acts) t.
Proof.
  intros Hpre Hp. revert pre Hpre.
  induction Hp as [s|s a acts t Ha Hp IH]; intros pre Hpre Hg.
  - by rw app_nil_r.
  - rw (assoc_L (++) pre [a] acts). apply IH; [|done].
    apply reach_snoc; [done| |done].
    right. by eapply (Hadmissible s (a :: acts) t); [apply path_cons|].
Qed.

Lemma reach_lower_bound acts s :
  reach' acts s → evaluate initial <= cost_of acts + evaluate s.
Proof.
  induction 1 as [|acts s a Hr IH Hx Ha]; simpl; [qc_lra|].
  rw total_cost_snoc. pose proof (Hconsistent s a Ha). qc_lra.
Qed.

(** *** Counting *)

Lemma filter_length_mono {A} (P Q : A → Prop) `{∀ x, Decision (P x)}
    `{∀ x, Decision (Q x)} (l : list A) :
  (∀ x, Q x → P x) → (length (filter Q l) ≤ length (filter P l))%nat.
Proof.
  intros HQP. induction l as [|x l IH]; [done|].
  rw !filter_cons. destruct (decide (Q x)) as [Hq|Hq].
  - rw decide_True; [|by apply HQP]. simpl. lia.
  - destruct (decide (P x)); simpl; lia.
Qed.

Lemma filter_length_lt {A} (P Q : A → Prop) `{∀ x, Decision (P x)}
    `{∀ x, Decision (Q x)} (l : list A) (y : A) :
  (∀ x, Q x → P x) → y ∈ l → P y → ¬ Q y →
  (length (filter Q l) < length (filter P l))%nat.
Proof.
  intros HQP Hy HPy HQy. induction l as [|x l IH]; [by apply elem_of_nil in Hy|].
  rw !filter_cons. apply elem_of_cons in Hy as [<-|Hy].
  - destruct (decide (Q y)); [done|]. destruct (decide (P y)); [|done]. simpl.
    pose proof (filter_length_mono P Q l HQP). lia.
  - specialize (IH Hy). destruct (decide (Q x)) as [Hq|Hq].
    + rw decide_True; [|by apply HQP]. simpl. lia.
    + destruct (decide (P x)); simpl; lia.
Qed.


(** *** Consequences of the invariant *)

Lemma accepted_expandable (st : SState) i f s :
  frame_ok' st i f → accepted' i f → state f = Some s → expandable' s.
Proof.
  intros [(s' & Hs' & _ & Hh & Hl) _ _] [_ Hacc] Hs. simplify_eq.
  destruct Hacc as [->|Hnd].
  - destruct Hl as [(_ & -> & _)|[? _]]; [by left|done].
  - right. by rw -Hh.
Qed.

Lemma frame_state_index req (st : SState) i f s :
  Inv' req st → (1 ≤ i)%nat → frame_list st !! i = Some f → state f = Some s →
  state_indices st !! s = Some i ∧ h_value f = evaluate s.
Proof.
  intros HI Hi Hf Hs.
  destruct (inv_frames _ _ _ _ _ _ _ _ _ HI i f Hi Hf) as [(s' & Hs' & Hidx & Hh & _) _ _].
  by simplify_eq.
Qed.

Lemma initial_frame req (st : SState) :
  Inv' req st →
  ∃ f1, frame_list st !! 1%nat = Some f1 ∧ state f1 = Some initial ∧
    predecessor_action f1 = None ∧ g_value f1 = 0 ∧ depth f1 = 0%Z ∧
    state_indices st !! initial = Some 1%nat.
Proof.
  intros HI. pose proof (inv_len _ _ _ _ _ _ _ _ _ HI) as Hlen.
  destruct (lookup_lt_is_Some_2 (frame_list st) 1) as [f1 Hf1]; [lia|].
  destruct (inv_frames _ _ _ _ _ _ _ _ _ HI 1%nat f1 (le_n _) Hf1)
    as [(s & Hs & Hidx & Hh & Hl) _ _].
  destruct Hl as [(_ & -> & Hp & Hg & Hd)|[? _]]; [|done].
  by exists f1.
Qed.

(** A frame of an expandable state is either still open or accepted. *)
Lemma closed_expandable_accepted req (st : SState) i f s :
  Inv' req st → (1 ≤ i)%nat → frame_list st !! i = Some f → state f = Some s →
  expandable' s → closed f = true → accepted' i f.
Proof.
  intros HI Hi Hf Hs Hx Hc. split; [done|].
  destruct (frame_state_index _ _ _ _ _ HI Hi Hf Hs) as [Hidx Hh].
  destruct Hx as [->|Hnd]; [left|right; by rw Hh].
  destruct (initial_frame _ _ HI) as (f1 & _ & _ & _ & _ & _ & Hidx1). congruence.
Qed.

(** Every frame comes with the actions of its predecessor chain: they
    lead from the initial state to its state at the cost recorded in the
    frame, and the reconstruction loop returns them. *)
Lemma frame_witness req (st : SState) (d : nat) : ∀ i f s,
  Inv' req st → (1 ≤ i)%nat → frame_list st !! i = Some f → state f = Some s →
  depth f = Z.of_nat d →
  ∃ acts, reach' acts s ∧ cost_of acts = g_value f ∧ length acts = d ∧
    ∀ fuel out, (length acts ≤ fuel)%nat →
      reconstruct fuel (frame_list st) f out = ReconDone (out ++ rev acts).
Proof.
  induction d as [|d IH]; intros i f s HI Hi Hf Hs Hd.
  - destruct (inv_frames _ _ _ _ _ _ _ _ _ HI i f Hi Hf)
      as [(s' & Hs' & Hidx & Hh & Hl) _ _]. simplify_eq.
    destruct Hl as [(-> & -> & Hp & Hg & _)|(_ & a & j & fj & sj & Hl)].
    + exists []. split_and!; [apply reach_nil|by rw Hg|done|].
      intros fuel out _. destruct fuel; rw /= Hp app_nil_r //.
    + destruct Hl as (_ & _ & Hj & Hfj & _ & _ & _ & _ & _ & Hdf).
      pose proof (fo_depth _ _ _ _ _ _ _ _ _ (inv_frames _ _ _ _ _ _ _ _ _ HI j fj Hj Hfj)).
      lia.
  - destruct (inv_frames _ _ _ _ _ _ _ _ _ HI i f Hi Hf)
      as [(s' & Hs' & Hidx & Hh & Hl) _ _]. simplify_eq.
    destruct Hl as [(_ & _ & _ & _ & Hd0)|(_ & a & j & fj & sj & Hl)]; [lia|].
    destruct Hl as (Hp & Hpi & Hj & Hfj & Hacc & Hsj & Ha & Happ & Hg & Hdf).
    destruct (IH j fj sj HI Hj Hfj Hsj) as (acts & Hr & Hc & Hlen & Hrec); [lia|].
    exists (acts ++ [a]). split_and!.
    + rw -Happ. apply reach_snoc; [done| |done].
      eapply accepted_expandable; [by eapply inv_frames|done..].
    + rw total_cost_snoc Hc Hg //.
    + rw length_app /=. lia.
    + intros fuel out Hfuel. rw length_app /= in Hfuel.
      destruct fuel as [|fuel]; [lia|]. rw /= Hp Hpi /frame_at.
      rw decide_True; [|lia]. rw Nat2Z.id Hfj Hrec; [|lia].
      by rw rev_app_distr /= -app_assoc.
Qed.

Lemma frame_reach req (st : SState) i f s :
  Inv' req st → (1 ≤ i)%nat → frame_list st !! i = Some f → state f = Some s →
  ∃ acts, reach' acts s ∧ cost_of acts = g_value f ∧
    ∀ fuel out, (length acts ≤ fuel)%nat →
      reconstruct fuel (frame_list st) f out = ReconDone (out ++ rev acts).
Proof.
  intros HI Hi Hf Hs.
  pose proof (fo_depth _ _ _ _ _ _ _ _ _ (inv_frames _ _ _ _ _ _ _ _ _ HI i f Hi Hf)) as Hd.
  destruct (frame_witness req st (Z.to_nat (depth f)) i f s HI Hi Hf Hs)
    as (acts & Hr & Hc & _ & Hrec); [lia|].
  by exists acts.
Qed.

(** Between two rounds: along every way from the initial state through
    expandable states, either its end has a frame at most as expensive,
    or a frame is open whose entry is at most the cost of the way plus
    the heuristic value of its end. *)
Lemma frontier (st : SState) acts t :
  Inv' req_all st → reach' acts t →
  (∃ j fj, state_indices st !! t = Some j ∧ frame_list st !! j = Some fj ∧
     g_value fj <= cost_of acts)
  ∨
  (∃ i f p, (1 ≤ i)%nat ∧ frame_list st !! i = Some f ∧ closed f = false ∧
     (i, p) ∈ ol_entries (open_list st) ∧ p <= cost_of acts + evaluate t).
Proof.
  intros HI. induction 1 as [|acts s a Hr IH Hx Ha].
  - left. destruct (initial_frame _ _ HI) as (f1 & Hf1 & _ & _ & Hg & _ & Hidx).
    exists 1%nat, f1. split_and!; [done..|]. rw Hg /=. qc_lra.
  - pose proof (Hconsistent s a Ha) as Hcs. rw total_cost_snoc.
    destruct IH as [(j & fj & Hidx & Hfj & Hg)|(i & f & p & Hi & Hf & Hc & Hin & Hp)].
    + destruct (inv_index _ _ _ _ _ _ _ _ _ HI s j Hidx) as (Hj & fj' & Hfj' & Hsj).
      simplify_eq.
      destruct (frame_state_index _ _ _ _ _ HI Hj Hfj Hsj) as [_ Hh].
      destruct (closed fj) eqn:Hc.
      * pose proof (closed_expandable_accepted _ _ _ _ _ HI Hj Hfj Hsj Hx Hc) as Hacc.
        destruct (inv_closure _ _ _ _ _ _ _ _ _ HI j fj s a Hj Hfj Hacc Hsj Ha I)
          as (k & fk & Hk & Hfk & Hgk).
        left. exists k, fk. split_and!; [done..|]. qc_lra.
      * destruct (inv_open _ _ _ _ _ _ _ _ _ HI j fj Hj Hfj Hc) as (p & Hin & Hp).
        right. exists j, fj, p. split_and!; [done..|]. rw Hh in Hp. qc_lra.
    + right. exists i, f, p. split_and!; [done..|]. qc_lra.
Qed.


(** *** The invariant holds initially *)

Lemma Inv_ext req (st st' : SState) :
  frame_list st' = frame_list st → state_indices st' = state_indices st →
  open_list st' = open_list st → Inv' req st → Inv' req st'.
Proof.
  intros HF Hidx HO [I1 I2 I3 I4 I5 I6 I7 I8 I9].
  split; rw ?HF ?Hidx ?HO //.
  intros i f Hi Hf. destruct (I3 i f Hi Hf) as [Ha Hb Hc].
  split; rw ?HF ?Hidx //.
Qed.

Lemma Inv_initialize (ol : OL) (out : list Action) :
  ol_size ol = 0%nat → Inv' req_all (initialize initial evaluate ol out).
Proof.
  intros Hsz. pose proof (ol_entries_empty _ Hsz) as He.
  pose proof (ol_insert_empty ol 1%nat 0 He) as Hins.
  have Hfr : ∀ i (f : Frame State Action), (1 ≤ i)%nat →
      frame_list (initialize initial evaluate ol out) !! i = Some f →
      i = 1%nat ∧ f = mkFrame (Some initial) None (-1) 0 0 (evaluate initial) false.
  { intros [|[|i]] f Hi Hf; simpl in Hf; [lia|by simplify_eq|done]. }
  split; simpl.
  - lia.
  - intros s i [[<- <-]|[_ ?]]%lookup_insert_Some; [|done]. split; [done|]. by eexists.
  - intros i f Hi Hf. destruct (Hfr i f Hi Hf) as [-> ->]. split; simpl; [|done..].
    exists initial. split_and!; [done|by rw lookup_insert_eq|done|by left].
  - intros i p Hin. rw Hins in Hin. apply list_elem_of_singleton in Hin as [= -> ->].
    split; [done|]. by eexists.
  - intros i f Hi Hf Hc. destruct (Hfr i f Hi Hf) as [-> ->]. exists 0. split.
    + rw Hins. by apply list_elem_of_singleton.
    + simpl. pose proof (Hnonnegative initial). qc_lra.
  - intros i f s a Hi Hf [Hc _]. by destruct (Hfr i f Hi Hf) as [-> ->].
  - intros i f s acts Hi Hf [Hc _]. by destruct (Hfr i f Hi Hf) as [-> ->].
  - intros i f s Hi Hf [Hc _]. by destruct (Hfr i f Hi Hf) as [-> ->].
  - by right.
Qed.

(** *** Popping *)

Lemma popped_entry_bounds (st : SState) n p (es : list (nat * Qc)) fn :
  Inv' req_all st → ol_entries (open_list st) ≡ₚ (n, p) :: es →
  frame_list st !! n = Some fn →
  (1 ≤ n)%nat ∧ (n ≠ 1%nat → g_value fn + h_value fn <= p).
Proof.
  intros HI Hperm Hfn.
  destruct (inv_entries _ _ _ _ _ _ _ _ _ HI n p) as (Hn & f & Hf & Hb).
  { rw Hperm. by left. }
  by simplify_eq.
Qed.

Lemma Inv_popped_closed (st st' : SState) n p fn :
  Inv' req_all st →
  ol_entries (open_list st) ≡ₚ (n, p) :: ol_entries (open_list st') →
  frame_list st' = frame_list st → state_indices st' = state_indices st →
  frame_list st !! n = Some fn → closed fn = true →
  Inv' req_all st'.
Proof.
  intros HI Hperm HF Hidx Hfn Hc. destruct HI as [I1 I2 I3 I4 I5 I6 I7 I8 I9].
  split; rw ?HF ?Hidx //.
  - intros i f Hi Hf. destruct (I3 i f Hi Hf) as [Ha Hb Hd]. split; rw ?HF ?Hidx //.
  - intros i q Hin. apply I4. rw Hperm. by right.
  - intros i f Hi Hf Hcf. destruct (I5 i f Hi Hf Hcf) as (q & Hin & Hq).
    exists q. split; [|done]. rw Hperm in Hin.
    apply elem_of_cons in Hin as [[= -> ->]|Hin]; [congruence|done].
Qed.

(** When an open frame is popped, no way through expandable states
    reaches its state at a lower cost than its [g_value]. *)
Lemma popped_optimal (st : SState) n p (es : list (nat * Qc)) fn sn acts :
  Inv' req_all st → ol_entries (open_list st) ≡ₚ (n, p) :: es →
  (∀ j q, (j, q) ∈ ol_entries (open_list st) → p <= q) →
  frame_list st !! n = Some fn → state fn = Some sn →
  reach' acts sn → g_value fn <= cost_of acts.
Proof.
  intros HI Hperm Hmin Hfn Hsn Hr.
  destruct (popped_entry_bounds _ _ _ _ _ HI Hperm Hfn) as [Hn Hb].
  destruct (frame_state_index _ _ _ _ _ HI Hn Hfn Hsn) as [Hidx Hh].
  destruct (decide (n = 1%nat)) as [->|Hn1].
  { destruct (initial_frame _ _ HI) as (f1 & Hf1 & Hs1 & _ & Hg & _).
    rw Hfn in Hf1. injection Hf1 as <-. rw Hsn in Hs1. injection Hs1 as ->.
    pose proof (reach_lower_bound _ _ Hr). rw Hg. qc_lra. }
  specialize (Hb Hn1).
  destruct (frontier st acts sn HI Hr)
    as [(j & fj & Hj & Hfj & Hg)|(i & f & q & Hi & Hf & Hc & Hin & Hq)].
  - by simplify_eq.
  - pose proof (Hmin _ _ Hin). rw Hh in Hb. qc_lra.
Qed.

(** When an open frame with a goal state is popped, no plan at all is
    cheaper than its [g_value]. *)
Lemma popped_goal_optimal (st : SState) n p (es : list (nat * Qc)) fn sn acts t :
  Inv' req_all st → ol_entries (open_list st) ≡ₚ (n, p) :: es →
  (∀ j q, (j, q) ∈ ol_entries (open_list st) → p <= q) →
  frame_list st !! n = Some fn → state fn = Some sn →
  path' initial acts t → goal t = true → g_value fn <= cost_of acts.
Proof.
  intros HI Hperm Hmin Hfn Hsn Hp Hg.
  destruct (popped_entry_bounds _ _ _ _ _ HI Hperm Hfn) as [Hn Hb].
  destruct (frame_state_index _ _ _ _ _ HI Hn Hfn Hsn) as [Hidx Hh].
  destruct (Hadmissible initial acts t Hp Hg) as [_ Hh0].
  destruct (Hadmissible t [] t (path_nil _ _ _) Hg) as [Hdt Hht]. simpl in Hht.
  pose proof (Hnonnegative initial) as Hn0. pose proof (Hnonnegative sn) as Hnn.
  destruct (decide (n = 1%nat)) as [->|Hn1].
  { destruct (initial_frame _ _ HI) as (f1 & Hf1 & Hs1 & _ & Hg1 & _).
    rw Hfn in Hf1. injection Hf1 as <-. rw Hg1. qc_lra. }
  specialize (Hb Hn1). rw Hh in Hb.
  have Hr : reach' acts t.
  { apply (path_goal_reach [] initial acts t); [apply reach_nil|done..]. }
  have Hle : p <= cost_of acts; [|qc_lra].
  destruct (frontier st acts t HI Hr)
    as [(j & fj & Hj & Hfj & Hgj)|(i & f & q & Hi & Hf & Hc & Hin & Hq)].
  - destruct (inv_index _ _ _ _ _ _ _ _ _ HI t j Hj) as (Hj1 & fj' & Hfj' & Hsj).
    simplify_eq.
    destruct (frame_state_index _ _ _ _ _ HI Hj1 Hfj Hsj) as [_ Hhj].
    destruct (closed fj) eqn:Hc.
    + have Hacc : accepted' j fj.
      { eapply closed_expandable_accepted; [done..|by right|done]. }
      pose proof (inv_nongoal _ _ _ _ _ _ _ _ _ HI j fj t Hj1 Hfj Hacc Hsj). congruence.
    + destruct (inv_open _ _ _ _ _ _ _ _ _ HI j fj Hj1 Hfj Hc) as (q & Hin & Hq).
      pose proof (Hmin _ _ Hin). rw Hhj in Hq. qc_lra.
  - pose proof (Hmin _ _ Hin). qc_lra.
Qed.

(** When the open list is empty, no goal can be reached. *)
Lemma empty_open_list_no_goal (st : SState) acts t :
  Inv' req_all st → ol_entries (open_list st) = [] →
  path' initial acts t → goal t = false.
Proof.
  intros HI He Hp. destruct (goal t) eqn:Hg; [exfalso|done].
  destruct (Hadmissible t [] t (path_nil _ _ _) Hg) as [Hdt _].
  have Hr : reach' acts t.
  { apply (path_goal_reach [] initial acts t); [apply reach_nil|done..]. }
  destruct (frontier st acts t HI Hr)
    as [(j & fj & Hj & Hfj & Hgj)|(i & f & q & Hi & Hf & Hc & Hin & Hq)].
  - destruct (inv_index _ _ _ _ _ _ _ _ _ HI t j Hj) as (Hj1 & fj' & Hfj' & Hsj).
    simplify_eq.
    destruct (closed fj) eqn:Hc.
    + have Hacc : accepted' j fj.
      { eapply closed_expandable_accepted; [done..|by right|done]. }
      pose proof (inv_nongoal _ _ _ _ _ _ _ _ _ HI j fj t Hj1 Hfj Hacc Hsj). congruence.
    + destruct (inv_open _ _ _ _ _ _ _ _ _ HI j fj Hj1 Hfj Hc) as (q & Hin & Hq).
      rw He in Hin. by apply elem_of_nil in Hin.
  - rw He in Hin. by apply elem_of_nil in Hin.
Qed.


(** *** Accepting a frame *)

Lemma linked_mono (F F' : list (Frame State Action)) i f f' s :
  (∀ j fj, F !! j = Some fj → accepted' j fj → F' !! j = Some fj) →
  predecessor_action f' = predecessor_action f →
  predecessor_index f' = predecessor_index f →
  g_value f' = g_value f → depth f' = depth f →
  linked' F i f s → linked' F' i f' s.
Proof.
  intros HF Hpa Hpi Hg Hd [(-> & -> & ? & ? & ?)|(Hi & a & j & fj & sj & Hl)].
  - left. split_and!; congruence.
  - destruct Hl as (? & ? & ? & Hfj & Hacc & ? & ? & ? & ? & ?).
    right. split; [done|]. exists a, j, fj, sj. split_and!; try congruence; by auto.
Qed.

Lemma Inv_accept (st st1 : SState) n p fn sn :
  Inv' req_all st →
  ol_entries (open_list st) ≡ₚ (n, p) :: ol_entries (open_list st1) →
  (∀ j q, (j, q) ∈ ol_entries (open_list st) → p <= q) →
  frame_list st !! n = Some fn → closed fn = false → state fn = Some sn →
  goal sn = false →
  frame_list st1 = <[n := set_closed true fn]> (frame_list st) →
  state_indices st1 = state_indices st →
  Inv' (req_expanding n []) st1.
Proof.
  intros HI Hperm Hmin Hfn Hcn Hsn Hgn HF Hidx.
  destruct (popped_entry_bounds _ _ _ _ _ HI Hperm Hfn) as [Hn Hb].
  have Hlt : (n < length (frame_list st))%nat by eapply lookup_lt_Some.
  have Hkeep : ∀ j fj, frame_list st !! j = Some fj → accepted' j fj →
      frame_list st1 !! j = Some fj.
  { intros j fj Hfj [Hc _]. rw HF list_lookup_insert_ne //. congruence. }
  have Hlook : ∀ i f', frame_list st1 !! i = Some f' →
      (i = n ∧ f' = set_closed true fn) ∨ (i ≠ n ∧ frame_list st !! i = Some f').
  { intros i f'. rw HF. intros [(-> & <- & _)|[? ?]]%list_lookup_insert_Some; auto. }
  have Hfrom : ∀ i f, frame_list st !! i = Some f →
      ∃ f', frame_list st1 !! i = Some f' ∧ state f' = state f ∧
        g_value f' = g_value f ∧ h_value f' = h_value f.
  { intros i f Hf. destruct (decide (i = n)) as [->|Hne].
    - rw Hfn in Hf. injection Hf as <-. exists (set_closed true fn). split; [|done].
      rw HF. by apply list_lookup_insert_eq.
    - exists f. by rw HF list_lookup_insert_ne. }
  destruct HI as [I1 I2 I3 I4 I5 I6 I7 I8 I9]. split.
  - by rw HF length_insert.
  - intros s i Hi. rw Hidx in Hi. destruct (I2 s i Hi) as (Hi1 & f & Hf & Hs).
    split; [done|]. destruct (Hfrom i f Hf) as (f' & Hf' & Hs' & _).
    exists f'. split; [done|congruence].
  - intros i f' Hi Hf'. destruct (Hlook i f' Hf') as [[-> ->]|[Hne Hf]].
    + destruct (I3 n fn Hi Hfn) as [(s & Hs & Hix & Hh & Hl) Hd Hde].
      split; simpl; [|done..]. exists s. rw Hidx. split_and!; [done..|].
      by eapply linked_mono; [| | | | |exact Hl].
    + destruct (I3 i f' Hi Hf) as [(s & Hs & Hix & Hh & Hl) Hd Hde].
      split; [|done..]. exists s. rw Hidx. split_and!; [done..|].
      by eapply linked_mono; [| | | | |exact Hl].
  - intros i q Hin. destruct (I4 i q) as (Hi & f & Hf & Hq).
    { rw Hperm. by right. }
    split; [done|]. destruct (Hfrom i f Hf) as (f' & Hf' & _ & Hg' & Hh').
    exists f'. split; [done|]. by rw Hg' Hh'.
  - intros i f' Hi Hf' Hc. destruct (Hlook i f' Hf') as [[-> ->]|[Hne Hf]]; [done|].
    destruct (I5 i f' Hi Hf Hc) as (q & Hin & Hq). exists q. split; [|done].
    rw Hperm in Hin. apply elem_of_cons in Hin as [[= -> ->]|Hin]; [done|done].
  - intros i f' s a Hi Hf' Hacc Hs Ha [Hne|Hin]; [|by apply elem_of_nil in Hin].
    destruct (Hlook i f' Hf') as [[-> ->]|[_ Hf]]; [done|].
    destruct (I6 i f' s a Hi Hf Hacc Hs Ha I) as (j & fj & Hj & Hfj & Hg).
    destruct (Hfrom j fj Hfj) as (fj' & Hfj' & _ & Hg' & _).
    exists j, fj'. rw Hidx. split_and!; [done..|]. by rw Hg'.
  - intros i f' s acts Hi Hf' Hacc Hs Hr.
    destruct (Hlook i f' Hf') as [[-> ->]|[_ Hf]]; [|by eapply I7].
    simpl in Hs. rw Hsn in Hs. injection Hs as <-.
    by eapply (popped_optimal st n p _ fn sn acts).
  - intros i f' s Hi Hf' Hacc Hs.
    destruct (Hlook i f' Hf') as [[-> ->]|[_ Hf]]; [|by eapply I8].
    simpl in Hs. rw Hsn in Hs. by injection Hs as <-.
  - left. destruct (decide (n = 1%nat)) as [->|Hn1].
    + exists (set_closed true fn). split; [|done]. rw HF. by apply list_lookup_insert_eq.
    + destruct I9 as [(f1 & Hf1 & Hc1)|Hlen]; [|lia].
      exists f1. split; [|done]. by rw HF list_lookup_insert_ne.
Qed.


(** *** Generating a successor *)

Section Expanding.
Variable st : SState.
Variable n : nat.
Variable fn : Frame State Action.
Variable sn : State.
Variable processed : list Action.
Variable a : Action.
Hypothesis HI : Inv' (req_expanding n processed) st.
Hypothesis Hn : (1 ≤ n)%nat.
Hypothesis Hfn : frame_list st !! n = Some fn.
Hypothesis Hacc : accepted' n fn.
Hypothesis Hsn : state fn = Some sn.
Hypothesis Ha : a ∈ applicable sn.

Lemma expanding_root_closed :
  ∃ f1, frame_list st !! 1%nat = Some f1 ∧ accepted' 1 f1.
Proof.
  destruct (inv_root _ _ _ _ _ _ _ _ _ HI) as [(f1 & Hf1 & Hc1)|Hlen].
  - exists f1. split; [done|]. split; [done|by left].
  - pose proof (lookup_lt_Some _ _ _ Hfn) as Hlt. have Hn1 : 1%nat = n by lia.
    exists fn. rw Hn1. by split.
Qed.

Lemma expanding_req_snoc i b :
  req_expanding n (processed ++ [a]) i b →
  req_expanding n processed i b ∨ (i = n ∧ b = a).
Proof.
  rw /req_expanding. intros [Hne|Hin]; [by auto|].
  apply elem_of_app in Hin as [Hin|Hin]; [by auto|].
  apply list_elem_of_singleton in Hin.
  destruct (decide (i = n)); by auto.
Qed.

(** The successor state was not seen before: a frame is appended. *)
Lemma Inv_unseen (st' : SState) :
  state_indices st !! apply a sn = None →
  frame_list st' =
    frame_list st ++
      [mkFrame (Some (apply a sn)) (Some a) (Z.of_nat n) (depth fn + 1)
               (g_value fn + cost a) (evaluate (apply a sn))
               (is_dead_end (evaluate (apply a sn)))] →
  state_indices st' = <[apply a sn := length (frame_list st)]> (state_indices st) →
  (∀ i q, (i, q) ∈ ol_entries (open_list st') ↔
     (i, q) ∈ ol_entries (open_list st) ∨
     (is_dead_end (evaluate (apply a sn)) = false ∧ i = length (frame_list st) ∧
      q = g_value fn + cost a + evaluate (apply a sn))) →
  Inv' (req_expanding n (processed ++ [a])) st'.
Proof.
  set (t := apply a sn). set (j := length (frame_list st)).
  set (fnew := mkFrame _ _ _ _ _ _ _).
  intros Hnone HF Hidx Hent.
  destruct expanding_root_closed as (f1 & Hf1 & Hacc1).
  pose proof (inv_len _ _ _ _ _ _ _ _ _ HI) as Hlen.
  have Hold : ∀ i f, frame_list st !! i = Some f → frame_list st' !! i = Some f.
  { intros i f Hf. rw HF lookup_app_l //. by eapply lookup_lt_Some. }
  have Hnew : frame_list st' !! j = Some fnew.
  { rw HF. by apply list_lookup_middle. }
  have Hlook : ∀ i f', frame_list st' !! i = Some f' →
      frame_list st !! i = Some f' ∨ (i = j ∧ f' = fnew).
  { intros i f'. rw HF. intros [?|[Hi Hs]]%lookup_app_Some; [by left|right].
    apply list_lookup_singleton_Some in Hs as [Hi0 <-]. split; [|done]. rw /j. lia. }
  have Hnacc : ¬ accepted' j fnew.
  { intros [Hc [Hj|Hd]]; [rw /j in Hj; lia|]. simpl in *. congruence. }
  have Hixold : ∀ s i, state_indices st !! s = Some i → state_indices st' !! s = Some i.
  { intros s i Hs. rw Hidx lookup_insert_ne //. intros <-. congruence. }
  destruct HI as [I1 I2 I3 I4 I5 I6 I7 I8 I9]. split.
  - rw HF length_app /=. lia.
  - intros s i. rw Hidx. intros [[<- <-]|[Hne Hs]]%lookup_insert_Some.
    + split; [rw /j; lia|]. by exists fnew.
    + destruct (I2 s i Hs) as (Hi & f & Hf & Hsf). split; [done|].
      exists f. split; [by apply Hold|done].
  - intros i f' Hi Hf'. destruct (Hlook i f' Hf') as [Hf|[-> ->]].
    + destruct (I3 i f' Hi Hf) as [(s & Hs & Hix & Hh & Hl) Hd Hde].
      split; [|done..]. exists s. split_and!; [done|by apply Hixold|done|].
      eapply linked_mono; [|done..]. by auto.
    + split; simpl.
      * exists t. split_and!; [done|by rw Hidx lookup_insert_eq|done|].
        right. split; [rw /j; lia|]. exists a, n, fn, sn.
        split_and!; try done. by apply Hold.
      * pose proof (fo_depth _ _ _ _ _ _ _ _ _ (I3 n fn Hn Hfn)). lia.
      * done.
  - intros i q [Hin|(Hd & -> & ->)]%Hent.
    + destruct (I4 i q Hin) as (Hi & f & Hf & Hq). split; [done|].
      exists f. split; [by apply Hold|done].
    + split; [lia|]. exists fnew. split; [exact Hnew|]. intros _. simpl. qc_lra.
  - intros i f' Hi Hf' Hc. destruct (Hlook i f' Hf') as [Hf|[-> ->]].
    + destruct (I5 i f' Hi Hf Hc) as (q & Hin & Hq). exists q. split; [|done].
      apply Hent. by left.
    + simpl in Hc. eexists. split; [apply Hent; right; by split_and!|]. simpl. qc_lra.
  - intros i f' s b Hi Hf' Hacc' Hs Hb Hreq.
    destruct (Hlook i f' Hf') as [Hf|[-> ->]]; [|done].
    destruct (expanding_req_snoc _ _ Hreq) as [Hreq'|[-> ->]].
    + destruct (I6 i f' s b Hi Hf Hacc' Hs Hb Hreq') as (k & fk & Hk & Hfk & Hg).
      exists k, fk. split_and!; [by apply Hixold|by apply Hold|done].
    + rw Hfn in Hf. injection Hf as <-. rw Hsn in Hs. injection Hs as <-.
      exists j, fnew. split_and!; [by rw Hidx lookup_insert_eq|done|simpl; qc_lra].
  - intros i f' s acts Hi Hf' Hacc' Hs Hr.
    destruct (Hlook i f' Hf') as [Hf|[-> ->]]; [by eapply I7|done].
  - intros i f' s Hi Hf' Hacc' Hs.
    destruct (Hlook i f' Hf') as [Hf|[-> ->]]; [by eapply I8|done].
  - left. exists f1. split; [by apply Hold|by destruct Hacc1].
Qed.

(** The successor state has a frame, which is not improved. *)
Lemma Inv_seen_kept j fj :
  state_indices st !! apply a sn = Some j → frame_list st !! j = Some fj →
  ¬ g_value fn + cost a < g_value fj →
  Inv' (req_expanding n (processed ++ [a])) st.
Proof.
  intros Hj Hfj Hge. destruct HI as [I1 I2 I3 I4 I5 I6 I7 I8 I9]. split; try done.
  intros i f s b Hi Hf Hacc' Hs Hb Hreq.
  destruct (expanding_req_snoc _ _ Hreq) as [Hreq'|[-> ->]]; [by eapply I6|].
  rw Hfn in Hf. injection Hf as <-. rw Hsn in Hs. injection Hs as <-.
  exists j, fj. split_and!; [done..|]. qc_lra.
Qed.

(** A frame that gets a cheaper predecessor was not accepted before. *)
Lemma improved_not_accepted j fj :
  state_indices st !! apply a sn = Some j → frame_list st !! j = Some fj →
  g_value fn + cost a < g_value fj → ¬ accepted' j fj.
Proof.
  intros Hj Hfj Hlt Hacc'.
  destruct (inv_index _ _ _ _ _ _ _ _ _ HI _ _ Hj) as (Hj1 & fj' & Hfj' & Hsj).
  rw Hfj in Hfj'. injection Hfj' as <-.
  destruct (frame_reach _ _ _ _ _ HI Hn Hfn Hsn) as (acts & Hr & Hc & _).
  have Hx : expandable' sn.
  { eapply (accepted_expandable st n fn); [by eapply inv_frames|done..]. }
  pose proof (reach_snoc _ _ _ _ _ _ _ _ Hr Hx Ha) as Hr'.
  pose proof (inv_optimal _ _ _ _ _ _ _ _ _ HI j fj _ _ Hj1 Hfj Hacc' Hsj Hr') as Hopt.
  rw total_cost_snoc Hc in Hopt. qc_lra.
Qed.

(** The successor state has a frame, which gets the cheaper predecessor. *)
Lemma Inv_seen_relinked (st' : SState) j fj :
  state_indices st !! apply a sn = Some j → frame_list st !! j = Some fj →
  g_value fn + cost a < g_value fj →
  frame_list st' =
    <[j := relink a n (depth fn + 1) (g_value fn + cost a) fj]> (frame_list st) →
  state_indices st' = state_indices st →
  (∀ i q, (i, q) ∈ ol_entries (open_list st') ↔
     (i, q) ∈ ol_entries (open_list st) ∨
     (is_dead_end (h_value fj) = false ∧ i = j ∧
      q = g_value fn + cost a + h_value fj)) →
  Inv' (req_expanding n (processed ++ [a])) st'.
Proof.
  set (fj' := relink _ _ _ _ _).
  intros Hj Hfj Hlt HF Hidx Hent.
  pose proof (improved_not_accepted j fj Hj Hfj Hlt) as Hnacc.
  destruct expanding_root_closed as (f1 & Hf1 & Hacc1).
  destruct (inv_index _ _ _ _ _ _ _ _ _ HI _ _ Hj) as (Hj1 & fj0 & Hfj0 & Hsj).
  rw Hfj in Hfj0. injection Hfj0 as <-.
  have Hjlt : (j < length (frame_list st))%nat by eapply lookup_lt_Some.
  have Hjn : j ≠ n by intros ->; simplify_eq.
  have Hj11 : j ≠ 1%nat by intros ->; simplify_eq.
  have Hkeep : ∀ i f, frame_list st !! i = Some f → accepted' i f →
      frame_list st' !! i = Some f.
  { intros i f Hf Hacc'. rw HF list_lookup_insert_ne //. intros <-. by simplify_eq. }
  have Hnew : frame_list st' !! j = Some fj'.
  { rw HF. by apply list_lookup_insert_eq. }
  have Hlook : ∀ i f', frame_list st' !! i = Some f' →
      (i = j ∧ f' = fj') ∨ (i ≠ j ∧ frame_list st !! i = Some f').
  { intros i f'. rw HF. intros [(-> & <- & _)|[? ?]]%list_lookup_insert_Some; auto. }
  have Hfrom : ∀ i f, frame_list st !! i = Some f →
      ∃ f', frame_list st' !! i = Some f' ∧ state f' = state f ∧
        g_value f' <= g_value f ∧ h_value f' = h_value f.
  { intros i f Hf. destruct (decide (i = j)) as [->|Hne].
    - rw Hfj in Hf. injection Hf as <-. exists fj'.
      split_and!; try done. simpl. qc_lra.
    - exists f. by rw HF list_lookup_insert_ne. }
  have Hnacc' : ¬ accepted' j fj' by done.
  destruct HI as [I1 I2 I3 I4 I5 I6 I7 I8 I9]. split.
  - by rw HF length_insert.
  - intros s i Hi. rw Hidx in Hi. destruct (I2 s i Hi) as (Hi1 & f & Hf & Hs).
    split; [done|]. destruct (Hfrom i f Hf) as (f' & Hf' & Hs' & _).
    exists f'. split; [done|congruence].
  - intros i f' Hi Hf'. destruct (Hlook i f' Hf') as [[-> ->]|[Hne Hf]].
    + destruct (I3 j fj Hi Hfj) as [(s & Hs & Hix & Hh & Hl) Hd Hde].
      rw Hsj in Hs. injection Hs as <-.
      split; simpl.
      * exists (apply a sn). rw Hidx. split_and!; [done..|].
        right. split; [done|]. exists a, n, fn, sn.
        split_and!; try done. by apply Hkeep.
      * pose proof (fo_depth _ _ _ _ _ _ _ _ _ (I3 n fn Hn Hfn)). lia.
      * done.
    + destruct (I3 i f' Hi Hf) as [(s & Hs & Hix & Hh & Hl) Hd Hde].
      split; [|done..]. exists s. rw Hidx. split_and!; [done..|].
      by eapply linked_mono; [| | | | |exact Hl].
  - intros i q [Hin|(Hd & -> & ->)]%Hent.
    + destruct (I4 i q Hin) as (Hi & f & Hf & Hq). split; [done|].
      destruct (Hfrom i f Hf) as (f' & Hf' & _ & Hg' & Hh').
      exists f'. split; [done|]. intros Hi1. specialize (Hq Hi1). rw Hh'. qc_lra.
    + split; [done|]. exists fj'. split; [done|]. intros _. simpl. qc_lra.
  - intros i f' Hi Hf' Hc. destruct (Hlook i f' Hf') as [[-> ->]|[Hne Hf]].
    + simpl in Hc. eexists. split; [apply Hent; right; split_and!; [|done..]|].
      * destruct (is_dead_end (h_value fj)) eqn:Hd; [|done].
        pose proof (fo_dead _ _ _ _ _ _ _ _ _ (I3 j fj Hi Hfj) Hd Hj11). congruence.
      * simpl. qc_lra.
    + destruct (I5 i f' Hi Hf Hc) as (q & Hin & Hq). exists q. split; [|done].
      apply Hent. by left.
  - intros i f' s b Hi Hf' Hacc' Hs Hb Hreq.
    destruct (Hlook i f' Hf') as [[-> ->]|[_ Hf]]; [done|].
    destruct (expanding_req_snoc _ _ Hreq) as [Hreq'|[-> ->]].
    + destruct (I6 i f' s b Hi Hf Hacc' Hs Hb Hreq') as (k & fk & Hk & Hfk & Hg).
      destruct (Hfrom k fk Hfk) as (fk' & Hfk' & _ & Hg' & _).
      exists k, fk'. rw Hidx. split_and!; [done..|]. qc_lra.
    + rw Hfn in Hf. injection Hf as <-. rw Hsn in Hs. injection Hs as <-.
      exists j, fj'. rw Hidx. split_and!; [done..|]. simpl. qc_lra.
  - intros i f' s acts Hi Hf' Hacc' Hs Hr.
    destruct (Hlook i f' Hf') as [[-> ->]|[_ Hf]]; [done|by eapply I7].
  - intros i f' s Hi Hf' Hacc' Hs.
    destruct (Hlook i f' Hf') as [[-> ->]|[_ Hf]]; [done|by eapply I8].
  - left. exists f1. split; [by apply Hkeep|by destruct Hacc1].
Qed.

End Expanding.

Lemma is_closed_mono (st st' : SState) :
  (∀ s i, state_indices st !! s = Some i → state_indices st' !! s = Some i) →
  (∀ i f, frame_list st !! i = Some f →
     ∃ f', frame_list st' !! i = Some f' ∧ (closed f = true → closed f' = true)) →
  ∀ s, is_closed st s = true → is_closed st' s = true.
Proof.
  intros Hidx HF s. rw /is_closed.
  destruct (state_indices st !! s) as [i|] eqn:Hi; [|done]. rw (Hidx _ _ Hi).
  destruct (frame_list st !! i) as [f|] eqn:Hf; [|done].
  by destruct (HF _ _ Hf) as (f' & -> & Hc).
Qed.

Lemma process_action_Inv (st : SState) n fn sn processed a :
  Inv' (req_expanding n processed) st →
  (1 ≤ n)%nat → frame_list st !! n = Some fn → accepted' n fn →
  state fn = Some sn → a ∈ applicable sn →
  ∃ st', process_action' n st a = Some st' ∧
    Inv' (req_expanding n (processed ++ [a])) st' ∧
    frame_list st' !! n = Some fn ∧
    (∀ s, is_closed st s = true → is_closed st' s = true).
Proof.
  intros HI Hn Hfn Hacc Hsn Ha.
  destruct (state_indices st !! apply a sn) as [j|] eqn:Hj.
  - destruct (inv_index _ _ _ _ _ _ _ _ _ HI _ _ Hj) as (Hj1 & fj & Hfj & Hsj).
    have Hd : default 0%nat (state_indices st !! apply a sn) = j by rw Hj.
    rw (process_action_seen apply cost evaluate is_dead_end n st a fn sn j fj) //;
      [|lia]. cbv zeta.
    destruct (decide (g_value fn + cost a < g_value fj)) as [Hlt|Hge].
    + eexists. split; [done|].
      have Hjn : j ≠ n.
      { intros ->. rw Hfn in Hfj. injection Hfj as <-.
        by eapply (improved_not_accepted st n fn sn processed a). }
      split_and!.
      * eapply (Inv_seen_relinked st n fn sn processed a) with (j := j) (fj := fj);
          try done.
        simpl. intros i q. destruct (is_dead_end (h_value fj)).
        -- split; [by left|]. by intros [?|(? & _)].
        -- rw ol_insert_entries elem_of_cons. split.
           ++ intros [[= -> ->]|?]; [right|left]; done.
           ++ intros [?|(_ & -> & ->)]; [right|left]; done.
      * simpl. by rw list_lookup_insert_ne.
      * apply is_closed_mono; simpl; [done|].
        intros i f Hf. destruct (decide (i = j)) as [->|Hne].
        -- rw Hfj in Hf. injection Hf as <-. eexists.
           split; [apply list_lookup_insert_eq; by eapply lookup_lt_Some|done].
        -- exists f. by rw list_lookup_insert_ne.
    + exists st. split_and!; [done| |done|done].
      by eapply (Inv_seen_kept st n fn sn processed a).
  - have Hd : default 0%nat (state_indices st !! apply a sn) = 0%nat by rw Hj.
    rw (process_action_unseen apply cost evaluate is_dead_end n st a fn sn) //.
    cbv zeta. eexists. split; [done|]. split_and!.
    + eapply (Inv_unseen st n fn sn processed a); try done.
      simpl. intros i q. destruct (is_dead_end (evaluate (apply a sn))).
      * split; [by left|]. by intros [?|(? & _)].
      * rw ol_insert_entries elem_of_cons. split.
        -- intros [[= -> ->]|?]; [right|left]; done.
        -- intros [?|(_ & -> & ->)]; [right|left]; done.
    + simpl. rw lookup_app_l //. by eapply lookup_lt_Some.
    + apply is_closed_mono; simpl.
      * intros s i Hs. rw lookup_insert_ne //. intros <-. congruence.
      * intros i f Hf. exists f. split; [|done]. rw lookup_app_l //.
        by eapply lookup_lt_Some.
Qed.

Lemma expand_actions_Inv n fn sn (rest : list Action) : ∀ (st : SState) processed,
  Inv' (req_expanding n processed) st →
  (1 ≤ n)%nat → frame_list st !! n = Some fn → accepted' n fn →
  state fn = Some sn → (∀ a, a ∈ rest → a ∈ applicable sn) →
  ∃ st', expand_actions' n st rest = Some st' ∧
    Inv' (req_expanding n (processed ++ rest)) st' ∧
    frame_list st' !! n = Some fn ∧
    (∀ s, is_closed st s = true → is_closed st' s = true).
Proof.
  induction rest as [|a rest IH]; intros st processed HI Hn Hfn Hacc Hsn Hrest.
  - exists st. rw app_nil_r. by split_and!.
  - destruct (process_action_Inv st n fn sn processed a) as (st1 & Hp & HI1 & Hfn1 & Hc1);
      [done..|apply Hrest; by left|].
    destruct (IH st1 (processed ++ [a])) as (st' & Hx & HI' & Hfn' & Hc'); [done..| |].
    { intros b Hb. apply Hrest. by right. }
    exists st'. rw /= Hp. split_and!; [done| |done|by auto].
    by rw -app_assoc in HI'.
Qed.

Lemma Inv_expanded (st : SState) n fn sn :
  Inv' (req_expanding n (applicable sn)) st →
  frame_list st !! n = Some fn → state fn = Some sn → Inv' req_all st.
Proof.
  intros [I1 I2 I3 I4 I5 I6 I7 I8 I9] Hfn Hsn. split; try done.
  intros i f s a Hi Hf Hacc Hs Ha _. eapply I6; try done.
  destruct (decide (i = n)) as [->|Hne]; [right|by left].
  rw Hfn in Hf. injection Hf as <-. rw Hsn in Hs. by injection Hs as <-.
Qed.

(** *** Termination *)

Lemma unclosed_mono (st st' : SState) :
  (∀ s, is_closed st s = true → is_closed st' s = true) →
  (unclosed universe st' ≤ unclosed universe st)%nat.
Proof.
  intros Hc. apply filter_length_mono. intros s Hs.
  destruct (is_closed st s) eqn:Hcs; [|done]. rw (Hc _ Hcs) in Hs. done.
Qed.

Lemma unclosed_lt (st st' : SState) (y : State) :
  (∀ s, is_closed st s = true → is_closed st' s = true) →
  y ∈ universe → is_closed st y = false → is_closed st' y = true →
  (unclosed universe st' < unclosed universe st)%nat.
Proof.
  intros Hc Hy Hy0 Hy1. apply (filter_length_lt _ _ _ y); [|done|done|congruence].
  intros s Hs. destruct (is_closed st s) eqn:Hcs; [|done]. rw (Hc _ Hcs) in Hs. done.
Qed.

Lemma accept_state_indices (index : nat) frame (st : SState) :
  state_indices (accept index frame st) = state_indices st.
Proof. rw /accept. by destruct (decide _). Qed.

Lemma accept_open_list (index : nat) frame (st : SState) :
  open_list (accept index frame st) = open_list st.
Proof. rw /accept. by destruct (decide _). Qed.

(** The closed flags do not matter to the walk along the links. *)
Lemma reconstruct_set_closed (F : list (Frame State Action)) n fn b :
  F !! n = Some fn →
  ∀ fuel f f' out acts,
    predecessor_action f' = predecessor_action f →
    predecessor_index f' = predecessor_index f →
    reconstruct fuel F f out = ReconDone acts →
    reconstruct fuel (<[n := set_closed b fn]> F) f' out = ReconDone acts.
Proof.
  intros Hfn. induction fuel as [|fuel IH]; intros f f' out acts Hpa Hpi; simpl; rw Hpa.
  - done.
  - destruct (predecessor_action f) as [a|]; [|done]. rw Hpi /frame_at.
    destruct (decide (0 ≤ predecessor_index f)%Z); [|done].
    destruct (F !! Z.to_nat (predecessor_index f)) as [f1|] eqn:Hf1; [|done].
    intros Hr. destruct (decide (Z.to_nat (predecessor_index f) = n)) as [Heq|Hne].
    + rw Heq list_lookup_insert_eq; [|by eapply lookup_lt_Some].
      rw Heq Hfn in Hf1. injection Hf1 as <-. by apply (IH fn).
    + rw list_lookup_insert_ne // Hf1. by apply (IH f1).
Qed.


(** *** The loop returns, and returns the right result *)

Local Abbreviation optimal_plan' := (optimal_plan initial goal applicable apply cost).
Local Abbreviation goal_reachable' := (goal_reachable initial goal applicable apply).

Lemma search_loop_correct (u : nat) : ∀ (k : nat) (st : SState),
  Inv' req_all st → (unclosed universe st ≤ u)%nat →
  (length (ol_entries (open_list st)) ≤ k)%nat →
  ∃ fuel0, ∀ fuel, (fuel0 ≤ fuel)%nat →
    ∃ st',
      (search_loop' fuel st = Returned SOLVED st' ∧ optimal_plan' (out_plan st')) ∨
      (search_loop' fuel st = Returned UNSOLVABLE st' ∧ ¬ goal_reachable').
Proof.
  induction u as [u IHu] using lt_wf_ind.
  induction k as [k IHk] using lt_wf_ind. intros st HI Hu Hk.
  destruct (decide (0 < ol_size (open_list st))%nat) as [Hsz|Hsz]; last first.
  { exists 0%nat. intros fuel _. exists st. right.
    have Hsz0 : ol_size (open_list st) = 0%nat by lia.
    split; [by apply search_loop_empty|].
    intros (acts & t & Hp & Hg).
    pose proof (empty_open_list_no_goal st acts t HI (ol_entries_empty _ Hsz0) Hp).
    congruence. }
  destruct (ol_pop_entries _ Hsz) as (n & p & ol' & Hpop & Hperm & Hmin).
  destruct (inv_entries _ _ _ _ _ _ _ _ _ HI n p) as (Hn & fn & Hfn & Hb).
  { rw Hperm. by left. }
  destruct (inv_frames _ _ _ _ _ _ _ _ _ HI n fn Hn Hfn)
    as [(sn & Hsn & Hidx & Hh & Hl) Hd Hde].
  have Hlen : length (ol_entries (open_list st)) = S (length (ol_entries ol')).
  { by rw Hperm. }
  destruct (closed fn) eqn:Hc.
  - have HI' : Inv' req_all (popped n ol' st).
    { by eapply (Inv_popped_closed st (popped n ol' st) n p fn). }
    destruct (IHk (length (ol_entries ol')) ltac:(lia) (popped n ol' st) HI' Hu (le_n _))
      as [fuel0 Hf0].
    exists (S fuel0). intros [|fuel] Hfuel; [lia|]. rw search_loop_S //.
    rw /iteration Hpop. change (frame_list (popped n ol' st)) with (frame_list st).
    rw Hfn Hc. apply Hf0. lia.
  - set (st_a := accept n fn (popped n ol' st)).
    have HFa : frame_list st_a = <[n := set_closed true fn]> (frame_list st).
    { by rw /st_a accept_frame_list. }
    have HIa : state_indices st_a = state_indices st.
    { by rw /st_a accept_state_indices. }
    have HOa : open_list st_a = ol' by rw /st_a accept_open_list.
    have Hlt : (n < length (frame_list st))%nat by eapply lookup_lt_Some.
    destruct (frame_reach _ st n fn sn HI Hn Hfn Hsn) as (acts & Hr & Hcost & Hrec).
    destruct (goal sn) eqn:Hg.
    + exists (S (length acts)). intros [|fuel] Hfuel; [lia|]. rw search_loop_S //.
      rw /iteration Hpop. change (frame_list (popped n ol' st)) with (frame_list st).
      rw Hfn Hc Hno_abort Hsn Hg. fold st_a. rw HFa.
      rw (reconstruct_set_closed (frame_list st) n fn true Hfn fuel fn
            (set_closed true fn) [] (rev acts));
        [|done|done|apply (Hrec fuel []); lia].
      eexists. left. split; [done|]. rw /= rev_involutive. split.
      * exists sn. split; [by apply reach_path|done].
      * intros acts' t' Hp' Hg'. rw Hcost.
        by eapply (popped_goal_optimal st n p _ fn sn acts' t').
    + have Hacc : accepted' n (set_closed true fn).
      { split; [done|]. simpl. destruct (decide (n = 1%nat)) as [?|Hn1]; [by left|right].
        destruct (is_dead_end (h_value fn)) eqn:Hdd; [|done].
        specialize (Hde eq_refl Hn1). congruence. }
      destruct (expand_actions_Inv n (set_closed true fn) sn (applicable sn)
                  (count_expansion st_a) [])
        as (st' & Hx & HI' & Hfn' & Hcl); try done.
      { eapply (Inv_accept st (count_expansion st_a) n p fn sn); try done.
        by rw /= HOa. }
      { rw /= HFa. by apply list_lookup_insert_eq. }
      apply (Inv_expanded st' n (set_closed true fn) sn) in HI'; [|done..].
      have Hmono : ∀ s, is_closed st s = true → is_closed st' s = true.
      { intros s Hs. apply Hcl. revert s Hs. apply is_closed_mono; simpl.
        - intros s i. by rw HIa.
        - intros i f Hf. rw HFa. destruct (decide (i = n)) as [->|Hne].
          + eexists. split; [by apply list_lookup_insert_eq|done].
          + exists f. by rw list_lookup_insert_ne. }
      have Hu' : (unclosed universe st' < unclosed universe st)%nat.
      { apply (unclosed_lt st st' sn Hmono).
        - apply (Hfinite acts). by apply reach_path.
        - by rw /is_closed Hidx Hfn.
        - apply Hcl. rw /is_closed /= HIa Hidx HFa list_lookup_insert_eq //. }
      destruct (IHu (unclosed universe st') ltac:(lia)
                  (length (ol_entries (open_list st'))) st' HI' (le_n _) (le_n _))
        as [fuel0 Hf0].
      exists (S fuel0). intros [|fuel] Hfuel; [lia|]. rw search_loop_S //.
      rw /iteration Hpop. change (frame_list (popped n ol' st)) with (frame_list st).
      rw Hfn Hc Hno_abort Hsn Hg. fold st_a. rw Hx. apply Hf0. lia.
Qed.



End Optimality.

(** ** Sufficient conditions on a state space *)

Section StateSpaceFacts.
Context {State Action : Type}.
Variable goal : State → bool.
Variable applicable : State → list Action.
Variable apply : Action → State → State.
Variable cost : Action → Qc.
Variable evaluate : State → Qc.
Variable is_dead_end : Qc → bool.

Lemma path_closed (U : list State) s acts t :
  (∀ s a, s ∈ U → a ∈ applicable s → apply a s ∈ U) →
  path applicable apply s acts t → s ∈ U → t ∈ U.
Proof.
  intros HU. induction 1 as [s|s a acts t Ha Hp IH]; [done|].
  intros Hs. apply IH. by apply HU.
Qed.

Lemma consistent_admissible :
  consistent applicable apply cost evaluate →
  (∀ t, goal t = true → evaluate t <= 0) →
  (∀ s, is_dead_end (evaluate s) = false) →
  admissible goal applicable apply cost evaluate is_dead_end.
Proof.
  intros Hc Hg Hd s acts t Hp Hgt. split; [done|].
  induction Hp as [s|s a acts t Ha Hp IH]; simpl; [by apply Hg|].
  specialize (IH Hgt). pose proof (Hc s a Ha). qc_lra.
Qed.

End StateSpaceFacts.

(** ** Runs of the concrete problems *)

Import Scenarios.

(** The chain scenario, for every open list that meets the contract: the
    open list never holds more than one entry, so the order of the pops is
    forced. *)
Lemma chain_run {OL : Type} `{OpenListContract OL} (ol : OL) (out : list Act) :
  ol_size ol = 0%nat →
  ∃ st, Chain.run 10 ol out = Returned SOLVED st ∧
    out_plan st = [("A", "B"); ("B", "C")] ∧
    expanded st = 2%Z ∧ evaluated st = 3%Z ∧ generated st = 2%Z.
Proof.
  intros Hsz. rw /Chain.run /plan decide_False; [|lia].
  have He := ol_entries_empty _ Hsz.
  set (st0 := initialize _ _ _ _).
  destruct (ol_pop_singleton (open_list st0) 1%nat 0) as (Hs0 & ol1 & Hpop1 & He1).
  { by apply ol_insert_empty. }
  rw search_loop_S //.
  eassert (iteration _ _ _ _ _ _ _ 9 st0 = Continue _) as ->.
  { rw /iteration Hpop1. vm_compute. reflexivity. }
  match goal with |- context [search_loop _ _ _ _ _ _ _ 9 ?st] => set (st1 := st) end.
  destruct (ol_pop_singleton (open_list st1) 2%nat (Q2Qc 2)) as (Hs1 & ol2 & Hpop2 & He2).
  { by apply: ol_insert_empty. }
  rw search_loop_S //.
  eassert (iteration _ _ _ _ _ _ _ 8 st1 = Continue _) as ->.
  { rw /iteration Hpop2. vm_compute. reflexivity. }
  match goal with |- context [search_loop _ _ _ _ _ _ _ 8 ?st] => set (st2 := st) end.
  destruct (ol_pop_singleton (open_list st2) 3%nat (Q2Qc 2)) as (Hs2 & ol3 & Hpop3 & He3).
  { by apply: ol_insert_empty. }
  rw search_loop_S //.
  eassert (iteration _ _ _ _ _ _ _ 7 st2 = Stop (Returned SOLVED _)) as ->.
  { rw /iteration Hpop3. vm_compute. reflexivity. }
  eexists. split; [done|]. by vm_compute.
Qed.


(** On the chain, the statistics map still holds the snapshot taken when
    the initial state was accepted (the only new layer): the counters
    reported to the caller are those of that moment. *)
Lemma chain_statistics_snapshot :
  match Chain.run 10 ([] : list (nat * Qc)) [] with
  | Returned SOLVED st =>
    statistics st !! "expanded" = Some (IntStat 0) ∧
    statistics st !! "generated" = Some (IntStat 0) ∧
    statistics st !! "evaluated" = Some (IntStat 1) ∧
    length (filter is_notify (events st)) = 1%nat
  | _ => False
  end.
Proof. vm_compute. done. Qed.

(** Path improvement: [D] is first reached through the route of cost 5
    and relinked when the route of cost 2 is found; the plan goes through
    [B], and the stale entry (handle 2, priority 5) is still queued when
    [plan] returns. *)
Lemma two_routes_plan_uses_cheaper_route :
  match TwoRoutes.run 10 with
  | Returned SOLVED st =>
    out_plan st = [("A", "B"); ("B", "D"); ("D", "G")] ∧
    predecessor_action <$> frame_list st !! 2%nat = Some (Some ("B", "D")) ∧
    (this ∘ g_value) <$> frame_list st !! 2%nat = Some (2 # 1)%Q ∧
    (λ e, (e.1, this e.2)) <$> open_list st = [(2%nat, (5 # 1)%Q)]
  | _ => False
  end.
Proof. vm_compute. done. Qed.

(** Abort: when the flag is set at the first check, [plan] returns
    [ABORTED] after the first snapshot, before any expansion. *)
Lemma abort_at_first_check :
  match plan (OL := list (nat * Qc)) "A" Chain.is_goal Chain.actions target
             Chain.unit_cost Chain.h no_dead_end (λ _, true) 10 [] [("B", "C")] with
  | Returned ABORTED st =>
    out_plan st = [("B", "C")] ∧ expanded st = 0%Z ∧
    length (filter is_notify (events st)) = 1%nat
  | _ => False
  end.
Proof. vm_compute. done. Qed.

(** C5 (the code at the failing input): when the heuristic value of the
    initial state is the dead-end value, the frame of the initial state,
    handle 1, is inserted into the open list all the same, popped and
    expanded. *)
Theorem dead_end_initial_state_is_expanded :
  match DeadInitial.run 5 with
  | Returned UNSOLVABLE st =>
    (dead_end_1000 ∘ h_value) <$> frame_list st !! 1%nat = Some true ∧
    inserted_handles (events st) = [1%nat] ∧
    popped_handles (events st) = [1%nat] ∧
    expanded st = 1%Z
  | _ => False
  end.
Proof. vm_compute. done. Qed.

(** C6 (the code at the failing input): with f-values that are not
    integers the layer boundary is stored truncated; on a problem where
    the three accepted frames all have f-value 1/2 the statistics are
    snapshotted, and the handlers notified, three times. *)
Theorem snapshot_repeats_within_a_layer :
  match Fractional.run 5 with
  | Returned SOLVED st =>
    this <$> snapshot_f_values (events st) = [1 # 2; 1 # 2; 1 # 2]%Q
  | _ => False
  end.
Proof. vm_compute. done. Qed.

(** ** Where the code departs from the specification *)

(** C2 (counterexample): on the chain, where [h(A) = 2], no handle is
    inserted with priority [0 + h(A)] by the initialisation. *)
Lemma initial_priority_is_not_h0 :
  ¬ ∃ handle : nat,
      open_list (initialize (Action := Act) "A" Chain.h ([] : list (nat * Qc)) [])
      = ol_insert handle (0 + Chain.h "A") [].
Proof.
  intros [handle Heq]. vm_compute in Heq. by simplify_eq.
Qed.

(** C3 (counterexample): after the initialisation, handle 1 is not the
    dummy root and the initial state does not have handle 2. *)
Lemma initial_handle_is_not_2 :
  let st := initialize (Action := Act) "A" Chain.h ([] : list (nat * Qc)) [] in
  ¬ (frame_list st !! 1%nat = Some dummy_frame ∧
     state_indices st !! "A" = Some 2%nat).
Proof.
  intros st [_ Hidx]. vm_compute in Hidx. by simplify_eq.
Qed.


(** ** Instances of the theorems on the concrete problems *)

(** A call with one entry queued. *)
Lemma plan_open_list_not_empty_witness :
  Chain.run 3 [(7%nat, 0)] [] = Threw "open list is not initially empty".
Proof.
  rw /Chain.run. apply plan_open_list_not_empty. simpl. lia.
Defined.

(** An unsolvable problem, called with a non-empty [out_plan]. *)
Lemma out_plan_untouched_unless_solved_witness :
  ∃ st,
    plan (OL := list (nat * Qc)) "A" DeadInitial.is_goal DeadInitial.actions target
         DeadInitial.unit_cost DeadInitial.h dead_end_1000 never_abort
         5 [] [("A", "B")] = Returned UNSOLVABLE st ∧
    out_plan st = [("A", "B")].
Proof.
  eexists. split; [vm_compute; reflexivity|].
  eapply (out_plan_untouched_unless_solved (OL := list (nat * Qc))
            "A" DeadInitial.is_goal DeadInitial.actions target DeadInitial.unit_cost
            DeadInitial.h dead_end_1000 never_abort 5 [] [("A", "B")] UNSOLVABLE).
  - vm_compute. reflexivity.
  - by left.
Defined.

(** The first allocation after the initialisation, on the chain. *)
Lemma handle_numbering_witness :
  ∃ st',
    process_action target Chain.unit_cost Chain.h no_dead_end 1
      (initialize (Action := Act) "A" Chain.h ([] : list (nat * Qc)) []) ("A", "B")
    = Some st' ∧
    state_indices st' !! "A" = Some 1%nat.
Proof.
  eassert (process_action target Chain.unit_cost Chain.h no_dead_end 1
             (initialize (Action := Act) "A" Chain.h ([] : list (nat * Qc)) [])
             ("A", "B") = Some _) as Hp by (vm_compute; reflexivity).
  eexists. split; [exact Hp|].
  destruct (handle_numbering (OL := list (nat * Qc)) (Action := Act)
              "A" target Chain.unit_cost Chain.h no_dead_end) as [_ Halloc].
  destruct (Halloc _ _ _ _ Hp) as [Hkeep _]. apply Hkeep; by vm_compute.
Defined.


(** The rediscovery of [D] through [B] on the problem with two routes. *)
Lemma rediscovery_relinks_only_when_cheaper_witness :
  ∃ st',
    process_action target TwoRoutes.edge_cost TwoRoutes.h no_dead_end 3
      TwoRoutes.expanding_B ("B", "D") = Some st' ∧
    frame_list st' !! 3%nat = Some TwoRoutes.frame_B ∧
    length (frame_list st') = 4%nat.
Proof.
  destruct (rediscovery_relinks_only_when_cheaper (OL := list (nat * Qc))
              target TwoRoutes.edge_cost TwoRoutes.h no_dead_end
              3 TwoRoutes.expanding_B ("B", "D")
              TwoRoutes.frame_B "B" 2 TwoRoutes.frame_D)
    as (st' & Hp & _ & _ & _ & Hlen & Hother & _).
  - reflexivity.
  - reflexivity.
  - by vm_compute.
  - lia.
  - reflexivity.
  - exists st'. split; [exact Hp|]. split; [|exact Hlen].
    rw Hother; [reflexivity|lia].
Defined.


(** The chain scenario meets the conditions of optimality. *)
Lemma chain_actions s a :
  a ∈ Chain.actions s → (s = "A" ∧ a = ("A", "B")) ∨ (s = "B" ∧ a = ("B", "C")).
Proof.
  rw /Chain.actions. destruct (decide (s = "A")) as [->|?].
  { intros ->%list_elem_of_singleton. by left. }
  destruct (decide (s = "B")) as [->|?].
  { intros ->%list_elem_of_singleton. by right. }
  by intros ?%elem_of_nil.
Qed.

Lemma chain_finite acts s :
  path Chain.actions target "A" acts s → s ∈ ["A"; "B"; "C"].
Proof.
  intros Hp. eapply path_closed; [|done|by left].
  intros s' a _ [[-> ->]|[-> ->]]%chain_actions; rw /target /=.
  - right. by left.
  - right. right. by left.
Qed.

Lemma chain_consistent : consistent Chain.actions target Chain.unit_cost Chain.h.
Proof. by intros s a [[-> ->]|[-> ->]]%chain_actions; vm_compute. Qed.

Lemma chain_admissible :
  admissible Chain.is_goal Chain.actions target Chain.unit_cost Chain.h no_dead_end.
Proof.
  apply consistent_admissible; [apply chain_consistent| |done].
  intros t Ht. apply bool_decide_eq_true in Ht as ->. by vm_compute.
Qed.

Lemma chain_nonnegative : nonnegative Chain.h.
Proof.
  intros s. rw /Chain.h. by repeat destruct (decide _); vm_compute.
Qed.


(** * What holds for every heuristic *)

Section Structure.
Context {State Action : Type} `{Countable State}.
Context {OL : Type} `{OpenListContract OL}.
Variable initial : State.
Variable goal : State → bool.
Variable applicable : State → list Action.
Variable apply : Action → State → State.
Variable cost : Action → Qc.
Variable evaluate : State → Qc.
Variable is_dead_end : Qc → bool.
Variable should_abort : list Event → bool.

Local Abbreviation SState := (SearchState State Action OL).
Local Abbreviation path' := (path applicable apply).
Local Abbreviation cost_of := (total_cost cost).
Local Abbreviation wlinked' := (wlinked initial applicable apply cost).
Local Abbreviation WF' := (WF (OL := OL) initial applicable apply cost evaluate).
Local Abbreviation process_action' :=
  (process_action (OL := OL) apply cost evaluate is_dead_end).
Local Abbreviation expand_actions' :=
  (expand_actions (OL := OL) apply cost evaluate is_dead_end).
Local Abbreviation iteration' :=
  (iteration (OL := OL) goal applicable apply cost evaluate is_dead_end should_abort).
Local Abbreviation search_loop' :=
  (search_loop (OL := OL) goal applicable apply cost evaluate is_dead_end should_abort).
Local Abbreviation plan' :=
  (plan (OL := OL) initial goal applicable apply cost evaluate is_dead_end should_abort).

Ltac process_action_split Hp :=
  let frame := fresh "frame" in
  let s := fresh "s" in
  let Hf := fresh "Hframe" in
  let Hs := fresh "Hstate" in
  let Hidx := fresh "Hidx" in
  let sf := fresh "succ_frame" in
  let Hsf := fresh "Hsucc" in
  let Hne := fresh "Hseen" in
  destruct (process_action_cases _ _ _ _ _ _ _ _ Hp)
    as (frame & s & Hf & Hs & [Hidx|(sf & Hne & Hsf)]);
  [ rw (process_action_unseen _ _ _ _ _ _ _ _ _ Hf Hs Hidx) in Hp
  | rw (process_action_seen _ _ _ _ _ _ _ _ _ _ _ Hf Hs eq_refl Hne Hsf) in Hp ];
  cbv zeta in Hp.

(** *** The frame list and the state index *)

Lemma WF_frame_index (st : SState) i f s :
  WF' st → frame_list st !! i = Some f → state f = Some s → (1 ≤ i)%nat.
Proof.
  intros HW Hf Hs. destruct (wf_dummy _ _ _ _ _ _ HW) as (f0 & Hf0 & Hs0 & _).
  destruct i; [|lia]. congruence.
Qed.

Lemma WF_initialize (ol : OL) (out : list Action) :
  WF' (initialize initial evaluate ol out).
Proof.
  have Hfr : ∀ i (f : Frame State Action), (1 ≤ i)%nat →
      frame_list (initialize initial evaluate ol out) !! i = Some f →
      i = 1%nat ∧ f = mkFrame (Some initial) None (-1) 0 0 (evaluate initial) false.
  { intros [|[|i]] f Hi Hf; simpl in Hf; [lia|by simplify_eq|done]. }
  split; simpl.
  - by eexists.
  - lia.
  - intros s i [[<- <-]|[_ ?]]%lookup_insert_Some; [|done]. split; [done|]. by eexists.
  - intros i f Hi Hf. destruct (Hfr i f Hi Hf) as [-> ->]. exists initial. simpl.
    split_and!; [done|by rw lookup_insert_eq|done|by left].
  - intros i f s Hi Hf Hs. destruct (Hfr i f Hi Hf) as [-> ->]. simpl in Hs.
    injection Hs as <-. exists []. apply path_nil.
  - by rw lookup_insert_eq.
Qed.

(** Changes of a frame that keep its state and heuristic value and do
    not raise its [g_value] keep the links of the other frames. *)
Lemma wlinked_mono (F F' : list (Frame State Action)) i f s :
  (∀ j fj, F !! j = Some fj →
     ∃ fj', F' !! j = Some fj' ∧ state fj' = state fj ∧ g_value fj' <= g_value fj) →
  wlinked' F i f s → wlinked' F' i f s.
Proof.
  intros HF [?|(a & j & fj & sj & Hpa & Hpi & Hj & Hfj & Hsj & Ha & Happ & Hg)];
    [by left|right].
  destruct (HF j fj Hfj) as (fj' & Hfj' & Hs' & Hg').
  exists a, j, fj', sj. split_and!; try done; [congruence|qc_lra].
Qed.

Lemma WF_set_closed (st st' : SState) n fn b :
  WF' st → frame_list st !! n = Some fn → (n = 0%nat → b = true) →
  frame_list st' = <[n := set_closed b fn]> (frame_list st) →
  state_indices st' = state_indices st → WF' st'.
Proof.
  intros [W0 W1 W2 W3 W4 W5] Hfn Hb HF Hidx.
  have Hlt : (n < length (frame_list st))%nat by eapply lookup_lt_Some.
  have Hfrom : ∀ j fj, frame_list st !! j = Some fj →
      ∃ fj', frame_list st' !! j = Some fj' ∧ state fj' = state fj ∧
        g_value fj' <= g_value fj.
  { intros j fj Hfj. destruct (decide (j = n)) as [->|Hne].
    - rw Hfn in Hfj. injection Hfj as <-. exists (set_closed b fn).
      split; [rw HF; by apply list_lookup_insert_eq|split; [done|simpl; qc_lra]].
    - exists fj. split; [by rw HF list_lookup_insert_ne|split; [done|qc_lra]]. }
  have Hlook : ∀ i f', frame_list st' !! i = Some f' →
      ∃ f, frame_list st !! i = Some f ∧ state f' = state f ∧
        h_value f' = h_value f ∧ g_value f' = g_value f ∧
        predecessor_action f' = predecessor_action f ∧
        predecessor_index f' = predecessor_index f.
  { intros i f'. rw HF. intros [(-> & <- & _)|[? ?]]%list_lookup_insert_Some.
    - by exists fn.
    - by exists f'. }
  split.
  - destruct W0 as (f0 & Hf0 & Hs0 & Hc0). destruct (decide (n = 0%nat)) as [->|Hne].
    + rw Hfn in Hf0. injection Hf0 as <-. exists (set_closed b fn).
      split_and!; [rw HF; by apply list_lookup_insert_eq|done|by apply Hb].
    + exists f0. by rw HF list_lookup_insert_ne.
  - by rw HF length_insert.
  - intros s i Hi. rw Hidx in Hi. destruct (W2 s i Hi) as (Hi1 & f & Hf & Hs).
    split; [done|]. destruct (Hfrom i f Hf) as (f' & Hf' & Hs' & _).
    exists f'. split; [done|congruence].
  - intros i f' Hi Hf'.
    destruct (Hlook i f' Hf') as (f & Hf & Hs & Hh & Hg & Hpa & Hpi).
    destruct (W3 i f Hi Hf) as (s & Hsf & Hix & Hhf & Hl).
    exists s. rw Hidx. split_and!; [congruence|done|congruence|].
    apply (wlinked_mono (frame_list st)); [done|].
    destruct Hl as [(? & ? & ? & ?)|(a & j & fj & sj & ? & ? & ? & ? & ? & ? & ? & ?)].
    + left. split_and!; congruence.
    + right. exists a, j, fj, sj. split_and!; try done; congruence.
  - intros i f' s Hi Hf' Hs'.
    destruct (Hlook i f' Hf') as (f & Hf & Hs & _).
    apply (W4 i f s Hi Hf). congruence.
  - by rw Hidx.
Qed.


Lemma WF_process_action (st st' : SState) n a :
  WF' st →
  (∀ fn sn, frame_list st !! n = Some fn → state fn = Some sn → a ∈ applicable sn) →
  process_action' n st a = Some st' → WF' st'.
Proof.
  intros HW Happ Hp. process_action_split Hp.
  - (* a state not seen before *)
    pose proof (Happ _ _ Hframe Hstate) as Ha.
    pose proof (WF_frame_index _ _ _ _ HW Hframe Hstate) as Hn.
    destruct HW as [W0 W1 W2 W3 W4 W5].
    have Hnone : state_indices st !! apply a s = None.
    { destruct (state_indices st !! apply a s) as [i|] eqn:Hi; [|done].
      destruct (W2 _ _ Hi) as [Hi1 _]. simpl in Hidx. lia. }
    injection Hp as <-.
    set (fnew := mkFrame _ _ _ _ _ _ _).
    have Hold : ∀ i f, frame_list st !! i = Some f →
        (frame_list st ++ [fnew]) !! i = Some f.
    { intros i f Hf. rw lookup_app_l //. by eapply lookup_lt_Some. }
    have Hlook : ∀ i f', (frame_list st ++ [fnew]) !! i = Some f' →
        frame_list st !! i = Some f' ∨ (i = length (frame_list st) ∧ f' = fnew).
    { intros i f'. intros [?|[Hi Hs]]%lookup_app_Some; [by left|right].
      apply list_lookup_singleton_Some in Hs as [Hi0 <-]. split; [lia|done]. }
    have Hfrom : ∀ j fj, frame_list st !! j = Some fj →
        ∃ fj', (frame_list st ++ [fnew]) !! j = Some fj' ∧ state fj' = state fj ∧
          g_value fj' <= g_value fj.
    { intros j fj Hfj. exists fj. split; [by apply Hold|split; [done|qc_lra]]. }
    split; simpl.
    + destruct W0 as (f0 & Hf0 & Hs0 & Hc0). exists f0. split; [by apply Hold|done].
    + rw length_app /=. lia.
    + intros s' i [[<- <-]|[Hne Hs]]%lookup_insert_Some.
      * split; [lia|]. exists fnew. split; [by apply list_lookup_middle|done].
      * destruct (W2 s' i Hs) as (Hi & f & Hf & Hsf). split; [done|].
        exists f. split; [by apply Hold|done].
    + intros i f' Hi Hf'. destruct (Hlook i f' Hf') as [Hf|[-> ->]].
      * destruct (W3 i f' Hi Hf) as (s' & Hs' & Hix & Hh & Hl).
        exists s'. split_and!; [done| |done|by eapply wlinked_mono].
        rw lookup_insert_ne //. intros <-. congruence.
      * exists (apply a s). split_and!; [done|by rw lookup_insert_eq|done|].
        right. exists a, n, frame, s.
        split_and!; try done; try (by apply Hold); simpl; qc_lra.
    + intros i f' s' Hi Hf' Hs'. destruct (Hlook i f' Hf') as [Hf|[-> ->]].
      * by eapply W4.
      * simpl in Hs'. injection Hs' as <-.
        destruct (W4 n frame s Hn Hframe Hstate) as [acts Hacts].
        exists (acts ++ [a]). by apply path_snoc.
    + rw lookup_insert_ne //. intros Heq. rw Heq in Hnone. congruence.
  - (* a state seen before *)
    destruct (decide _) as [Hlt|Hge]; injection Hp as <-; [|done].
    pose proof (Happ _ _ Hframe Hstate) as Ha.
    pose proof (WF_frame_index _ _ _ _ HW Hframe Hstate) as Hn.
    have Hj : state_indices st !! apply a s =
              Some (default 0%nat (state_indices st !! apply a s)).
    { revert Hseen. by destruct (state_indices st !! apply a s). }
    set (j := default 0%nat (state_indices st !! apply a s)) in *.
    set (fj' := relink _ _ _ _ _).
    destruct HW as [W0 W1 W2 W3 W4 W5].
    destruct (W2 _ _ Hj) as (Hj1 & fj0 & Hfj0 & Hsj).
    rw Hsucc in Hfj0. injection Hfj0 as <-.
    have Hjlt : (j < length (frame_list st))%nat by eapply lookup_lt_Some.
    have Hfrom : ∀ k fk, frame_list st !! k = Some fk →
        ∃ fk', <[j := fj']> (frame_list st) !! k = Some fk' ∧ state fk' = state fk ∧
          g_value fk' <= g_value fk.
    { intros k fk Hfk. destruct (decide (k = j)) as [->|Hne].
      - rw Hsucc in Hfk. injection Hfk as <-. exists fj'.
        split; [by apply list_lookup_insert_eq|split; [done|simpl; qc_lra]].
      - exists fk. split; [by rw list_lookup_insert_ne|split; [done|qc_lra]]. }
    have Hlook : ∀ i f', <[j := fj']> (frame_list st) !! i = Some f' →
        (i = j ∧ f' = fj') ∨ (i ≠ j ∧ frame_list st !! i = Some f').
    { intros i f'. intros [(-> & <- & _)|[? ?]]%list_lookup_insert_Some; auto. }
    split; simpl.
    + destruct W0 as (f0 & Hf0 & Hs0 & Hc0). exists f0.
      split; [|done]. rw list_lookup_insert_ne //; lia.
    + by rw length_insert.
    + intros s' i Hi. destruct (W2 s' i Hi) as (Hi1 & f & Hf & Hs).
      split; [done|]. destruct (Hfrom i f Hf) as (f' & Hf' & Hs' & _).
      exists f'. split; [done|congruence].
    + intros i f' Hi Hf'. destruct (Hlook i f' Hf') as [[-> ->]|[Hne Hf]].
      * destruct (W3 j succ_frame Hi Hsucc) as (s' & Hs' & Hix & Hh & _).
        rw Hsj in Hs'. injection Hs' as <-.
        exists (apply a s). split_and!; [done..|].
        destruct (Hfrom n frame Hframe) as (fn' & Hfn' & Hsn' & Hgn').
        right. exists a, n, fn', s.
        split_and!; try done; try congruence; simpl; qc_lra.
      * destruct (W3 i f' Hi Hf) as (s' & Hs' & Hix & Hh & Hl).
        exists s'. split_and!; [done..|]. by eapply wlinked_mono.
    + intros i f' s' Hi Hf' Hs'. destruct (Hlook i f' Hf') as [[-> ->]|[Hne Hf]].
      * by eapply (W4 j succ_frame).
      * by eapply W4.
    + done.
Qed.

Lemma process_action_index_frame (st st' : SState) n a f :
  process_action' n st a = Some st' → frame_list st !! n = Some f →
  ∃ f', frame_list st' !! n = Some f' ∧ state f' = state f.
Proof.
  intros Hp Hf. destruct (process_action_frames _ _ _ _ _ _ _ _ Hp) as (_ & Hold & _).
  destruct (Hold n f Hf) as (f' & Hf' & _ & _ & Hs). by exists f'.
Qed.

Lemma WF_expand_actions n (actions : list Action) : ∀ (st st' : SState),
  WF' st →
  (∀ fn sn a, frame_list st !! n = Some fn → state fn = Some sn →
     a ∈ actions → a ∈ applicable sn) →
  expand_actions' n st actions = Some st' → WF' st'.
Proof.
  induction actions as [|a rest IH]; intros st st' HW Happ Hx; simpl in Hx.
  - by simplify_eq.
  - destruct (process_action' n st a) as [st1|] eqn:Hp; [|done].
    apply (IH st1 st'); [| |done].
    + eapply WF_process_action; [done| |done].
      intros fn sn Hfn Hsn. eapply Happ; [done..|by left].
    + intros fn sn b Hfn Hsn Hb.
      destruct (process_action_cases _ _ _ _ _ _ _ _ Hp) as (f0 & s0 & Hf0 & Hs0 & _).
      destruct (process_action_index_frame _ _ _ _ _ Hp Hf0) as (f' & Hf' & Hs').
      rw Hfn in Hf'. injection Hf' as <-. eapply (Happ f0 sn); [done|congruence|by right].
Qed.


Lemma WF_ext (st st' : SState) :
  frame_list st' = frame_list st → state_indices st' = state_indices st →
  WF' st → WF' st'.
Proof.
  intros HF Hidx [W0 W1 W2 W3 W4 W5]. split; rw ?HF ?Hidx //.
Qed.

Lemma WF_accept (st : SState) n fn s :
  WF' st → frame_list st !! n = Some fn → state fn = Some s →
  WF' (accept n fn st).
Proof.
  intros HW Hfn Hs. eapply (WF_set_closed st _ n fn true); [done..| | |].
  - done.
  - by rw accept_frame_list.
  - rw /accept. by destruct (decide _).
Qed.

Lemma WF_iteration (fuel : nat) (st st' : SState) :
  WF' st → step_state (iteration' fuel st) = Some st' → WF' st'.
Proof.
  intros HW. rw /iteration.
  destruct (ol_pop (open_list st)) as [[n ol']|]; [|done].
  change (frame_list (popped n ol' st)) with (frame_list st).
  destruct (frame_list st !! n) as [fn|] eqn:Hfn; [|done].
  have HWp : WF' (popped n ol' st) by apply (WF_ext st).
  destruct (closed fn) eqn:Hc; [intros [= <-]; done|].
  destruct (state fn) as [s|] eqn:Hs; last first.
  { exfalso. destruct n as [|n].
    - destruct (wf_dummy _ _ _ _ _ _ HW) as (f0 & Hf0 & _ & Hc0). congruence.
    - destruct (wf_frames _ _ _ _ _ _ HW (S n) fn ltac:(lia) Hfn) as (s & Hs' & _).
      congruence. }
  have HWa : WF' (accept n fn (popped n ol' st)) by eapply WF_accept.
  destruct (should_abort _); [intros [= <-]; done|].
  destruct (goal s).
  - destruct (reconstruct _ _ _ _); simpl; intros [= <-].
    by apply (WF_ext (accept n fn (popped n ol' st))).
  - destruct (expand_actions' _ _ _) as [st1|] eqn:Hx; simpl; intros [= <-].
    eapply (WF_expand_actions n (applicable s)); [|..|exact Hx].
    + by apply (WF_ext (accept n fn (popped n ol' st))).
    + intros fn' sn' a.
      rw /= accept_frame_list list_lookup_insert_eq; [|by eapply lookup_lt_Some].
      intros [= <-]. simpl. congruence.
Qed.

Lemma WF_search_loop (fuel : nat) : ∀ (st st' : SState) r,
  WF' st → search_loop' fuel st = Returned r st' → WF' st'.
Proof.
  induction fuel as [|fuel IH]; intros st st' r HW; simpl.
  - destruct (decide _); [done|]. by intros [= <- <-].
  - destruct (decide _); [|by intros [= <- <-]].
    pose proof (WF_iteration fuel st) as Hit.
    destruct (iteration' fuel st) as [st1|o].
    + apply IH. by apply Hit.
    + intros ->. by apply Hit.
Qed.

Lemma WF_plan (fuel : nat) (ol : OL) (out : list Action) r (st : SState) :
  plan' fuel ol out = Returned r st → WF' st.
Proof.
  rw /plan. destruct (decide _); [done|]. apply WF_search_loop, WF_initialize.
Qed.

(** *** The plan can be executed *)

(** The predecessor chain of a frame, read backwards, leads from the
    initial state to the state of the frame and costs at most its
    [g_value]. *)
Lemma pred_chain_path (st : SState) f chain :
  WF' st → pred_chain (frame_list st) f chain →
  ∀ i s, (1 ≤ i)%nat → frame_list st !! i = Some f → state f = Some s →
    path' initial (rev chain) s ∧ cost_of (rev chain) <= g_value f.
Proof.
  intros HW. induction 1 as [f Hpa|f a f' acts Hpa Hat Hc IH]; intros i s Hi Hf Hs.
  - destruct (wf_frames _ _ _ _ _ _ HW i f Hi Hf) as (s' & Hs' & _ & _ & Hl).
    rw Hs in Hs'. injection Hs' as <-.
    destruct Hl as [(_ & _ & -> & Hg)|(b & ? & ? & ? & ? & _)]; [|congruence].
    split; [apply path_nil|]. rw Hg /=. qc_lra.
  - destruct (wf_frames _ _ _ _ _ _ HW i f Hi Hf) as (s' & Hs' & _ & _ & Hl).
    rw Hs in Hs'. injection Hs' as <-.
    destruct Hl as [(? & _)|(b & j & fj & sj & Hpb & Hpi & Hj & Hfj & Hsj & Hb & Happ & Hg)];
      [congruence|].
    rw Hpa in Hpb. injection Hpb as <-.
    rw /frame_at Hpi decide_True in Hat; [|lia]. rw Nat2Z.id Hfj in Hat.
    injection Hat as <-.
    destruct (IH j sj Hj Hfj Hsj) as [Hp Hcost].
    rw /= -Happ. split; [by apply path_snoc|]. rw total_cost_snoc. qc_lra.
Qed.


(** X2: whenever [plan] returns, the frame list and the state index
    describe each other: two frames never hold the same state; the index
    maps the state of every frame to the handle of that frame, and every
    handle of the index to a frame with that state; a frame holds the
    heuristic value of its state; and only states that can be reached from
    the initial state have a frame. *)
Theorem one_frame_per_state (fuel : nat) (ol : OL) (out : list Action)
    (r : SearchResult) (st : SState) :
  plan initial goal applicable apply cost evaluate is_dead_end should_abort fuel ol out
  = Returned r st →
  (∀ i j f f' s, frame_list st !! i = Some f → frame_list st !! j = Some f' →
     state f = Some s → state f' = Some s → i = j) ∧
  (∀ i f s, frame_list st !! i = Some f → state f = Some s →
     state_indices st !! s = Some i ∧ h_value f = evaluate s ∧
     ∃ acts, path applicable apply initial acts s) ∧
  (∀ s i, state_indices st !! s = Some i →
     ∃ f, frame_list st !! i = Some f ∧ state f = Some s).
Proof.
  intros Hplan. pose proof (WF_plan _ _ _ _ _ Hplan) as HW.
  have Hfr : ∀ i f s, frame_list st !! i = Some f → state f = Some s →
      state_indices st !! s = Some i ∧ h_value f = evaluate s ∧
      ∃ acts, path applicable apply initial acts s.
  { intros i f s Hf Hs. pose proof (WF_frame_index _ _ _ _ HW Hf Hs) as Hi.
    destruct (wf_frames _ _ _ _ _ _ HW i f Hi Hf) as (s' & Hs' & Hix & Hh & _).
    rw Hs in Hs'. injection Hs' as <-. split_and!; [done..|].
    by eapply wf_reach. }
  split_and!; [|done|].
  - intros i j f f' s Hf Hf' Hs Hs'.
    destruct (Hfr i f s Hf Hs) as [Hi _]. destruct (Hfr j f' s Hf' Hs') as [Hj _].
    congruence.
  - intros s i Hi. by destruct (wf_index _ _ _ _ _ _ HW s i Hi) as [_ ?].
Qed.


(** *** The counters *)

Local Abbreviation counters_ok' := (counters_ok (State := State) (Action := Action) (OL := OL)).

Lemma closed_count_app (F : list (Frame State Action)) f :
  closed_count (F ++ [f]) = (closed_count F + (if closed f then 1 else 0))%nat.
Proof.
  rw /closed_count. induction F as [|f0 F IH]; simpl.
  - rw filter_cons filter_nil. by destruct (closed f).
  - rw !filter_cons. destruct (decide (closed f0 = true)); simpl; lia.
Qed.

Lemma closed_count_insert (F : list (Frame State Action)) : ∀ n f f',
  F !! n = Some f →
  (closed_count (<[n := f']> F) + (if closed f then 1 else 0) =
   closed_count F + (if closed f' then 1 else 0))%nat.
Proof.
  rw /closed_count. induction F as [|f0 F IH]; intros n f f' Hf; [done|].
  destruct n as [|n]; simpl in *.
  - injection Hf as ->. rw !filter_cons.
    destruct (closed f), (closed f'); simpl; lia.
  - specialize (IH n f f' Hf). rw !filter_cons.
    destruct (decide (closed f0 = true)); simpl; lia.
Qed.

Lemma closed_count_le (F : list (Frame State Action)) :
  (closed_count F ≤ length F)%nat.
Proof. apply length_filter. Qed.

Lemma counters_initialize (ol : OL) (out : list Action) :
  counters_ok' (initialize initial evaluate ol out).
Proof. split; simpl; rw /closed_count /=; lia. Qed.

Lemma counters_process_action (st st' : SState) n a :
  counters_ok' st → process_action' n st a = Some st' → counters_ok' st'.
Proof.
  intros [C1 C2 C3 C4] Hp. process_action_split Hp.
  - injection Hp as <-. split; simpl.
    + rw length_app /=. lia.
    + destruct (is_dead_end _); simpl; lia.
    + rw closed_count_app. destruct (is_dead_end _); simpl; lia.
    + by destruct (is_dead_end _).
  - destruct (decide _); injection Hp as <-; [|done]. split; simpl.
    + rw length_insert. lia.
    + destruct (is_dead_end _); simpl; lia.
    + pose proof (closed_count_insert (frame_list st) _ succ_frame
        (relink a n (depth frame + 1) (g_value frame + cost a) succ_frame) Hsucc) as Hcc.
      simpl in Hcc. destruct (closed succ_frame); lia.
    + by destruct (is_dead_end _).
Qed.

Lemma counters_expand_actions n (actions : list Action) : ∀ (st st' : SState),
  counters_ok' st → expand_actions' n st actions = Some st' → counters_ok' st'.
Proof.
  induction actions as [|a rest IH]; intros st st' HC Hx; simpl in Hx.
  - by simplify_eq.
  - destruct (process_action' n st a) as [st1|] eqn:Hp; [|done].
    eapply IH; [|done]. by eapply counters_process_action.
Qed.

Lemma counters_accept (st : SState) n ol' fn :
  counters_ok' st → frame_list st !! n = Some fn → closed fn = false →
  let st_a := accept n fn (popped n ol' st) in
  evaluated st_a = (Z.of_nat (length (frame_list st_a)) - 1)%Z ∧
  (generated st_a + 1)%Z = Z.of_nat (length (inserted_handles (events st_a))) ∧
  expanded st_a = expanded st ∧
  (expanded st_a + 2 ≤ Z.of_nat (closed_count (frame_list st_a)))%Z ∧
  (expanded st_a + 1 ≤ Z.of_nat (length (popped_handles (events st_a))))%Z.
Proof.
  intros [C1 C2 C3 C4] Hfn Hc.
  pose proof (closed_count_insert (frame_list st) n fn (set_closed true fn) Hfn) as Hcc.
  rw Hc /= in Hcc.
  rw /accept. destruct (decide _); simpl; rw length_insert; split_and!; try done; lia.
Qed.

Lemma counters_iteration (fuel : nat) (st st' : SState) :
  counters_ok' st → step_state (iteration' fuel st) = Some st' → counters_ok' st'.
Proof.
  intros HC. rw /iteration.
  destruct (ol_pop (open_list st)) as [[n ol']|]; [|done].
  change (frame_list (popped n ol' st)) with (frame_list st).
  destruct (frame_list st !! n) as [fn|] eqn:Hfn; [|done].
  destruct (closed fn) eqn:Hc.
  { intros [= <-]. destruct HC as [C1 C2 C3 C4]. split; simpl; try done. lia. }
  destruct (counters_accept st n ol' fn HC Hfn Hc) as (A1 & A2 & A3 & A4 & A5).
  pose proof (proj1 (co_expanded _ HC)) as Hpos.
  have HCa : counters_ok' (accept n fn (popped n ol' st)).
  { split; [done..|lia|lia]. }
  destruct (should_abort _); [by intros [= <-]|].
  destruct (state fn) as [s|]; [|done].
  destruct (goal s).
  - destruct (reconstruct _ _ _ _); simpl; intros [= <-]. by destruct HCa.
  - destruct (expand_actions' _ _ _) as [st1|] eqn:Hx; simpl; intros [= <-].
    eapply counters_expand_actions; [|exact Hx]. split; simpl; [done..|lia|lia].
Qed.

Lemma counters_search_loop (fuel : nat) : ∀ (st st' : SState) r,
  counters_ok' st → search_loop' fuel st = Returned r st' → counters_ok' st'.
Proof.
  induction fuel as [|fuel IH]; intros st st' r HC; simpl.
  - destruct (decide _); [done|]. by intros [= <- <-].
  - destruct (decide _); [|by intros [= <- <-]].
    pose proof (counters_iteration fuel st) as Hit.
    destruct (iteration' fuel st) as [st1|o].
    + apply IH. by apply Hit.
    + intros ->. by apply Hit.
Qed.

Lemma counters_plan (fuel : nat) (ol : OL) (out : list Action) r (st : SState) :
  plan' fuel ol out = Returned r st → counters_ok' st.
Proof.
  rw /plan. destruct (decide _); [done|].
  apply counters_search_loop, counters_initialize.
Qed.

(** X3: whenever [plan] returns, [evaluated] is the number of frames
    other than the dummy (the heuristic is evaluated exactly once for each
    state recorded), [generated] is the number of insertions into the open
    list other than that of the initial state, and [expanded] is at most
    [evaluated] and at most the number of pops. *)
Theorem counters_meaning (fuel : nat) (ol : OL) (out : list Action)
    (r : SearchResult) (st : SState) :
  plan initial goal applicable apply cost evaluate is_dead_end should_abort fuel ol out
  = Returned r st →
  evaluated st = (Z.of_nat (length (frame_list st)) - 1)%Z ∧
  (generated st + 1)%Z = Z.of_nat (length (inserted_handles (events st))) ∧
  (0 ≤ expanded st ≤ evaluated st)%Z ∧
  (expanded st ≤ Z.of_nat (length (popped_handles (events st))))%Z.
Proof.
  intros Hplan. destruct (counters_plan _ _ _ _ _ Hplan) as [C1 C2 [C3 C3'] C4].
  pose proof (closed_count_le (frame_list st)). split_and!; [done..|lia|lia|done].
Qed.



(** *** The open list and the frames *)

Local Abbreviation accepted' :=
  (accepted (State := State) (Action := Action) is_dead_end).
Local Abbreviation Live' := (Live (OL := OL) goal applicable apply is_dead_end).
Local Abbreviation frames_extend' :=
  (frames_extend (State := State) (Action := Action) is_dead_end).
Local Abbreviation reach' := (reach initial applicable apply evaluate is_dead_end).
Local Abbreviation expandable' := (expandable initial evaluate is_dead_end).

Lemma Live_initialize (ol : OL) (out : list Action) :
  ol_size ol = 0%nat → Live' req_all (initialize initial evaluate ol out).
Proof.
  intros Hsz. pose proof (ol_entries_empty _ Hsz) as He.
  pose proof (ol_insert_empty ol 1%nat 0 He) as Hins.
  have Hfr : ∀ i (f : Frame State Action), (1 ≤ i)%nat →
      frame_list (initialize initial evaluate ol out) !! i = Some f →
      i = 1%nat ∧ f = mkFrame (Some initial) None (-1) 0 0 (evaluate initial) false.
  { intros [|[|i]] f Hi Hf; simpl in Hf; [lia|by simplify_eq|done]. }
  split; simpl.
  - intros i p Hin. rw Hins in Hin. apply list_elem_of_singleton in Hin as [= -> ->].
    split; [done|]. by eexists.
  - intros i f Hi Hf Hc. destruct (Hfr i f Hi Hf) as [-> ->]. exists 0.
    rw Hins. by apply list_elem_of_singleton.
  - intros i f s a Hi Hf [Hc _]. by destruct (Hfr i f Hi Hf) as [-> ->].
  - intros i f s Hi Hf [Hc _]. by destruct (Hfr i f Hi Hf) as [-> ->].
  - intros i f Hi Hne Hf. by destruct (Hfr i f Hi Hf) as [-> ->].
Qed.

(** A step that keeps the old frames (state, heuristic value and closed
    flag), keeps the old entries and the old keys of the state index, and
    queues every new frame that is open. *)
Lemma Live_step req req' (st st' : SState) :
  frames_extend' (frame_list st) (frame_list st') →
  (2 ≤ length (frame_list st))%nat →
  (∀ s, is_Some (state_indices st !! s) → is_Some (state_indices st' !! s)) →
  (∀ i p, (i, p) ∈ ol_entries (open_list st) → (i, p) ∈ ol_entries (open_list st')) →
  (∀ i p, (i, p) ∈ ol_entries (open_list st') →
     (i, p) ∈ ol_entries (open_list st) ∨
     ((1 ≤ i)%nat ∧ is_Some (frame_list st' !! i))) →
  (∀ i f', (length (frame_list st) ≤ i)%nat → frame_list st' !! i = Some f' →
     closed f' = false → ∃ p, (i, p) ∈ ol_entries (open_list st')) →
  (∀ i f s b, frame_list st !! i = Some f → state f = Some s → b ∈ applicable s →
     req' i b → req i b ∨ is_Some (state_indices st' !! apply b s)) →
  Live' req st → Live' req' st'.
Proof.
  intros (Hlen & Hold & Hnew) H2 Hidx Hmono Hent Hopen Hreq [L1 L2 L3 L4 L5].
  have Hback : ∀ i f', frame_list st' !! i = Some f' →
      (∃ f, frame_list st !! i = Some f ∧ closed f' = closed f ∧
         h_value f' = h_value f ∧ state f' = state f)
      ∨ ((length (frame_list st) ≤ i)%nat ∧ closed f' = is_dead_end (h_value f')).
  { intros i f' Hf'. destruct (frame_list st !! i) as [f|] eqn:Hf.
    - left. destruct (Hold i f Hf) as (f'' & Hf'' & ? & ? & ?).
      rw Hf' in Hf''. injection Hf'' as <-. by exists f.
    - right. apply lookup_ge_None in Hf. split; [done|]. by eapply Hnew. }
  split.
  - intros i p Hin. destruct (Hent i p Hin) as [Ho|?]; [|done].
    destruct (L1 i p Ho) as [Hi [f Hf]]. split; [done|].
    destruct (Hold i f Hf) as (f' & Hf' & _). by exists f'.
  - intros i f' Hi Hf' Hc. destruct (Hback i f' Hf') as [(f & Hf & Hcf & _)|[Hge _]].
    + destruct (L2 i f Hi Hf) as [p Hp]; [congruence|]. exists p. by apply Hmono.
    + by eapply Hopen.
  - intros i f' s a Hi Hf' [Hc Hacc] Hs Ha Hr.
    destruct (Hback i f' Hf') as [(f & Hf & Hcf & Hhf & Hsf)|[Hge Hd]].
    + have Hsf' : state f = Some s by congruence.
      destruct (Hreq i f s a Hf Hsf' Ha Hr) as [Hr'|?]; [|done].
      apply Hidx. eapply (L3 i f s a); try done.
      split; [congruence|]. destruct Hacc; [by left|right; congruence].
    + exfalso. destruct Hacc as [->|Hnd]; [lia|congruence].
  - intros i f' s Hi Hf' [Hc Hacc] Hs.
    destruct (Hback i f' Hf') as [(f & Hf & Hcf & Hhf & Hsf)|[Hge Hd]].
    + eapply (L4 i f s); try done; [|congruence].
      split; [congruence|]. destruct Hacc; [by left|right; congruence].
    + exfalso. destruct Hacc as [->|Hnd]; [lia|congruence].
  - intros i f' Hi Hne Hf' Hd.
    destruct (Hback i f' Hf') as [(f & Hf & Hcf & Hhf & Hsf)|[Hge Hc]].
    + rw Hcf. apply (L5 i f); try done. congruence.
    + congruence.
Qed.

Lemma Live_process_action (st st' : SState) n processed a :
  WF' st → Live' (req_expanding n processed) st →
  process_action' n st a = Some st' →
  Live' (req_expanding n (processed ++ [a])) st'.
Proof.
  intros HW HL Hp.
  pose proof (process_action_frames _ _ _ _ _ _ _ _ Hp) as Hext.
  pose proof (wf_len _ _ _ _ _ _ HW) as H2.
  have Hreq : ∀ (idx : gmap State nat),
      (∀ frame s, frame_list st !! n = Some frame → state frame = Some s →
         is_Some (idx !! apply a s)) →
      ∀ i f s b, frame_list st !! i = Some f → state f = Some s → b ∈ applicable s →
        req_expanding n (processed ++ [a]) i b →
        req_expanding n processed i b ∨ is_Some (idx !! apply b s).
  { intros idx Hn i f s b Hf Hs Hb [Hne|Hin]; [left; by left|].
    apply elem_of_app in Hin as [Hin|Hin]; [left; by right|].
    apply list_elem_of_singleton in Hin as ->.
    destruct (decide (i = n)) as [->|Hne]; [right; by eapply Hn|left; by left]. }
  process_action_split Hp.
  - (* a state not seen before *)
    injection Hp as <-. simpl in Hext.
    eapply (Live_step (req_expanding n processed)); [exact Hext|done|..|exact HL]; simpl.
    + intros s' Hs'. apply lookup_insert_is_Some.
      destruct (decide (apply a s = s')); auto.
    + intros i p Hin. destruct (is_dead_end _); [done|].
      rw ol_insert_entries. by right.
    + intros i p Hin. destruct (is_dead_end _); [by left|].
      rw ol_insert_entries in Hin. apply elem_of_cons in Hin as [[= -> ->]|Hin]; [|by left].
      right. split; [lia|]. eexists. by apply list_lookup_middle.
    + intros i f' Hge [Hf'|[_ Hs]]%lookup_app_Some.
      { apply lookup_lt_Some in Hf'. lia. }
      apply list_lookup_singleton_Some in Hs as [Hi0 <-]. simpl. intros Hd. rw Hd.
      exists (g_value frame + cost a + evaluate (apply a s)).
      have -> : i = length (frame_list st) by lia.
      rw ol_insert_entries. by left.
    + apply Hreq. intros frame' s0 Hf0 Hs0. rw Hframe in Hf0. injection Hf0 as <-.
      rw Hstate in Hs0. injection Hs0 as <-. rw lookup_insert_eq. by eexists.
  - (* a state seen before *)
    have Hsome : ∀ frame' s0, frame_list st !! n = Some frame' → state frame' = Some s0 →
        is_Some (state_indices st !! apply a s0).
    { intros frame' s0 Hf0 Hs0. rw Hframe in Hf0. injection Hf0 as <-.
      rw Hstate in Hs0. injection Hs0 as <-.
      revert Hseen. destruct (state_indices st !! apply a s); [by eexists|done]. }
    destruct (decide _) as [Hlt|Hge]; injection Hp as <-.
    + simpl in Hext.
      eapply (Live_step (req_expanding n processed)); [exact Hext|done|..|exact HL]; simpl.
      * done.
      * intros i p Hin. destruct (is_dead_end _); [done|].
        rw ol_insert_entries. by right.
      * intros i p Hin. destruct (is_dead_end _); [by left|].
        rw ol_insert_entries in Hin.
        apply elem_of_cons in Hin as [[= -> ->]|Hin]; [|by left].
        right. split; [lia|]. apply lookup_lt_is_Some. rw length_insert.
        by eapply lookup_lt_Some.
      * intros i f' Hge Hf'. apply lookup_lt_Some in Hf'. rw length_insert in Hf'. lia.
      * by apply Hreq.
    + eapply (Live_step (req_expanding n processed)); [exact Hext|done|..|exact HL].
      * done.
      * done.
      * intros i p Hin. by left.
      * intros i f' Hge' Hf'. apply lookup_lt_Some in Hf'. lia.
      * by apply Hreq.
Qed.

Lemma Live_expand_actions n (actions : list Action) : ∀ (st st' : SState) processed,
  WF' st → Live' (req_expanding n processed) st →
  (∀ fn sn a, frame_list st !! n = Some fn → state fn = Some sn →
     a ∈ actions → a ∈ applicable sn) →
  expand_actions' n st actions = Some st' →
  Live' (req_expanding n (processed ++ actions)) st'.
Proof.
  induction actions as [|a rest IH]; intros st st' processed HW HL Happ Hx; simpl in Hx.
  - injection Hx as <-. by rw app_nil_r.
  - destruct (process_action' n st a) as [st1|] eqn:Hp; [|done].
    replace (processed ++ a :: rest) with ((processed ++ [a]) ++ rest)
      by (by rw -app_assoc).
    apply (IH st1 st'); [| | |done].
    + eapply WF_process_action; [done| |done].
      intros fn sn Hfn Hsn. eapply Happ; [done..|by left].
    + by eapply Live_process_action.
    + intros fn sn b Hfn Hsn Hb.
      destruct (process_action_cases _ _ _ _ _ _ _ _ Hp) as (f0 & s0 & Hf0 & Hs0 & _).
      destruct (process_action_index_frame _ _ _ _ _ Hp Hf0) as (f' & Hf' & Hs').
      rw Hfn in Hf'. injection Hf' as <-. eapply (Happ f0 sn); [done|congruence|by right].
Qed.

Lemma Live_popped_closed (st st' : SState) n p fn :
  Live' req_all st →
  ol_entries (open_list st) ≡ₚ (n, p) :: ol_entries (open_list st') →
  frame_list st' = frame_list st → state_indices st' = state_indices st →
  frame_list st !! n = Some fn → closed fn = true →
  Live' req_all st'.
Proof.
  intros [L1 L2 L3 L4 L5] Hperm HF Hidx Hfn Hc. split; rw ?HF ?Hidx //.
  - intros i q Hin. apply (L1 i q). rw Hperm. by right.
  - intros i f Hi Hf Hcf. destruct (L2 i f Hi Hf Hcf) as [q Hin].
    exists q. rw Hperm in Hin.
    apply elem_of_cons in Hin as [[= -> ->]|Hin]; [congruence|done].
Qed.

Lemma Live_accept (st st1 : SState) n p fn sn :
  Live' req_all st →
  ol_entries (open_list st) ≡ₚ (n, p) :: ol_entries (open_list st1) →
  frame_list st !! n = Some fn → closed fn = false → state fn = Some sn →
  goal sn = false →
  frame_list st1 = <[n := set_closed true fn]> (frame_list st) →
  state_indices st1 = state_indices st →
  Live' (req_expanding n []) st1.
Proof.
  intros [L1 L2 L3 L4 L5] Hperm Hfn Hc Hsn Hg HF Hidx.
  have Hlook : ∀ i f', frame_list st1 !! i = Some f' →
      (i = n ∧ f' = set_closed true fn) ∨ (i ≠ n ∧ frame_list st !! i = Some f').
  { intros i f'. rw HF. intros [(-> & <- & _)|[? ?]]%list_lookup_insert_Some; auto. }
  split.
  - intros i q Hin. destruct (L1 i q) as [Hi Hs]; [rw Hperm; by right|].
    split; [done|]. rw HF. apply lookup_lt_is_Some. rw length_insert.
    by apply lookup_lt_is_Some.
  - intros i f' Hi Hf' Hcf. destruct (Hlook i f' Hf') as [[-> ->]|[Hne Hf]]; [done|].
    destruct (L2 i f' Hi Hf Hcf) as [q Hq]. exists q. rw Hperm in Hq.
    apply elem_of_cons in Hq as [[= -> ->]|Hq]; done.
  - intros i f' s a Hi Hf' Hacc Hs Ha [Hne|Hin]; [|by apply elem_of_nil in Hin].
    destruct (Hlook i f' Hf') as [[-> ->]|[_ Hf]]; [done|]. rw Hidx.
    by eapply (L3 i f' s a).
  - intros i f' s Hi Hf' Hacc Hs. destruct (Hlook i f' Hf') as [[-> ->]|[_ Hf]].
    + simpl in Hs. congruence.
    + by eapply L4.
  - intros i f' Hi Hne Hf' Hd. destruct (Hlook i f' Hf') as [[-> ->]|[_ Hf]]; [done|].
    by eapply L5.
Qed.

Lemma Live_expanded (st : SState) n fn sn :
  Live' (req_expanding n (applicable sn)) st →
  frame_list st !! n = Some fn → state fn = Some sn → Live' req_all st.
Proof.
  intros [L1 L2 L3 L4 L5] Hfn Hsn. split; try done.
  intros i f s a Hi Hf Hacc Hs Ha _. eapply L3; try done.
  destruct (decide (i = n)) as [->|Hne]; [right|by left].
  rw Hfn in Hf. injection Hf as <-. rw Hsn in Hs. by injection Hs as <-.
Qed.

Lemma Live_iteration (fuel : nat) (st st' : SState) :
  WF' st → Live' req_all st → (0 < ol_size (open_list st))%nat →
  iteration' fuel st = Continue st' → Live' req_all st'.
Proof.
  intros HW HL Hsz.
  destruct (ol_pop_entries _ Hsz) as (n & p & ol' & Hpop & Hperm & _).
  rw /iteration Hpop. change (frame_list (popped n ol' st)) with (frame_list st).
  destruct (frame_list st !! n) as [fn|] eqn:Hfn; [|done].
  destruct (closed fn) eqn:Hc.
  { intros [= <-]. by eapply (Live_popped_closed st _ n p fn). }
  destruct (should_abort _); [done|].
  destruct (state fn) as [s|] eqn:Hs; [|done].
  destruct (goal s) eqn:Hg.
  { by destruct (reconstruct _ _ _ _). }
  destruct (expand_actions' _ _ _) as [st1|] eqn:Hx; [|done]. intros [= <-].
  set (st_a := count_expansion (accept n fn (popped n ol' st))) in *.
  have Hlt : (n < length (frame_list st))%nat by eapply lookup_lt_Some.
  have HFa : frame_list st_a = <[n := set_closed true fn]> (frame_list st).
  { by rw /st_a /= accept_frame_list. }
  have HIa : state_indices st_a = state_indices st.
  { by rw /st_a /= accept_state_indices. }
  have HWa : WF' st_a.
  { apply (WF_ext (accept n fn (popped n ol' st))); [done..|].
    eapply WF_accept; [by apply (WF_ext st)|done..]. }
  have HLa : Live' (req_expanding n []) st_a.
  { eapply (Live_accept st st_a n p fn s); try done.
    by rw /st_a /= accept_open_list. }
  have Hfa : frame_list st_a !! n = Some (set_closed true fn).
  { rw HFa. by apply list_lookup_insert_eq. }
  have HL1 : Live' (req_expanding n ([] ++ applicable s)) st1.
  { eapply (Live_expand_actions n (applicable s) st_a st1 []); [done..| |done].
    intros fn' sn' a. rw Hfa. intros [= <-]. simpl. congruence. }
  destruct (expand_actions_frames _ _ _ _ _ _ _ _ Hx) as (_ & Hold & _).
  destruct (Hold n _ Hfa) as (fn' & Hfn' & _ & _ & Hsn').
  eapply Live_expanded; [exact HL1|exact Hfn'|]. by rw Hsn'.
Qed.

(** *** No access out of range *)

Lemma process_action_total (st : SState) n a fn sn :
  WF' st → frame_list st !! n = Some fn → state fn = Some sn →
  is_Some (process_action' n st a).
Proof.
  intros HW Hfn Hsn.
  destruct (state_indices st !! apply a sn) as [j|] eqn:Hj.
  - destruct (wf_index _ _ _ _ _ _ HW _ _ Hj) as (Hj1 & fj & Hfj & _).
    have Hd : default 0%nat (state_indices st !! apply a sn) = j by rw Hj.
    have Hj0 : j ≠ 0%nat by lia.
    rw (process_action_seen apply cost evaluate is_dead_end n st a fn sn j fj
          Hfn Hsn Hd Hj0 Hfj).
    cbv zeta. destruct (decide _); by eexists.
  - have Hd : default 0%nat (state_indices st !! apply a sn) = 0%nat by rw Hj.
    rw (process_action_unseen apply cost evaluate is_dead_end n st a fn sn Hfn Hsn Hd).
    by eexists.
Qed.

Lemma expand_actions_total n (actions : list Action) : ∀ (st : SState) fn sn,
  WF' st → frame_list st !! n = Some fn → state fn = Some sn →
  (∀ a, a ∈ actions → a ∈ applicable sn) →
  is_Some (expand_actions' n st actions).
Proof.
  induction actions as [|a rest IH]; intros st fn sn HW Hfn Hsn Happ; simpl.
  - by eexists.
  - destruct (process_action_total st n a fn sn HW Hfn Hsn) as [st1 Hp]. rw Hp.
    destruct (process_action_index_frame _ _ _ _ _ Hp Hfn) as (fn' & Hfn' & Hsn').
    apply (IH st1 fn' sn).
    + eapply WF_process_action; [done| |done].
      intros f0 s0 Hf0 Hs0. rw Hfn in Hf0. injection Hf0 as <-.
      rw Hsn in Hs0. injection Hs0 as <-. apply Happ. by left.
    + done.
    + congruence.
    + intros b Hb. apply Happ. by right.
Qed.

(** [frame_list.at] does not throw: every predecessor index met on the
    walk is the handle of a frame. *)
Lemma reconstruct_in_range (st : SState) (fuel : nat) : ∀ f out i,
  WF' st → (1 ≤ i)%nat → frame_list st !! i = Some f →
  reconstruct fuel (frame_list st) f out ≠ ReconOutOfRange.
Proof.
  induction fuel as [|fuel IH]; intros f out i HW Hi Hf; simpl.
  - by destruct (predecessor_action f).
  - destruct (predecessor_action f) as [a|] eqn:Hpa; [|done].
    destruct (wf_frames _ _ _ _ _ _ HW i f Hi Hf) as (s & _ & _ & _ & Hl).
    destruct Hl as [[Hnone _]|(a' & j & fj & sj & _ & Hpi & Hj & Hfj & _)];
      [congruence|].
    rw /frame_at Hpi decide_True; [|lia]. rw Nat2Z.id Hfj. by eapply IH.
Qed.

Lemma iteration_not_unsolvable (fuel : nat) (st st' : SState) r :
  iteration' fuel st = Stop (Returned r st') → r ≠ UNSOLVABLE.
Proof.
  rw /iteration. destruct (ol_pop (open_list st)) as [[n ol']|]; [|done].
  destruct (frame_list _ !! n) as [fn|]; [|done].
  destruct (closed fn); [done|].
  destruct (should_abort _); [by intros [= <- <-]|].
  destruct (state fn) as [s|]; [|done].
  destruct (goal s).
  - by destruct (reconstruct _ _ _ _); intros [= <- <-].
  - by destruct (expand_actions' _ _ _).
Qed.

Lemma iteration_safe (fuel : nat) (st : SState) :
  WF' st → Live' req_all st → (0 < ol_size (open_list st))%nat →
  iteration' fuel st ≠ Stop Undefined ∧ ∀ what, iteration' fuel st ≠ Stop (Threw what).
Proof.
  intros HW HL Hsz.
  destruct (ol_pop_entries _ Hsz) as (n & p & ol' & Hpop & Hperm & _).
  destruct (lv_entries _ _ _ _ _ _ HL n p) as [Hn [fn Hfn]]; [rw Hperm; by left|].
  destruct (wf_frames _ _ _ _ _ _ HW n fn Hn Hfn) as (s & Hs & _).
  rw /iteration Hpop. change (frame_list (popped n ol' st)) with (frame_list st).
  rw Hfn. destruct (closed fn) eqn:Hc; [done|].
  destruct (should_abort _); [done|]. rw Hs.
  have HWa : WF' (accept n fn (popped n ol' st)).
  { eapply WF_accept; [by apply (WF_ext st)|done..]. }
  have Hlt : (n < length (frame_list st))%nat by eapply lookup_lt_Some.
  have Hfa : frame_list (accept n fn (popped n ol' st)) !! n = Some (set_closed true fn).
  { rw accept_frame_list. by apply list_lookup_insert_eq. }
  destruct (goal s).
  - pose proof (reconstruct_in_range _ fuel _ [] n HWa Hn Hfa) as Hr.
    by destruct (reconstruct _ _ _ _).
  - destruct (expand_actions_total n (applicable s)
                (count_expansion (accept n fn (popped n ol' st)))
                (set_closed true fn) s) as [st1 Hx]; try done.
    + by apply (WF_ext (accept n fn (popped n ol' st))).
    + by rw Hx.
Qed.

Lemma search_loop_safe (fuel : nat) : ∀ (st : SState),
  WF' st → Live' req_all st →
  search_loop' fuel st ≠ Undefined ∧ ∀ what, search_loop' fuel st ≠ Threw what.
Proof.
  induction fuel as [|fuel IH]; intros st HW HL; simpl.
  - by destruct (decide _).
  - destruct (decide _) as [Hsz|Hsz]; [|done].
    pose proof (WF_iteration fuel st) as HWi.
    pose proof (Live_iteration fuel st) as HLi.
    destruct (iteration_safe fuel st HW HL Hsz) as [Hu Ht].
    destruct (iteration' fuel st) as [st1|o].
    + apply IH; [by apply HWi|by apply HLi].
    + split; [congruence|]. intros what ->. by eapply Ht.
Qed.

Lemma search_loop_unsolvable (fuel : nat) : ∀ (st st' : SState),
  WF' st → Live' req_all st → search_loop' fuel st = Returned UNSOLVABLE st' →
  WF' st' ∧ Live' req_all st' ∧ ol_size (open_list st') = 0%nat.
Proof.
  induction fuel as [|fuel IH]; intros st st' HW HL; simpl.
  - destruct (decide _); [done|]. intros [= <-]. split_and!; [done..|lia].
  - destruct (decide _) as [Hsz|Hsz]; [|intros [= <-]; split_and!; [done..|lia]].
    pose proof (WF_iteration fuel st) as HWi.
    pose proof (Live_iteration fuel st) as HLi.
    pose proof (iteration_not_unsolvable fuel st) as Hnu.
    destruct (iteration' fuel st) as [st1|o].
    + apply IH; [by apply HWi|by apply HLi].
    + intros ->. by destruct (Hnu st' UNSOLVABLE).
Qed.

(** X4: with an open list that meets its contract and is empty at entry,
    [plan] stays within its data: it never pops an empty open list, never
    indexes [frame_list] out of range, never reads the null state of the
    dummy frame, and [frame_list.at] never throws.  Whatever the
    heuristic, the costs and the abort flag, a call can only return. *)
Theorem plan_stays_in_bounds (fuel : nat) (ol : OL) (out : list Action) :
  ol_size ol = 0%nat →
  plan initial goal applicable apply cost evaluate is_dead_end should_abort fuel ol out
    ≠ Undefined ∧
  ∀ what,
    plan initial goal applicable apply cost evaluate is_dead_end should_abort fuel ol out
    ≠ Threw what.
Proof.
  intros Hsz. rw /plan decide_False; [|lia].
  apply search_loop_safe; [apply WF_initialize|by apply Live_initialize].
Qed.

(** *** What [UNSOLVABLE] means *)

(** When every frame is closed, every state that can be reached through
    expandable states has a frame, and that frame was accepted if the
    state is expandable. *)
Lemma exhausted_reach (st : SState) acts t :
  WF' st → Live' req_all st → ol_entries (open_list st) = [] →
  reach' acts t →
  ∃ i f, (1 ≤ i)%nat ∧ frame_list st !! i = Some f ∧ state f = Some t ∧
    closed f = true ∧ (expandable' t → accepted' i f).
Proof.
  intros HW HL He.
  have Hframe : ∀ s i, state_indices st !! s = Some i →
      ∃ f, (1 ≤ i)%nat ∧ frame_list st !! i = Some f ∧ state f = Some s ∧
        closed f = true ∧ (expandable' s → accepted' i f).
  { intros s i Hi. destruct (wf_index _ _ _ _ _ _ HW s i Hi) as (Hi1 & f & Hf & Hs).
    have Hc : closed f = true.
    { destruct (closed f) eqn:Hc; [done|].
      destruct (lv_open _ _ _ _ _ _ HL i f Hi1 Hf Hc) as [p Hp].
      rw He in Hp. by apply elem_of_nil in Hp. }
    exists f. split_and!; try done. intros [->|Hnd]; (split; [done|]).
    - left. pose proof (wf_initial _ _ _ _ _ _ HW). congruence.
    - right. destruct (wf_frames _ _ _ _ _ _ HW i f Hi1 Hf) as (s' & Hs' & _ & Hh & _).
      congruence. }
  induction 1 as [|acts s a Hr IH Hex Ha].
  - destruct (Hframe initial 1%nat) as (f & ?); [by apply (wf_initial _ _ _ _ _ _ HW)|].
    by exists 1%nat, f.
  - destruct IH as (i & f & Hi & Hf & Hs & Hc & Hacc).
    destruct (lv_closure _ _ _ _ _ _ HL i f s a Hi Hf (Hacc Hex) Hs Ha I) as [j Hj].
    destruct (Hframe (apply a s) j Hj) as (fj & ?). by exists j, fj.
Qed.

(** X5: with an open list that meets its contract and is empty at entry,
    [UNSOLVABLE] means that the search is exhausted: the open list is
    empty, every frame is closed, every state that can be reached from the
    initial state through states that are not dead ends has a frame, and
    none of these states satisfies the goal (dead ends other than the
    initial state are not looked at), whatever the heuristic. *)
Theorem unsolvable_means_exhausted (fuel : nat) (ol : OL) (out : list Action)
    (st : SState) :
  ol_size ol = 0%nat →
  plan initial goal applicable apply cost evaluate is_dead_end should_abort fuel ol out
  = Returned UNSOLVABLE st →
  ol_size (open_list st) = 0%nat ∧
  (∀ i f, frame_list st !! i = Some f → closed f = true) ∧
  (∀ acts t, reach initial applicable apply evaluate is_dead_end acts t →
     is_Some (state_indices st !! t) ∧
     (expandable initial evaluate is_dead_end t → goal t = false)).
Proof.
  intros Hsz. rw /plan decide_False; [|lia]. intros Hl.
  destruct (search_loop_unsolvable fuel _ st (WF_initialize ol out)
              (Live_initialize ol out Hsz) Hl) as (HW & HL & Hsz').
  pose proof (ol_entries_empty _ Hsz') as He.
  split_and!; [done| |].
  - intros [|i] f Hf.
    + destruct (wf_dummy _ _ _ _ _ _ HW) as (f0 & Hf0 & _ & Hc0). congruence.
    + destruct (closed f) eqn:Hc; [done|].
      destruct (lv_open _ _ _ _ _ _ HL (S i) f ltac:(lia) Hf Hc) as [p Hp].
      rw He in Hp. by apply elem_of_nil in Hp.
  - intros acts t Hr.
    destruct (exhausted_reach st acts t HW HL He Hr) as (i & f & Hi & Hf & Hs & Hc & Hacc).
    destruct (wf_frames _ _ _ _ _ _ HW i f Hi Hf) as (s' & Hs' & Hix & _).
    split; [exists i; congruence|].
    intros Hex. exact (lv_nongoal _ _ _ _ _ _ HL i f t Hi Hf (Hacc Hex) Hs).
Qed.

(** *** Termination *)

Local Abbreviation same_link f f' :=
  (predecessor_action f' = predecessor_action f ∧
   predecessor_index f' = predecessor_index f).

Lemma pred_chain_reconstruct (F : list (Frame State Action)) f chain :
  pred_chain F f chain →
  ∀ fuel out, (length chain ≤ fuel)%nat →
    reconstruct fuel F f out = ReconDone (out ++ chain).
Proof.
  induction 1 as [f Hpa|f a g acts Hpa Hat Hc IH]; intros fuel out Hfuel.
  - destruct fuel; simpl; by rw Hpa app_nil_r.
  - destruct fuel as [|fuel]; simpl in *; [lia|].
    rw Hpa Hat IH; [|lia]. by rw -app_assoc.
Qed.

Lemma pred_chain_sim (F F' : list (Frame State Action))
    (R : Frame State Action → Frame State Action → Prop) :
  (∀ f f', R f f' → predecessor_action f' = predecessor_action f) →
  (∀ f f' a g, R f f' → predecessor_action f = Some a →
     frame_at F (predecessor_index f) = Some g →
     ∃ g', frame_at F' (predecessor_index f') = Some g' ∧ R g g') →
  ∀ f chain, pred_chain F f chain → ∀ f', R f f' → pred_chain F' f' chain.
Proof.
  intros Hact Hstep f chain.
  induction 1 as [f Hpa|f a g acts Hpa Hat Hc IH]; intros f' HR.
  - apply pred_chain_root. by rw (Hact _ _ HR).
  - destruct (Hstep f f' a g HR Hpa Hat) as (g' & Hat' & HR').
    eapply pred_chain_link; [by rw (Hact _ _ HR)|exact Hat'|by apply IH].
Qed.

(** A change of the frames that keeps every predecessor link keeps the
    chains. *)
Lemma pred_chain_same_links (F F' : list (Frame State Action)) f f' chain :
  (∀ i g, F !! i = Some g → ∃ g', F' !! i = Some g' ∧ same_link g g') →
  pred_chain F f chain → same_link f f' → pred_chain F' f' chain.
Proof.
  intros Hfw Hc HR.
  apply (pred_chain_sim F F' (λ g g', same_link g g')) with (f := f); try done.
  - by intros g g' [? _].
  - intros g g' a g0 [Hpa Hpi] _. rw /frame_at Hpi.
    destruct (decide _); [|done]. intros Hg0.
    destruct (Hfw _ _ Hg0) as (g0' & Hg0' & ?). by exists g0'.
Qed.

Lemma Chained_initialize (ol : OL) (out : list Action) :
  Chained (frame_list (initialize initial evaluate ol out)).
Proof.
  intros [|[|i]] f Hi Hf; simpl in Hf; [lia| |done].
  injection Hf as <-. exists []. by apply pred_chain_root.
Qed.

Lemma Chained_set_closed (F : list (Frame State Action)) n fn b :
  F !! n = Some fn → Chained F → Chained (<[n := set_closed b fn]> F).
Proof.
  intros Hfn HC i f' Hi Hf'.
  have Hfw : ∀ k g, F !! k = Some g →
      ∃ g', <[n := set_closed b fn]> F !! k = Some g' ∧ same_link g g'.
  { intros k g Hg. destruct (decide (k = n)) as [->|Hne].
    - rw Hfn in Hg. injection Hg as <-. exists (set_closed b fn).
      split; [|done]. apply list_lookup_insert_eq. by eapply lookup_lt_Some.
    - exists g. by rw list_lookup_insert_ne. }
  apply list_lookup_insert_Some in Hf' as [(-> & <- & _)|[Hne Hf]].
  - destruct (HC i fn Hi Hfn) as [chain Hc]. exists chain.
    by eapply pred_chain_same_links.
  - destruct (HC i f' Hi Hf) as [chain Hc]. exists chain.
    by eapply pred_chain_same_links.
Qed.

Section Termination.
Variable universe : list State.
Hypothesis Hfinite : ∀ acts s, path' initial acts s → s ∈ universe.
Hypothesis Hcost : ∀ a, 0 <= cost a.

Lemma Chained_process_action (st st' : SState) n a :
  WF' st → Chained (frame_list st) → process_action' n st a = Some st' →
  Chained (frame_list st').
Proof.
  intros HW HC Hp. process_action_split Hp.
  - (* a state not seen before: the new frame points to frame [n] *)
    pose proof (WF_frame_index _ _ _ _ HW Hframe Hstate) as Hn.
    injection Hp as <-. simpl. set (fnew := mkFrame _ _ _ _ _ _ _).
    have Hfw : ∀ k g, frame_list st !! k = Some g →
        ∃ g', (frame_list st ++ [fnew]) !! k = Some g' ∧ same_link g g'.
    { intros k g Hg. exists g. split; [|done].
      rw lookup_app_l //. by eapply lookup_lt_Some. }
    intros i f' Hi [Hf|[_ Hs]]%lookup_app_Some.
    + destruct (HC i f' Hi Hf) as [chain Hc]. exists chain.
      by eapply pred_chain_same_links.
    + apply list_lookup_singleton_Some in Hs as [_ <-].
      destruct (HC n frame Hn Hframe) as [chain Hc]. exists (a :: chain).
      eapply (pred_chain_link _ fnew a frame); [done| |by eapply pred_chain_same_links].
      rw /frame_at /= decide_True; [|lia]. rw Nat2Z.id lookup_app_l //.
      by eapply lookup_lt_Some.
  - (* a state seen before *)
    destruct (decide _) as [Hlt|Hge]; injection Hp as <-; [|done]. simpl.
    pose proof (WF_frame_index _ _ _ _ HW Hframe Hstate) as Hn.
    set (j := default 0%nat (state_indices st !! apply a s)) in *.
    set (fj' := relink _ _ _ _ _).
    pose proof (Hcost a) as Hca.
    (* the frames cheaper than the relinked frame keep their chains *)
    have Hlow : ∀ i f chain, (1 ≤ i)%nat → frame_list st !! i = Some f →
        g_value f < g_value succ_frame → pred_chain (frame_list st) f chain →
        pred_chain (<[j := fj']> (frame_list st)) f chain.
    { intros i f chain Hi Hf Hg Hc.
      apply (pred_chain_sim (frame_list st) _
               (λ g g', g' = g ∧ ∃ k, (1 ≤ k)%nat ∧ frame_list st !! k = Some g ∧
                          g_value g < g_value succ_frame)) with (f := f); try done.
      - by intros g g' [-> _].
      - intros g g' b g0 [-> (k & Hk & Hgk & Hlow)] Hpa Hat.
        destruct (wf_frames _ _ _ _ _ _ HW k g Hk Hgk) as (sg & _ & _ & _ & Hl).
        destruct Hl as [[Hnone _]|(b' & m & fm & sm & _ & Hpi & Hm & Hfm & _ & _ & _ & Hgm)];
          [congruence|].
        rw /frame_at Hpi decide_True in Hat; [|lia]. rw Nat2Z.id Hfm in Hat.
        injection Hat as <-. pose proof (Hcost b') as Hcb.
        have Hne : m ≠ j.
        { intros ->. rw Hsucc in Hfm. injection Hfm as <-. qc_lra. }
        exists fm. split.
        + rw /frame_at Hpi decide_True; [|lia]. by rw Nat2Z.id list_lookup_insert_ne.
        + split; [done|]. exists m. split_and!; [done..|]. qc_lra.
      - split; [done|]. by exists i. }
    have Hnj : n ≠ j.
    { intros ->. rw Hsucc in Hframe. injection Hframe as <-. qc_lra. }
    have Hjlt : (j < length (frame_list st))%nat by eapply lookup_lt_Some.
    have Hcj : ∃ chain, pred_chain (<[j := fj']> (frame_list st)) fj' chain.
    { destruct (HC n frame Hn Hframe) as [chain Hc]. exists (a :: chain).
      eapply (pred_chain_link _ fj' a frame); [done| |].
      - rw /frame_at /= decide_True; [|lia]. by rw Nat2Z.id list_lookup_insert_ne.
      - apply (Hlow n); try done. qc_lra. }
    (* every other frame reaches the relinked frame or never meets it *)
    have Hall : ∀ f chain, pred_chain (frame_list st) f chain →
        ∀ i, (1 ≤ i)%nat → frame_list st !! i = Some f → i ≠ j →
        ∃ chain', pred_chain (<[j := fj']> (frame_list st)) f chain'.
    { intros f chain.
      induction 1 as [f Hpa|f b g acts Hpa Hat Hc IH]; intros i Hi Hf Hne.
      - exists []. by apply pred_chain_root.
      - destruct (wf_frames _ _ _ _ _ _ HW i f Hi Hf) as (sg & _ & _ & _ & Hl).
        destruct Hl as [[Hnone _]|(b' & m & fm & sm & _ & Hpi & Hm & Hfm & _)];
          [congruence|].
        rw /frame_at Hpi decide_True in Hat; [|lia]. rw Nat2Z.id Hfm in Hat.
        injection Hat as <-.
        destruct (decide (m = j)) as [->|Hmj].
        + destruct Hcj as [cj Hcj]. exists (b :: cj).
          eapply (pred_chain_link _ f b fj'); [done| |done].
          rw /frame_at Hpi decide_True; [|lia]. rw Nat2Z.id.
          by apply list_lookup_insert_eq.
        + destruct (IH m Hm Hfm Hmj) as [cm Hcm]. exists (b :: cm).
          eapply (pred_chain_link _ f b fm); [done| |done].
          rw /frame_at Hpi decide_True; [|lia]. by rw Nat2Z.id list_lookup_insert_ne. }
    intros i f' Hi [(-> & <- & _)|[Hne Hf]]%list_lookup_insert_Some; [done|].
    destruct (HC i f' Hi Hf) as [chain Hc]. by eapply Hall.
Qed.

Lemma Chained_expand_actions n (actions : list Action) : ∀ (st st' : SState),
  WF' st → Chained (frame_list st) →
  (∀ fn sn a, frame_list st !! n = Some fn → state fn = Some sn →
     a ∈ actions → a ∈ applicable sn) →
  expand_actions' n st actions = Some st' → Chained (frame_list st').
Proof.
  induction actions as [|a rest IH]; intros st st' HW HC Happ Hx; simpl in Hx.
  - by injection Hx as <-.
  - destruct (process_action' n st a) as [st1|] eqn:Hp; [|done].
    apply (IH st1 st'); [| | |done].
    + eapply WF_process_action; [done| |done].
      intros fn sn Hfn Hsn. eapply Happ; [done..|by left].
    + by eapply Chained_process_action.
    + intros fn sn b Hfn Hsn Hb.
      destruct (process_action_cases _ _ _ _ _ _ _ _ Hp) as (f0 & s0 & Hf0 & Hs0 & _).
      destruct (process_action_index_frame _ _ _ _ _ Hp Hf0) as (f' & Hf' & Hs').
      rw Hfn in Hf'. injection Hf' as <-. eapply (Happ f0 sn); [done|congruence|by right].
Qed.

Lemma Chained_iteration (fuel : nat) (st st' : SState) :
  WF' st → Chained (frame_list st) → step_state (iteration' fuel st) = Some st' →
  Chained (frame_list st').
Proof.
  intros HW HC. rw /iteration.
  destruct (ol_pop (open_list st)) as [[n ol']|]; [|done].
  change (frame_list (popped n ol' st)) with (frame_list st).
  destruct (frame_list st !! n) as [fn|] eqn:Hfn; [|done].
  destruct (closed fn) eqn:Hc; [by intros [= <-]|].
  have HCa : Chained (frame_list (accept n fn (popped n ol' st))).
  { rw accept_frame_list. by apply Chained_set_closed. }
  destruct (should_abort _); [by intros [= <-]|].
  destruct (state fn) as [s|] eqn:Hs; [|done].
  destruct (goal s); [by destruct (reconstruct _ _ _ _); intros [= <-]|].
  destruct (expand_actions' _ _ _) as [st1|] eqn:Hx; [|done]. intros [= <-].
  have Hlt : (n < length (frame_list st))%nat by eapply lookup_lt_Some.
  eapply (Chained_expand_actions n (applicable s)); [| | |exact Hx].
  - apply (WF_ext (accept n fn (popped n ol' st))); [done..|].
    eapply WF_accept; [by apply (WF_ext st)|done..].
  - done.
  - intros fn' sn' a. rw /= accept_frame_list list_lookup_insert_eq //.
    intros [= <-]. simpl. congruence.
Qed.

Lemma Chained_search_loop (fuel : nat) : ∀ (st st' : SState) r,
  WF' st → Chained (frame_list st) → search_loop' fuel st = Returned r st' →
  Chained (frame_list st').
Proof.
  induction fuel as [|fuel IH]; intros st st' r HW HC; simpl.
  - destruct (decide _); [done|]. by intros [= <- <-].
  - destruct (decide _); [|by intros [= <- <-]].
    pose proof (WF_iteration fuel st) as HWi.
    pose proof (Chained_iteration fuel st) as HCi.
    destruct (iteration' fuel st) as [st1|o].
    + apply IH; [by apply HWi|by apply HCi].
    + intros ->. by apply HCi.
Qed.


(** A round that goes on closes a frame that was open, or only removes an
    entry from the open list. *)
Lemma closed_mono_step (st st1 : SState) :
  WF' st → WF' st1 →
  (∀ i f, frame_list st !! i = Some f →
     ∃ f', frame_list st1 !! i = Some f' ∧ state f' = state f ∧
       (closed f = true → closed f' = true)) →
  ∀ s, is_closed st s = true → is_closed st1 s = true.
Proof.
  intros HW HW1 Hfr. apply is_closed_mono.
  - intros s i Hi. destruct (wf_index _ _ _ _ _ _ HW s i Hi) as (Hi1 & f & Hf & Hs).
    destruct (Hfr i f Hf) as (f' & Hf' & Hs' & _).
    destruct (wf_frames _ _ _ _ _ _ HW1 i f' Hi1 Hf') as (s' & Hs1 & Hix & _).
    congruence.
  - intros i f Hf. destruct (Hfr i f Hf) as (f' & Hf' & _ & Hc). by exists f'.
Qed.

Lemma iteration_progress (st : SState) :
  WF' st → Live' req_all st → Chained (frame_list st) →
  (0 < ol_size (open_list st))%nat →
  (∃ st1, (∀ fuel, iteration' fuel st = Continue st1) ∧
     ((unclosed universe st1 < unclosed universe st)%nat ∨
      ((unclosed universe st1 ≤ unclosed universe st)%nat ∧
       (length (ol_entries (open_list st1)) <
        length (ol_entries (open_list st)))%nat)))
  ∨ (∃ fuel0, ∀ fuel, (fuel0 ≤ fuel)%nat →
       ∃ r st', iteration' fuel st = Stop (Returned r st')).
Proof.
  intros HW HL HC Hsz.
  destruct (ol_pop_entries _ Hsz) as (n & p & ol' & Hpop & Hperm & _).
  destruct (lv_entries _ _ _ _ _ _ HL n p) as [Hn [fn Hfn]]; [rw Hperm; by left|].
  destruct (wf_frames _ _ _ _ _ _ HW n fn Hn Hfn) as (sn & Hsn & Hidx & _).
  have Hlen : length (ol_entries (open_list st)) = S (length (ol_entries ol')).
  { by rw Hperm. }
  have Hlt : (n < length (frame_list st))%nat by eapply lookup_lt_Some.
  destruct (closed fn) eqn:Hc.
  { left. exists (popped n ol' st). split.
    - intros fuel. rw /iteration Hpop.
      change (frame_list (popped n ol' st)) with (frame_list st). by rw Hfn Hc.
    - right. split; [done|]. simpl. lia. }
  set (st_a := accept n fn (popped n ol' st)).
  have HWa : WF' st_a.
  { eapply WF_accept; [by apply (WF_ext st)|done..]. }
  have Hfa : frame_list st_a !! n = Some (set_closed true fn).
  { rw /st_a accept_frame_list. by apply list_lookup_insert_eq. }
  destruct (should_abort (events st_a)) eqn:Hab.
  { right. exists 0%nat. intros fuel _. exists ABORTED, st_a.
    rw /iteration Hpop. change (frame_list (popped n ol' st)) with (frame_list st).
    rw Hfn Hc. fold st_a. by rw Hab. }
  destruct (goal sn) eqn:Hg.
  { right.
    have HCa : Chained (frame_list st_a).
    { rw /st_a accept_frame_list. by apply Chained_set_closed. }
    destruct (HCa n _ Hn Hfa) as [chain Hchain].
    exists (length chain). intros fuel Hfuel.
    exists SOLVED, (set_out_plan (rev ([] ++ chain)) st_a).
    rw /iteration Hpop. change (frame_list (popped n ol' st)) with (frame_list st).
    rw Hfn Hc. fold st_a. rw Hab Hsn Hg.
    by rw (pred_chain_reconstruct _ _ _ Hchain fuel []). }
  left.
  destruct (expand_actions_total n (applicable sn) (count_expansion st_a)
              (set_closed true fn) sn) as [st1 Hx]; try done.
  { by apply (WF_ext st_a). }
  have Hit : ∀ fuel, iteration' fuel st = Continue st1.
  { intros fuel. rw /iteration Hpop.
    change (frame_list (popped n ol' st)) with (frame_list st).
    rw Hfn Hc. fold st_a. by rw Hab Hsn Hg Hx. }
  exists st1. split; [done|]. left.
  have HW1 : WF' st1.
  { apply (WF_iteration 0 st); [done|]. by rw Hit. }
  destruct (expand_actions_frames _ _ _ _ _ _ _ _ Hx) as (_ & Hold & _).
  simpl in Hold.
  have Hfr : ∀ i f, frame_list st !! i = Some f →
      ∃ f', frame_list st1 !! i = Some f' ∧ state f' = state f ∧
        (closed f = true → closed f' = true).
  { intros i f Hf. destruct (decide (i = n)) as [->|Hne].
    - rw Hfn in Hf. injection Hf as <-.
      destruct (Hold n _ Hfa) as (f' & Hf' & Hc' & _ & Hs'). exists f'.
      split_and!; [done|done|]. intros _. by rw Hc'.
    - destruct (Hold i f) as (f' & Hf' & Hc' & _ & Hs').
      { by rw /st_a accept_frame_list list_lookup_insert_ne. }
      exists f'. split_and!; [done..|congruence]. }
  apply (unclosed_lt universe st st1 sn).
  - by apply closed_mono_step.
  - destruct (wf_reach _ _ _ _ _ _ HW n fn sn Hn Hfn Hsn) as [acts Hacts].
    by eapply Hfinite.
  - by rw /is_closed Hidx Hfn.
  - destruct (Hold n _ Hfa) as (f' & Hf' & Hc' & _ & Hs').
    destruct (wf_frames _ _ _ _ _ _ HW1 n f' Hn Hf') as (s' & Hs1 & Hix & _).
    have -> : sn = s' by (simpl in Hs'; congruence).
    by rw /is_closed Hix Hf' Hc'.
Qed.

Lemma search_loop_returns (u : nat) : ∀ (k : nat) (st : SState),
  WF' st → Live' req_all st → Chained (frame_list st) →
  (unclosed universe st ≤ u)%nat →
  (length (ol_entries (open_list st)) ≤ k)%nat →
  ∃ fuel0, ∀ fuel, (fuel0 ≤ fuel)%nat →
    ∃ r st', search_loop' fuel st = Returned r st'.
Proof.
  induction u as [u IHu] using lt_wf_ind.
  induction k as [k IHk] using lt_wf_ind. intros st HW HL HC Hu Hk.
  destruct (decide (0 < ol_size (open_list st))%nat) as [Hsz|Hsz]; last first.
  { exists 0%nat. intros fuel _. exists UNSOLVABLE, st. apply search_loop_empty. lia. }
  destruct (iteration_progress st HW HL HC Hsz)
    as [(st1 & Hit & Hm)|(fuel0 & Hf0)].
  - have HW1 : WF' st1 by (apply (WF_iteration 0 st); [done|by rw Hit]).
    have HL1 : Live' req_all st1 by (by apply (Live_iteration 0 st)).
    have HC1 : Chained (frame_list st1).
    { apply (Chained_iteration 0 st); [done..|by rw Hit]. }
    have [fuel1 Hf1] : ∃ fuel1, ∀ fuel, (fuel1 ≤ fuel)%nat →
        ∃ r st', search_loop' fuel st1 = Returned r st'.
    { destruct Hm as [Hlt|[Hle Hlt]].
      - by apply (IHu (unclosed universe st1) ltac:(lia)
                    (length (ol_entries (open_list st1))) st1).
      - apply (IHk (length (ol_entries (open_list st1))) ltac:(lia) st1); try done. lia. }
    exists (S fuel1). intros [|fuel] Hfuel; [lia|].
    rw search_loop_S // Hit. apply Hf1. lia.
  - exists (S fuel0). intros [|fuel] Hfuel; [lia|].
    rw search_loop_S //. destruct (Hf0 fuel ltac:(lia)) as (r & st' & ->).
    by exists r, st'.
Qed.

(** X7: on a state space with finitely many states reachable from the
    initial state and action costs that are not negative, with an open
    list that meets its contract and is empty at entry, [plan] returns,
    whatever the heuristic, the dead-end test and the abort flag: the loop
    ends, and so does the walk along the predecessor links. *)
Theorem plan_returns (ol : OL) (out : list Action) :
  ol_size ol = 0%nat →
  ∃ fuel0, ∀ fuel, (fuel0 ≤ fuel)%nat →
    ∃ r st,
      plan initial goal applicable apply cost evaluate is_dead_end should_abort
           fuel ol out = Returned r st.
Proof.
  intros Hsz.
  destruct (search_loop_returns
              (unclosed universe (initialize initial evaluate ol out))
              (length (ol_entries (open_list (initialize initial evaluate ol out))))
              (initialize initial evaluate ol out)) as [fuel0 Hf0].
  - apply WF_initialize.
  - by apply Live_initialize.
  - apply Chained_initialize.
  - done.
  - done.
  - exists fuel0. intros fuel Hfuel. rw /plan decide_False; [|lia]. by apply Hf0.
Qed.


(** *** One frame for each reachable state *)

Lemma frames_bounded (st : SState) :
  WF' st → (length (frame_list st) ≤ length universe + 1)%nat.
Proof.
  intros HW.
  set (states := (λ f : Frame State Action, default initial (state f)) <$>
                   drop 1 (frame_list st)).
  have Hlook : ∀ i x, states !! i = Some x →
      ∃ f, frame_list st !! S i = Some f ∧ state f = Some x.
  { intros i x. rw /states list_lookup_fmap lookup_drop /=.
    destruct (frame_list st !! S i) as [f|] eqn:Hf; [|done]. simpl. intros [= <-].
    destruct (wf_frames _ _ _ _ _ _ HW (S i) f ltac:(lia) Hf) as (s & Hs & _).
    exists f. by rw Hs. }
  have Hnd : NoDup states.
  { apply NoDup_alt. intros i j x Hi Hj.
    destruct (Hlook i x Hi) as (f & Hf & Hs). destruct (Hlook j x Hj) as (f' & Hf' & Hs').
    destruct (wf_frames _ _ _ _ _ _ HW (S i) f ltac:(lia) Hf) as (s & Hs1 & Hix & _).
    destruct (wf_frames _ _ _ _ _ _ HW (S j) f' ltac:(lia) Hf') as (s' & Hs1' & Hix' & _).
    have Heq : Some (S i) = Some (S j) by congruence. injection Heq. lia. }
  have Hsub : states ⊆+ universe.
  { apply NoDup_submseteq; [done|]. intros x [i Hi]%list_elem_of_lookup.
    destruct (Hlook i x Hi) as (f & Hf & Hs).
    destruct (wf_reach _ _ _ _ _ _ HW (S i) f x ltac:(lia) Hf Hs) as [acts Hacts].
    by eapply Hfinite. }
  apply submseteq_length in Hsub. rw /states length_fmap length_drop in Hsub. lia.
Qed.

(** X8: on a state space with finitely many states reachable from the
    initial state, listed in [universe], the work of [plan] is bounded by
    the number of these states: there is at most one frame for each of
    them beside the dummy frame, the heuristic is evaluated at most once
    for each, and each is expanded at most once, whatever the heuristic
    and the costs. *)
Theorem work_is_bounded (fuel : nat) (ol : OL) (out : list Action)
    (r : SearchResult) (st : SState) :
  plan initial goal applicable apply cost evaluate is_dead_end should_abort fuel ol out
  = Returned r st →
  (length (frame_list st) ≤ length universe + 1)%nat ∧
  (evaluated st ≤ Z.of_nat (length universe))%Z ∧
  (expanded st ≤ Z.of_nat (length universe))%Z.
Proof.
  intros Hplan.
  pose proof (frames_bounded st (WF_plan _ _ _ _ _ Hplan)) as Hb.
  destruct (counters_plan _ _ _ _ _ Hplan) as [Hv _ [_ He] _].
  pose proof (closed_count_le (frame_list st)).
  split_and!; [done|lia|lia].
Qed.

End Termination.

(** *** How a call ends *)

Lemma iteration_result (fuel : nat) (st st' : SState) r :
  iteration' fuel st = Stop (Returned r st') →
  (r = ABORTED ∧ should_abort (events st') = true) ∨
  (r = SOLVED ∧ should_abort (events st') = false).
Proof.
  rw /iteration. destruct (ol_pop (open_list st)) as [[n ol']|]; [|done].
  destruct (frame_list _ !! n) as [fn|]; [|done].
  destruct (closed fn); [done|].
  destruct (should_abort _) eqn:Hab; [intros [= <- <-]; by left|].
  destruct (state fn) as [s|]; [|done].
  destruct (goal s).
  - destruct (reconstruct _ _ _ _); intros [= <- <-]. by right.
  - by destruct (expand_actions' _ _ _).
Qed.

Lemma search_loop_result (fuel : nat) : ∀ (st st' : SState) r,
  search_loop' fuel st = Returned r st' →
  match r with
  | ABORTED => should_abort (events st') = true
  | SOLVED => should_abort (events st') = false
  | UNSOLVABLE => ol_size (open_list st') = 0%nat
  end.
Proof.
  induction fuel as [|fuel IH]; intros st st' r; simpl.
  - destruct (decide _); [done|]. intros [= <- <-]. lia.
  - destruct (decide _); [|intros [= <- <-]; lia].
    pose proof (iteration_result fuel st) as Hit.
    destruct (iteration' fuel st) as [st1|o]; [by apply IH|].
    intros ->. by destruct (Hit st' r eq_refl) as [[-> ?]|[-> ?]].
Qed.

(** X9: the result tells why [plan] returned.  [ABORTED]: the abort flag
    was set at the check that follows the last pop.  [SOLVED]: the flag
    was not set at that check, which comes before the goal test, so that
    a request to abort wins over a goal state that was just popped.
    [UNSOLVABLE]: the open list reports size 0. *)
Theorem result_tells_why (fuel : nat) (ol : OL) (out : list Action)
    (r : SearchResult) (st : SState) :
  plan initial goal applicable apply cost evaluate is_dead_end should_abort fuel ol out
  = Returned r st →
  match r with
  | ABORTED => should_abort (events st) = true
  | SOLVED => should_abort (events st) = false
  | UNSOLVABLE => ol_size (open_list st) = 0%nat
  end.
Proof.
  rw /plan. destruct (decide _); [done|]. apply search_loop_result.
Qed.

(** X10: [plan] does not reset the abort flag.  When the flag is set
    before the call and stays set, [plan] still pops and closes the frame
    of the initial state, and then returns [ABORTED]: nothing is expanded,
    no successor is generated and [out_plan] is left as it was, even when
    the initial state satisfies the goal. *)
Theorem abort_before_call (fuel : nat) (ol : OL) (out : list Action) :
  ol_size ol = 0%nat → (∀ evs, should_abort evs = true) →
  ∃ st,
    plan initial goal applicable apply cost evaluate is_dead_end should_abort
         (S fuel) ol out = Returned ABORTED st ∧
    out_plan st = out ∧ expanded st = 0%Z ∧ generated st = 0%Z ∧
    popped_handles (events st) = [1%nat] ∧
    frame_list st =
      [dummy_frame; mkFrame (Some initial) None (-1) 0 0 (evaluate initial) true].
Proof.
  intros Hsz Hab. rw /plan decide_False; [|lia].
  pose proof (ol_insert_empty ol 1%nat 0 (ol_entries_empty _ Hsz)) as Hins.
  destruct (ol_pop_singleton _ _ _ Hins) as (Hpos & ol' & Hpop & _).
  rw search_loop_S // /iteration /= Hpop /= Hab.
  eexists. split; [done|]. rw /accept.
  by destruct (decide _).
Qed.

(** *** The statistics *)

Local Abbreviation stats_ok' := (stats_ok (State := State) (Action := Action) (OL := OL)).

Lemma stats_initialize (ol : OL) (out : list Action) :
  stats_ok' (initialize initial evaluate ol out).
Proof. split; simpl; [done|lia|by left]. Qed.

(** A step without snapshot that does not lower the counters. *)
Lemma stats_keep (st st' : SState) :
  statistics st' = statistics st →
  last_snapshot (events st') = last_snapshot (events st) →
  (expanded st ≤ expanded st')%Z → (generated st ≤ generated st')%Z →
  (evaluated st ≤ evaluated st')%Z →
  stats_ok' st → stats_ok' st'.
Proof.
  intros Hs Hl He Hg Hv [S1 S2 S3]. split; rw ?Hs ?Hl //; [lia|].
  destruct S3 as [?|(Hd & e & g & v & d & mg & mf & ? & ? & ? & ? & ? & ? & ? & ? & ?)];
    [by left|right].
  split; [done|]. exists e, g, v, d, mg, mf. split_and!; try done; lia.
Qed.

Lemma stats_process_action (st st' : SState) n a :
  stats_ok' st → process_action' n st a = Some st' → stats_ok' st'.
Proof.
  intros HS Hp. process_action_split Hp.
  - injection Hp as <-. destruct (is_dead_end (evaluate (apply a s)));
      apply (stats_keep st); simpl; try done; lia.
  - destruct (decide _); injection Hp as <-; [|done].
    destruct (is_dead_end (h_value succ_frame));
      apply (stats_keep st); simpl; try done; lia.
Qed.

Lemma stats_expand_actions n (actions : list Action) : ∀ (st st' : SState),
  stats_ok' st → expand_actions' n st actions = Some st' → stats_ok' st'.
Proof.
  induction actions as [|a rest IH]; intros st st' HS Hx; simpl in Hx.
  - by simplify_eq.
  - destruct (process_action' n st a) as [st1|] eqn:Hp; [|done].
    eapply IH; [|done]. by eapply stats_process_action.
Qed.

Lemma stats_accept (st : SState) n fn :
  stats_ok' st → stats_ok' (accept n fn st).
Proof.
  intros HS. rw /accept. destruct (decide _); [|by apply (stats_keep st)].
  destruct HS as [S1 (He & Hg & Hv) S3]. split; simpl.
  - done.
  - done.
  - right. split.
    + rw !dom_insert_L /stat_keys.
      destruct S3 as [Hn|[Hd _]].
      * rw Hn /= in S1. rw S1 dom_empty_L. set_solver.
      * rw Hd /stat_keys. set_solver.
    + exists (expanded st), (generated st), (evaluated st), (depth fn), (g_value fn),
        (g_value fn + h_value fn).
      split_and!; try (by simplify_map_eq); lia.
Qed.

Lemma stats_iteration (fuel : nat) (st st' : SState) :
  stats_ok' st → step_state (iteration' fuel st) = Some st' → stats_ok' st'.
Proof.
  intros HS. rw /iteration.
  destruct (ol_pop (open_list st)) as [[n ol']|]; [|done].
  have HSp : stats_ok' (popped n ol' st) by apply (stats_keep st).
  destruct (frame_list _ !! n) as [fn|]; [|done].
  destruct (closed fn); [by intros [= <-]|].
  have HSa : stats_ok' (accept n fn (popped n ol' st)) by apply stats_accept.
  destruct (should_abort _); [by intros [= <-]|].
  destruct (state fn) as [s|]; [|done].
  destruct (goal s).
  - destruct (reconstruct _ _ _ _); simpl; intros [= <-].
    by apply (stats_keep (accept n fn (popped n ol' st))).
  - destruct (expand_actions' _ _ _) as [st1|] eqn:Hx; simpl; intros [= <-].
    eapply stats_expand_actions; [|exact Hx].
    apply (stats_keep (accept n fn (popped n ol' st))); simpl; try done. lia.
Qed.

Lemma stats_search_loop (fuel : nat) : ∀ (st st' : SState) r,
  stats_ok' st → search_loop' fuel st = Returned r st' → stats_ok' st'.
Proof.
  induction fuel as [|fuel IH]; intros st st' r HS; simpl.
  - destruct (decide _); [done|]. by intros [= <- <-].
  - destruct (decide _); [|by intros [= <- <-]].
    pose proof (stats_iteration fuel st) as Hit.
    destruct (iteration' fuel st) as [st1|o].
    + apply IH. by apply Hit.
    + intros ->. by apply Hit.
Qed.

(** X11: what [get_statistics] reports after [plan] has returned: the
    statistics handed to the newest notification of the handlers, and
    nothing when there was none.  A snapshot has exactly the six keys
    [expanded], [generated], [evaluated], [max_depth] (integers),
    [max_g_value] and [max_f_value] (reals), and its counters are those of
    the last change of the f-layer: they can lag behind the counters of
    the search, and are never ahead of them. *)
Theorem statistics_are_last_snapshot (fuel : nat) (ol : OL) (out : list Action)
    (r : SearchResult) (st : SState) :
  plan initial goal applicable apply cost evaluate is_dead_end should_abort fuel ol out
  = Returned r st →
  statistics st = default ∅ (last_snapshot (events st)) ∧
  (statistics st = ∅ ∨
   (dom (statistics st) = stat_keys ∧
    ∃ e g v d mg mf,
      statistics st !! "expanded" = Some (IntStat e) ∧
      statistics st !! "generated" = Some (IntStat g) ∧
      statistics st !! "evaluated" = Some (IntStat v) ∧
      statistics st !! "max_depth" = Some (IntStat d) ∧
      statistics st !! "max_g_value" = Some (RealStat mg) ∧
      statistics st !! "max_f_value" = Some (RealStat mf) ∧
      (0 ≤ e ≤ expanded st)%Z ∧ (0 ≤ g ≤ generated st)%Z ∧
      (1 ≤ v ≤ evaluated st)%Z)).
Proof.
  rw /plan. destruct (decide _); [done|]. intros Hl.
  destruct (stats_search_loop _ _ _ _ (stats_initialize ol out) Hl) as [S1 S2 S3].
  split; [done|]. destruct S3 as [Hn|?]; [left|by right].
  by rw S1 Hn.
Qed.

(** *** What is given to the open list *)

Local Abbreviation inserts_live' :=
  (inserts_live (State := State) (Action := Action) (OL := OL) is_dead_end).

Lemma inserts_step (st st' : SState) (new : list nat) :
  inserted_handles (events st') = new ++ inserted_handles (events st) →
  (∀ i f, frame_list st !! i = Some f →
     ∃ f', frame_list st' !! i = Some f' ∧ h_value f' = h_value f) →
  (∀ i, i ∈ new → (1 ≤ i)%nat ∧ ∃ f, frame_list st' !! i = Some f ∧
     (i = 1%nat ∨ is_dead_end (h_value f) = false)) →
  inserts_live' st → inserts_live' st'.
Proof.
  intros He Hfr Hnew HI i. rw He. intros [Hin|Hin]%elem_of_app; [by apply Hnew|].
  destruct (HI i Hin) as (Hi & f & Hf & Hd). split; [done|].
  destruct (Hfr i f Hf) as (f' & Hf' & Hh). exists f'. by rw Hh.
Qed.

Lemma inserts_initialize (ol : OL) (out : list Action) :
  inserts_live' (initialize initial evaluate ol out).
Proof.
  intros i. simpl. intros ->%list_elem_of_singleton. split; [done|].
  eexists. split; [done|by left].
Qed.

Lemma inserts_process_action (st st' : SState) n a :
  inserts_live' st → process_action' n st a = Some st' → inserts_live' st'.
Proof.
  intros HI Hp.
  destruct (process_action_frames _ _ _ _ _ _ _ _ Hp) as (_ & Hold & _).
  have Hfr : ∀ i f, frame_list st !! i = Some f →
      ∃ f', frame_list st' !! i = Some f' ∧ h_value f' = h_value f.
  { intros i f Hf. destruct (Hold i f Hf) as (f' & Hf' & _ & Hh & _). by exists f'. }
  process_action_split Hp.
  - injection Hp as Hst'. destruct (is_dead_end (evaluate (apply a s))) eqn:Hd.
    + apply (inserts_step st st' []); [by rw -Hst'|done| |done].
      by intros i ?%elem_of_nil.
    + apply (inserts_step st st' [length (frame_list st)]); [by rw -Hst'|done| |done].
      intros i ->%list_elem_of_singleton.
      split; [apply lookup_lt_Some in Hframe; lia|].
      eexists. split; [rw -Hst' /=; by apply list_lookup_middle|].
      right. by rw /= Hd.
  - destruct (decide _); injection Hp as Hst'; [|by rw -Hst'].
    destruct (is_dead_end (h_value succ_frame)) eqn:Hd.
    + apply (inserts_step st st' []); [by rw -Hst'|done| |done].
      by intros i ?%elem_of_nil.
    + apply (inserts_step st st' [default 0%nat (state_indices st !! apply a s)]);
        [by rw -Hst'|done| |done].
      intros i ->%list_elem_of_singleton. split; [lia|].
      eexists. split.
      * rw -Hst' /=. apply list_lookup_insert_eq. by eapply lookup_lt_Some.
      * right. by rw /= Hd.
Qed.

Lemma inserts_expand_actions n (actions : list Action) : ∀ (st st' : SState),
  inserts_live' st → expand_actions' n st actions = Some st' → inserts_live' st'.
Proof.
  induction actions as [|a rest IH]; intros st st' HS Hx; simpl in Hx.
  - by simplify_eq.
  - destruct (process_action' n st a) as [st1|] eqn:Hp; [|done].
    eapply IH; [|done]. by eapply inserts_process_action.
Qed.

Lemma inserts_accept (st : SState) n ol' fn :
  frame_list st !! n = Some fn → inserts_live' st →
  inserts_live' (accept n fn (popped n ol' st)).
Proof.
  intros Hfn HI. apply (inserts_step st _ []); [| |by intros i ?%elem_of_nil|done].
  - rw /accept. by destruct (decide _).
  - intros i f Hf. rw accept_frame_list /=. destruct (decide (i = n)) as [->|Hne].
    + rw Hfn in Hf. injection Hf as <-. exists (set_closed true fn).
      split; [|done]. apply list_lookup_insert_eq. by eapply lookup_lt_Some.
    + exists f. by rw list_lookup_insert_ne.
Qed.

Lemma inserts_iteration (fuel : nat) (st st' : SState) :
  inserts_live' st → step_state (iteration' fuel st) = Some st' → inserts_live' st'.
Proof.
  intros HI. rw /iteration.
  destruct (ol_pop (open_list st)) as [[n ol']|]; [|done].
  change (frame_list (popped n ol' st)) with (frame_list st).
  destruct (frame_list st !! n) as [fn|] eqn:Hfn; [|done].
  destruct (closed fn); [by intros [= <-]|].
  pose proof (inserts_accept st n ol' fn Hfn HI) as HIa.
  destruct (should_abort _); [by intros [= <-]|].
  destruct (state fn) as [s|]; [|done].
  destruct (goal s).
  - by destruct (reconstruct _ _ _ _); simpl; intros [= <-].
  - destruct (expand_actions' _ _ _) as [st1|] eqn:Hx; simpl; intros [= <-].
    by eapply inserts_expand_actions; [|exact Hx].
Qed.

Lemma inserts_search_loop (fuel : nat) : ∀ (st st' : SState) r,
  inserts_live' st → search_loop' fuel st = Returned r st' → inserts_live' st'.
Proof.
  induction fuel as [|fuel IH]; intros st st' r HS; simpl.
  - destruct (decide _); [done|]. by intros [= <- <-].
  - destruct (decide _); [|by intros [= <- <-]].
    pose proof (inserts_iteration fuel st) as Hit.
    destruct (iteration' fuel st) as [st1|o].
    + apply IH. by apply Hit.
    + intros ->. by apply Hit.
Qed.

(** X12: what [plan] gives to the open list.  Every handle inserted is
    the handle of a frame with a state, never the handle 0 of the dummy
    frame, and the state is the initial state or a state whose heuristic
    value is not a dead end: apart from the initial state, a dead end is
    never queued, also not when a cheaper way to it is found. *)
Theorem only_live_states_are_queued (fuel : nat) (ol : OL) (out : list Action)
    (r : SearchResult) (st : SState) :
  plan initial goal applicable apply cost evaluate is_dead_end should_abort fuel ol out
  = Returned r st →
  ∀ i, i ∈ inserted_handles (events st) →
    (1 ≤ i)%nat ∧ ∃ f s, frame_list st !! i = Some f ∧ state f = Some s ∧
      expandable initial evaluate is_dead_end s.
Proof.
  intros Hplan i Hin. pose proof (WF_plan _ _ _ _ _ Hplan) as HW.
  revert Hplan. rw /plan. destruct (decide _); [done|]. intros Hl.
  destruct (inserts_search_loop _ _ _ _ (inserts_initialize ol out) Hl i Hin)
    as (Hi & f & Hf & Hd).
  destruct (wf_frames _ _ _ _ _ _ HW i f Hi Hf) as (s & Hs & Hix & Hh & _).
  split; [done|]. exists f, s. split_and!; [done..|].
  destruct Hd as [->|Hd]; [left|right; by rw -Hh].
  pose proof (wf_initial _ _ _ _ _ _ HW) as H1'.
  destruct (wf_index _ _ _ _ _ _ HW _ _ H1') as (_ & f1 & Hf1 & Hs1). congruence.
Qed.

(** *** The layers of the notifications *)

Local Abbreviation layers_ok st :=
  (last_f_value st = last_layer (snapshot_f_values (events st)) ∧
   layered (snapshot_f_values (events st))).

Lemma layers_process_action (st st' : SState) n a :
  layers_ok st → process_action' n st a = Some st' → layers_ok st'.
Proof.
  intros HS Hp. process_action_split Hp.
  - injection Hp as <-. by destruct (is_dead_end (evaluate (apply a s))).
  - destruct (decide _); injection Hp as <-; [|done].
    by destruct (is_dead_end (h_value succ_frame)).
Qed.

Lemma layers_expand_actions n (actions : list Action) : ∀ (st st' : SState),
  layers_ok st → expand_actions' n st actions = Some st' → layers_ok st'.
Proof.
  induction actions as [|a rest IH]; intros st st' HS Hx; simpl in Hx.
  - by simplify_eq.
  - destruct (process_action' n st a) as [st1|] eqn:Hp; [|done].
    eapply IH; [|done]. by eapply layers_process_action.
Qed.

Lemma layers_accept (st : SState) n fn :
  layers_ok st → layers_ok (accept n fn st).
Proof.
  intros [HL HS]. rw /accept. destruct (decide _) as [Hlt|]; [|done].
  rw /take_snapshot /= lookup_insert_eq /=. split; [done|]. split; [|done].
  by rw -HL.
Qed.

Lemma layers_iteration (fuel : nat) (st st' : SState) :
  layers_ok st → step_state (iteration' fuel st) = Some st' → layers_ok st'.
Proof.
  intros HS. rw /iteration.
  destruct (ol_pop (open_list st)) as [[n ol']|]; [|done].
  destruct (frame_list _ !! n) as [fn|]; [|done].
  destruct (closed fn); [by intros [= <-]|].
  have HSa : layers_ok (accept n fn (popped n ol' st)) by apply layers_accept.
  destruct (should_abort _); [by intros [= <-]|].
  destruct (state fn) as [s|]; [|done].
  destruct (goal s).
  - by destruct (reconstruct _ _ _ _); simpl; intros [= <-].
  - destruct (expand_actions' _ _ _) as [st1|] eqn:Hx; simpl; intros [= <-].
    by eapply layers_expand_actions; [|exact Hx].
Qed.

Lemma layers_search_loop (fuel : nat) : ∀ (st st' : SState) r,
  layers_ok st → search_loop' fuel st = Returned r st' → layers_ok st'.
Proof.
  induction fuel as [|fuel IH]; intros st st' r HS; simpl.
  - destruct (decide _); [done|]. by intros [= <- <-].
  - destruct (decide _); [|by intros [= <- <-]].
    pose proof (layers_iteration fuel st) as Hit.
    destruct (iteration' fuel st) as [st1|o].
    + apply IH. by apply Hit.
    + intros ->. by apply Hit.
Qed.


End Structure.

(** ** The general properties on the scenarios *)


(** The frames of the chain: one for each state. *)
Lemma one_frame_per_state_witness :
  ∃ st, Chain.run 10 ([] : list (nat * Qc)) [] = Returned SOLVED st ∧
    ∀ i j f f' s, frame_list st !! i = Some f → frame_list st !! j = Some f' →
      state f = Some s → state f' = Some s → i = j.
Proof.
  eassert (Chain.run 10 ([] : list (nat * Qc)) [] = Returned SOLVED _) as Hrun
    by (vm_compute; reflexivity).
  eexists. split; [exact Hrun|].
  exact (proj1 (one_frame_per_state "A" Chain.is_goal Chain.actions target
                  Chain.unit_cost Chain.h no_dead_end never_abort 10 [] [] _ _ Hrun)).
Defined.

(** The counters of the chain. *)
Lemma counters_meaning_witness :
  ∃ st, Chain.run 10 ([] : list (nat * Qc)) [] = Returned SOLVED st ∧
    evaluated st = (Z.of_nat (length (frame_list st)) - 1)%Z.
Proof.
  eassert (Chain.run 10 ([] : list (nat * Qc)) [] = Returned SOLVED _) as Hrun
    by (vm_compute; reflexivity).
  eexists. split; [exact Hrun|].
  exact (proj1 (counters_meaning "A" Chain.is_goal Chain.actions target
                  Chain.unit_cost Chain.h no_dead_end never_abort 10 [] [] _ _ Hrun)).
Defined.

(** The list open list, empty at entry, on the chain. *)
Lemma plan_stays_in_bounds_witness :
  ol_size ([] : list (nat * Qc)) = 0%nat ∧
  Chain.run 1 ([] : list (nat * Qc)) [] ≠ Undefined.
Proof.
  split; [reflexivity|].
  exact (proj1 (plan_stays_in_bounds "A" Chain.is_goal Chain.actions target
                  Chain.unit_cost Chain.h no_dead_end never_abort 1 [] [] eq_refl)).
Defined.

(** The dead-end initial state: the search is exhausted after its
    expansion. *)
Lemma unsolvable_means_exhausted_witness :
  ∃ st, ol_size ([] : list (nat * Qc)) = 0%nat ∧
    DeadInitial.run 5 = Returned UNSOLVABLE st ∧
    ol_size (open_list st) = 0%nat.
Proof.
  eassert (DeadInitial.run 5 = Returned UNSOLVABLE _) as Hrun
    by (vm_compute; reflexivity).
  eexists. split_and!; [reflexivity|exact Hrun|].
  exact (proj1 (unsolvable_means_exhausted "A" DeadInitial.is_goal DeadInitial.actions
                  target DeadInitial.unit_cost DeadInitial.h dead_end_1000 never_abort
                  5 [] [] _ eq_refl Hrun)).
Defined.

(** The chain has finitely many states and unit costs: the search
    returns. *)
Lemma plan_returns_witness :
  ∃ fuel0, ∀ fuel, (fuel0 ≤ fuel)%nat →
    ∃ r st, Chain.run fuel ([] : list (nat * Qc)) [] = Returned r st.
Proof.
  apply (plan_returns (OL := list (nat * Qc)) "A" Chain.is_goal Chain.actions target
           Chain.unit_cost Chain.h no_dead_end never_abort ["A"; "B"; "C"]).
  - apply chain_finite.
  - intros a. by vm_compute.
  - reflexivity.
Defined.


(** The chain is solved without a request to abort. *)
Lemma result_tells_why_witness :
  ∃ st, Chain.run 10 ([] : list (nat * Qc)) [] = Returned SOLVED st ∧
    never_abort (events st) = false.
Proof.
  eassert (Chain.run 10 ([] : list (nat * Qc)) [] = Returned SOLVED _) as Hrun
    by (vm_compute; reflexivity).
  eexists. split; [exact Hrun|].
  exact (result_tells_why "A" Chain.is_goal Chain.actions target
           Chain.unit_cost Chain.h no_dead_end never_abort 10 [] [] SOLVED _ Hrun).
Defined.

(** The chain with the abort flag set throughout. *)
Lemma abort_before_call_witness :
  ∃ st,
    plan (OL := list (nat * Qc)) "A" Chain.is_goal Chain.actions target
         Chain.unit_cost Chain.h no_dead_end (λ _, true) 1 [] [("B", "C")]
    = Returned ABORTED st ∧
    out_plan st = [("B", "C")] ∧ expanded st = 0%Z.
Proof.
  have Hsz : ol_size ([] : list (nat * Qc)) = 0%nat by reflexivity.
  have Hab : ∀ evs : list Event, (λ _ : list Event, true) evs = true by done.
  destruct (abort_before_call (OL := list (nat * Qc)) "A" Chain.is_goal Chain.actions
              target Chain.unit_cost Chain.h no_dead_end (λ _, true) 0 []
              [("B", "C")] Hsz Hab) as (st & Hp & Ho & He & _).
  by exists st.
Defined.

(** The statistics of the chain. *)
Lemma statistics_are_last_snapshot_witness :
  ∃ st, Chain.run 10 ([] : list (nat * Qc)) [] = Returned SOLVED st ∧
    statistics st = default ∅ (last_snapshot (events st)).
Proof.
  eassert (Chain.run 10 ([] : list (nat * Qc)) [] = Returned SOLVED _) as Hrun
    by (vm_compute; reflexivity).
  eexists. split; [exact Hrun|].
  exact (proj1 (statistics_are_last_snapshot "A" Chain.is_goal Chain.actions target
                  Chain.unit_cost Chain.h no_dead_end never_abort 10 [] [] _ _ Hrun)).
Defined.

(** The handles queued on the chain. *)
Lemma only_live_states_are_queued_witness :
  ∃ st, Chain.run 10 ([] : list (nat * Qc)) [] = Returned SOLVED st ∧
    ∀ i, i ∈ inserted_handles (events st) → (1 ≤ i)%nat.
Proof.
  eassert (Chain.run 10 ([] : list (nat * Qc)) [] = Returned SOLVED _) as Hrun
    by (vm_compute; reflexivity).
  eexists. split; [exact Hrun|]. intros i Hin.
  exact (proj1 (only_live_states_are_queued "A" Chain.is_goal Chain.actions target
                  Chain.unit_cost Chain.h no_dead_end never_abort 10 [] [] _ _ Hrun
                  i Hin)).
Defined.

(** The work on the chain is bounded by its three states. *)
Lemma work_is_bounded_witness :
  ∃ st, Chain.run 10 ([] : list (nat * Qc)) [] = Returned SOLVED st ∧
    (evaluated st ≤ 3)%Z.
Proof.
  eassert (Chain.run 10 ([] : list (nat * Qc)) [] = Returned SOLVED _) as Hrun
    by (vm_compute; reflexivity).
  eexists. split; [exact Hrun|].
  exact (proj1 (proj2 (work_is_bounded "A" Chain.is_goal Chain.actions target
                         Chain.unit_cost Chain.h no_dead_end never_abort
                         ["A"; "B"; "C"] chain_finite 10 [] [] _ _ Hrun))).
Defined.

